(** * ad2mqtt: the AlarmDecoder line parser and line reader

    A shallow embedding of [decoder/decoder.go] (package [alarmdecoder]):
    [ParseMessage], the [Message] struct, and the [AlarmDecoder] handle with
    [New], [Read] and [Write].  The Go library functions the package calls
    ([strings.Split], [strconv.Atoi], [strings.TrimSpace], [bufio.Scanner]
    with its default [ScanLines] split function) are embedded next to it.

    Go strings are byte sequences: a string is a [list ascii] (one [ascii]
    per byte), an [int] is a [Z].  A run-time panic (index or slice bounds
    out of range) is an explicit outcome, distinct from a returned [error]. *)

From Stdlib Require Import List ZArith Lia Bool Ascii String.
Import ListNotations.
Local Open Scope string_scope.
Local Open Scope list_scope.
Local Open Scope Z_scope.

(** ** Strings, bytes, panics *)

Definition gostring := list ascii.

(** A Rocq string literal read as a Go string. *)
Definition lit (s : string) : gostring := list_ascii_of_string s.

(** The quote mark, byte 34. *)
Definition dquote : gostring := ["034"%char].

(** Go's built-in [len]. *)
Definition len {A : Type} (l : list A) : Z := Z.of_nat (List.length l).

(** The numeric value of a byte, 0..255. *)
Definition byte_val (c : ascii) : Z := Z.of_N (N_of_ascii c).

(** Values carried by Go's run-time panics ([runtime.boundsError]) and by the
    one explicit [panic] of [bufio.Scanner]. *)
Inductive runtime_panic : Type :=
| IndexOutOfRange (i n : Z)      (* index out of range [i] with length n *)
| SliceBoundsHigh (hi n : Z)     (* slice bounds out of range [:hi] with length n *)
| SliceBoundsLow (lo hi : Z)     (* slice bounds out of range [lo:hi] *)
| TooManyEmptyTokens.            (* bufio.Scan: too many empty tokens without progressing *)

(** A Go call either returns its results or panics. *)
Inductive result (A : Type) : Type :=
| Return (a : A)
| Panic (p : runtime_panic).
Arguments Return {A} a.
Arguments Panic {A} p.

Definition bind {A B : Type} (r : result A) (k : A -> result B) : result B :=
  match r with
  | Return a => k a
  | Panic p => Panic p
  end.

Notation "x <- r ;; k" := (bind r (fun x => k))
  (at level 61, r at next level, right associativity).

(** [l[i]]: panics unless [0 <= i < len l]. *)
Definition index {A : Type} (l : list A) (i : Z) : result A :=
  if i <? 0 then Panic (IndexOutOfRange i (len l))
  else match nth_error l (Z.to_nat i) with
       | Some x => Return x
       | None => Panic (IndexOutOfRange i (len l))
       end.

(** [s[lo:hi]]: the run time checks [hi] against the length first, then
    [lo] against [hi]. *)
Definition slice (s : gostring) (lo hi : Z) : result gostring :=
  if (hi <? 0) || (len s <? hi) then Panic (SliceBoundsHigh hi (len s))
  else if (lo <? 0) || (hi <? lo) then Panic (SliceBoundsLow lo hi)
  else Return (firstn (Z.to_nat (hi - lo)) (skipn (Z.to_nat lo) s)).

(** ** Errors *)

Inductive strconv_err : Type := ErrSyntax | ErrRange.

(** The [error] values that can reach a caller of this package.  An
    [errors.Errorf] value keeps its format and its argument (here always a
    [[]string]); its rendering by [fmt] is not unfolded. *)
Inductive error : Type :=
| Errorf (format : string) (arg : list gostring)
| NumError (Func : string) (Num : gostring) (Err : strconv_err)
| EOF
| ErrTooLong
| ErrNegativeAdvance
| ErrAdvanceTooFar
| ErrBadReadCount
| ErrNoProgress
| TransportError (msg : string).

(** ** [strings.Split] at a one-byte separator

    [strings.Split(s, sep)] cuts [s] at every occurrence of [sep]; with no
    occurrence the result is the one-element slice holding [s] (also for the
    empty string).  The source only ever passes the one-byte separator of a
    comma, so the separator here is a byte. *)
Fixpoint Split (s : gostring) (sep : ascii) : list gostring :=
  match s with
  | [] => [[]]
  | c :: r =>
      if Ascii.eqb c sep then [] :: Split r sep
      else match Split r sep with
           | h :: t => (c :: h) :: t
           | [] => [[c]]
           end
  end.

(** ** [strconv.Atoi] *)

Definition maxInt64 : Z := 2 ^ 63 - 1.

(** The digit loop of the fast path: [ch -= '0'] wraps around in a byte. *)
Fixpoint atoi_digits (s : gostring) (n : Z) : option Z :=
  match s with
  | [] => Some n
  | c :: r =>
      let ch := (byte_val c - 48) mod 256 in
      if 9 <? ch then None else atoi_digits r (n * 10 + ch)
  end.

(** The digit loop of [ParseUint(s, 10, 64)], used by the slow path: the
    first offending byte decides between a syntax and a range error. *)
Fixpoint parseUint_digits (s : gostring) (n : Z) : Z + strconv_err :=
  match s with
  | [] => inl n
  | c :: r =>
      let v := byte_val c in
      if (48 <=? v) && (v <=? 57) then
        if (2 ^ 64 - 1) / 10 + 1 <=? n then inr ErrRange
        else
          let n1 := n * 10 + (v - 48) in
          if 2 ^ 64 - 1 <? n1 then inr ErrRange else parseUint_digits r n1
      else inr ErrSyntax
  end.

Definition is_sign (c : ascii) : bool :=
  Ascii.eqb c "-"%char || Ascii.eqb c "+"%char.

(** [ParseInt(s, 10, 0)] as [Atoi] uses it. *)
Definition parseInt_slow (s : gostring) : Z * option strconv_err :=
  match s with
  | [] => (0, Some ErrSyntax)
  | c0 :: r0 =>
      let neg := Ascii.eqb c0 "-"%char in
      let body := if is_sign c0 then r0 else s in
      match body with
      | [] => (0, Some ErrSyntax)
      | _ =>
          match parseUint_digits body 0 with
          | inr ErrSyntax => (0, Some ErrSyntax)
          | inr ErrRange =>
              if neg then (- 2 ^ 63, Some ErrRange) else (maxInt64, Some ErrRange)
          | inl un =>
              if negb neg && (2 ^ 63 <=? un) then (maxInt64, Some ErrRange)
              else if neg && (2 ^ 63 <? un) then (- 2 ^ 63, Some ErrRange)
              else (if neg then - un else un, None)
          end
      end
  end.

Definition Atoi (s : gostring) : Z * option error :=
  let sLen := len s in
  if (0 <? sLen) && (sLen <? 19) then
    match s with
    | [] => (0, Some (NumError "Atoi" s ErrSyntax))
    | c0 :: r0 =>
        if is_sign c0 && (len r0 <? 1) then (0, Some (NumError "Atoi" s ErrSyntax))
        else
          match atoi_digits (if is_sign c0 then r0 else s) 0 with
          | None => (0, Some (NumError "Atoi" s ErrSyntax))
          | Some n => (if Ascii.eqb c0 "-"%char then - n else n, None)
          end
    end
  else
    match parseInt_slow s with
    | (i64, Some e) => (i64, Some (NumError "Atoi" s e))
    | (i64, None) => (i64, None)
    end.

(** ** [unicode/utf8] and [unicode.IsSpace] *)

Definition RuneError : Z := 65533.
Definition RuneSelf : Z := 128.
Definition UTFMax : nat := 4.

(** The table [first]: information about the first byte of a sequence.  The
    high nibble indexes [acceptRanges] (or is F for the one-byte cases), the
    low three bits are the sequence length. *)
Definition first (v : Z) : Z :=
  if v <? 128 then 240           (* as: ASCII, size 1 *)
  else if v <? 194 then 241      (* xx: invalid, size 1 *)
  else if v <? 224 then 2        (* s1: accept 0, size 2 *)
  else if v =? 224 then 19       (* s2: accept 1, size 3 *)
  else if v <? 237 then 3        (* s3: accept 0, size 3 *)
  else if v =? 237 then 35       (* s4: accept 2, size 3 *)
  else if v <? 240 then 3        (* s3 *)
  else if v =? 240 then 52       (* s5: accept 3, size 4 *)
  else if v <? 244 then 4        (* s6: accept 0, size 4 *)
  else if v =? 244 then 68       (* s7: accept 4, size 4 *)
  else 241.

Definition acceptRanges (i : Z) : Z * Z :=
  if i =? 0 then (128, 191)
  else if i =? 1 then (160, 191)
  else if i =? 2 then (128, 159)
  else if i =? 3 then (144, 191)
  else if i =? 4 then (128, 143)
  else (0, 0).

Definition byte_at (s : gostring) (i : nat) : Z := byte_val (nth i s zero).

Definition is_cont (b : Z) : bool := (128 <=? b) && (b <=? 191).

(** [utf8.DecodeRuneInString]: the first rune of [s] and its width in
    bytes; an invalid or short encoding is [(RuneError, 1)]. *)
Definition DecodeRuneInString (s : gostring) : Z * nat :=
  match s with
  | [] => (RuneError, 0%nat)
  | c0 :: _ =>
      let s0 := byte_val c0 in
      let x := first s0 in
      if 240 <=? x then ((if Z.odd x then RuneError else s0), 1%nat)
      else
        let sz := Z.to_nat (Z.land x 7) in
        let accept := acceptRanges (Z.shiftr x 4) in
        if (List.length s <? sz)%nat then (RuneError, 1%nat)
        else
          let s1 := byte_at s 1 in
          if (s1 <? fst accept) || (snd accept <? s1) then (RuneError, 1%nat)
          else if (sz <=? 2)%nat then
            (Z.lor (Z.shiftl (Z.land s0 31) 6) (Z.land s1 63), 2%nat)
          else
            let s2 := byte_at s 2 in
            if negb (is_cont s2) then (RuneError, 1%nat)
            else if (sz <=? 3)%nat then
              (Z.lor (Z.lor (Z.shiftl (Z.land s0 15) 12) (Z.shiftl (Z.land s1 63) 6))
                     (Z.land s2 63), 3%nat)
            else
              let s3 := byte_at s 3 in
              if negb (is_cont s3) then (RuneError, 1%nat)
              else
                (Z.lor (Z.lor (Z.lor (Z.shiftl (Z.land s0 7) 18)
                                     (Z.shiftl (Z.land s1 63) 12))
                              (Z.shiftl (Z.land s2 63) 6))
                       (Z.land s3 63), 4%nat)
  end.

(** [utf8.RuneStart]: the byte is not a continuation byte. *)
Definition RuneStart (b : Z) : bool := negb (Z.land b 192 =? 128).

(** The backwards search of [DecodeLastRuneInString]:
    [for start--; start >= lim; start-- { if RuneStart(s[start]) { break } }],
    entered with [start] already decremented once and [steps] values of
    [start] left at or above [lim]; [None] is a [start] that fell below 0. *)
Fixpoint last_start (s : gostring) (start : nat) (steps : nat) : option nat :=
  match steps with
  | O => Some start
  | S k =>
      if RuneStart (byte_at s start) then Some start
      else match start with
           | O => None
           | S p => last_start s p k
           end
  end.

(** [utf8.DecodeLastRuneInString]: the last rune of [s] and its width. *)
Definition DecodeLastRuneInString (s : gostring) : Z * nat :=
  let e := List.length s in
  match e with
  | O => (RuneError, 0%nat)
  | S start0 =>
      let r := byte_at s start0 in
      if r <? RuneSelf then (r, 1%nat)
      else
        let lim := (e - UTFMax)%nat in
        let start :=
          match start0 with
          | O => O
          | S st =>
              match last_start s st (S st - lim) with
              | Some p => p
              | None => O
              end
          end in
        let '(r', size) := DecodeRuneInString (firstn (e - start) (skipn start s)) in
        if negb (start + size =? e)%nat then (RuneError, 1%nat) else (r', size)
  end.

(** The 16-bit ranges of [unicode.White_Space]; the first four lie in
    Latin-1 ([LatinOffset] is 4). *)
Definition White_Space_R16 : list (Z * Z) :=
  [(9, 13); (32, 32); (133, 133); (160, 160); (5760, 5760); (8192, 8202);
   (8232, 8233); (8239, 8239); (8287, 8287); (12288, 12288)].

Definition in_ranges (tab : list (Z * Z)) (r : Z) : bool :=
  existsb (fun lh => (fst lh <=? r) && (r <=? snd lh)) tab.

Definition IsSpace (r : Z) : bool :=
  if (0 <=? r) && (r <=? 255) then
    (r =? 9) || (r =? 10) || (r =? 11) || (r =? 12) || (r =? 13) || (r =? 32)
    || (r =? 133) || (r =? 160)
  else in_ranges (skipn 4 White_Space_R16) r.

(** ** [strings.TrimSpace] *)

(** [indexFunc(s, f, truth)]: the byte offset of the first rune [r] with
    [f(r) == truth], ranging over [s] rune by rune; [None] is -1.  [i] is
    the offset of the head of [s] and [skip] counts the bytes of the current
    rune still to pass. *)
Fixpoint indexFunc_loop (f : Z -> bool) (truth : bool) (s : gostring)
    (i skip : nat) : option nat :=
  match s with
  | [] => None
  | _ :: rest =>
      match skip with
      | S k => indexFunc_loop f truth rest (S i) k
      | O =>
          let '(r, size) := DecodeRuneInString s in
          if Bool.eqb (f r) truth then Some i
          else indexFunc_loop f truth rest (S i) (size - 1)
      end
  end.

Definition indexFunc (s : gostring) (f : Z -> bool) (truth : bool) : option nat :=
  indexFunc_loop f truth s 0 0.

(** [lastIndexFunc(s, f, truth)]: the same from the end,
    [for i := len(s); i > 0; { r, size := DecodeLastRuneInString(s[0:i]); i -= size; ... }]. *)
Fixpoint lastIndexFunc_loop (f : Z -> bool) (truth : bool) (s : gostring)
    (i skip : nat) : option nat :=
  match i with
  | O => None
  | S i' =>
      match skip with
      | S k => lastIndexFunc_loop f truth s i' k
      | O =>
          let '(r, size) := DecodeLastRuneInString (firstn i s) in
          if Bool.eqb (f r) truth then Some (i - size)%nat
          else lastIndexFunc_loop f truth s i' (size - 1)
      end
  end.

Definition lastIndexFunc (s : gostring) (f : Z -> bool) (truth : bool) : option nat :=
  lastIndexFunc_loop f truth s (List.length s) 0.

Definition TrimLeftFunc (s : gostring) (f : Z -> bool) : gostring :=
  match indexFunc s f false with
  | None => []
  | Some i => skipn i s
  end.

Definition TrimRightFunc (s : gostring) (f : Z -> bool) : gostring :=
  match lastIndexFunc s f false with
  | Some i =>
      if RuneSelf <=? byte_at s i
      then firstn (i + snd (DecodeRuneInString (skipn i s))) s
      else firstn (S i) s
  | None => firstn 0 s
  end.

Definition TrimFunc (s : gostring) (f : Z -> bool) : gostring :=
  TrimRightFunc (TrimLeftFunc s f) f.

(** The table [asciiSpace]. *)
Definition asciiSpace (c : ascii) : bool :=
  let v := byte_val c in
  (v =? 9) || (v =? 10) || (v =? 11) || (v =? 12) || (v =? 13) || (v =? 32).

(** The second loop of [TrimSpace], on [t = s[start:]]:
    [for ; stop > start; stop-- { c := s[stop-1]; ... }].  On a byte at or
    above [RuneSelf] it hands over to [TrimRightFunc] (older releases call
    [TrimFunc] here, with the same result: [t] starts with a byte that is
    ASCII and no space, so there is nothing to trim on the left). *)
Fixpoint TrimSpace_stop (t : gostring) (stop : nat) : gostring :=
  match stop with
  | O => []
  | S k =>
      let c := nth k t zero in
      if RuneSelf <=? byte_val c then TrimRightFunc (firstn stop t) IsSpace
      else if asciiSpace c then TrimSpace_stop t k
      else firstn stop t
  end.

(** [strings.TrimSpace]: the first loop advances [start] over ASCII space
    (the recursive call is on [s[start+1:]]); a byte at or above [RuneSelf]
    hands the rest over to the rune-aware functions. *)
Fixpoint TrimSpace (s : gostring) : gostring :=
  match s with
  | [] => []
  | c :: r =>
      if RuneSelf <=? byte_val c then TrimFunc s IsSpace
      else if asciiSpace c then TrimSpace r
      else TrimSpace_stop s (List.length s)
  end.

(** ** The [Message] struct *)

Record Message : Type := mkMessage {
  UnparsedMessage : gostring;
  Ready : bool;
  ArmedAway : bool;
  ArmedHome : bool;
  BacklightOn : bool;
  ProgrammingMode : bool;
  Beeps : Z;
  ZoneBypassed : bool;
  ACPower : bool;
  ChimeEnabled : bool;
  AlarmHasOccured : bool;
  AlarmSounding : bool;
  BatteryLow : bool;
  EntryDelayDisabled : bool;
  Fire : bool;
  SystemIssue : bool;
  PerimeterOnly : bool;
  Mode : gostring;
  Zone : gostring;
  RawData : gostring;
  KeypadMessage : gostring
}.

(** [Message{}], the zero value. *)
Definition Message_zero : Message :=
  mkMessage [] false false false false false 0 false false false false false
            false false false false false [] [] [] [].

(** Field assignments [m.F = v]. *)
Module Set_.
Definition UnparsedMessage v m := let 'mkMessage _ a1 a2 a3 a4 a5 a6 a7 a8 a9 a10 a11 a12 a13 a14 a15 a16 a17 a18 a19 a20 := m in mkMessage v a1 a2 a3 a4 a5 a6 a7 a8 a9 a10 a11 a12 a13 a14 a15 a16 a17 a18 a19 a20.
Definition Ready v m := let 'mkMessage a0 _ a2 a3 a4 a5 a6 a7 a8 a9 a10 a11 a12 a13 a14 a15 a16 a17 a18 a19 a20 := m in mkMessage a0 v a2 a3 a4 a5 a6 a7 a8 a9 a10 a11 a12 a13 a14 a15 a16 a17 a18 a19 a20.
Definition ArmedAway v m := let 'mkMessage a0 a1 _ a3 a4 a5 a6 a7 a8 a9 a10 a11 a12 a13 a14 a15 a16 a17 a18 a19 a20 := m in mkMessage a0 a1 v a3 a4 a5 a6 a7 a8 a9 a10 a11 a12 a13 a14 a15 a16 a17 a18 a19 a20.
Definition ArmedHome v m := let 'mkMessage a0 a1 a2 _ a4 a5 a6 a7 a8 a9 a10 a11 a12 a13 a14 a15 a16 a17 a18 a19 a20 := m in mkMessage a0 a1 a2 v a4 a5 a6 a7 a8 a9 a10 a11 a12 a13 a14 a15 a16 a17 a18 a19 a20.
Definition BacklightOn v m := let 'mkMessage a0 a1 a2 a3 _ a5 a6 a7 a8 a9 a10 a11 a12 a13 a14 a15 a16 a17 a18 a19 a20 := m in mkMessage a0 a1 a2 a3 v a5 a6 a7 a8 a9 a10 a11 a12 a13 a14 a15 a16 a17 a18 a19 a20.
Definition ProgrammingMode v m := let 'mkMessage a0 a1 a2 a3 a4 _ a6 a7 a8 a9 a10 a11 a12 a13 a14 a15 a16 a17 a18 a19 a20 := m in mkMessage a0 a1 a2 a3 a4 v a6 a7 a8 a9 a10 a11 a12 a13 a14 a15 a16 a17 a18 a19 a20.
Definition Beeps v m := let 'mkMessage a0 a1 a2 a3 a4 a5 _ a7 a8 a9 a10 a11 a12 a13 a14 a15 a16 a17 a18 a19 a20 := m in mkMessage a0 a1 a2 a3 a4 a5 v a7 a8 a9 a10 a11 a12 a13 a14 a15 a16 a17 a18 a19 a20.
Definition ZoneBypassed v m := let 'mkMessage a0 a1 a2 a3 a4 a5 a6 _ a8 a9 a10 a11 a12 a13 a14 a15 a16 a17 a18 a19 a20 := m in mkMessage a0 a1 a2 a3 a4 a5 a6 v a8 a9 a10 a11 a12 a13 a14 a15 a16 a17 a18 a19 a20.
Definition ACPower v m := let 'mkMessage a0 a1 a2 a3 a4 a5 a6 a7 _ a9 a10 a11 a12 a13 a14 a15 a16 a17 a18 a19 a20 := m in mkMessage a0 a1 a2 a3 a4 a5 a6 a7 v a9 a10 a11 a12 a13 a14 a15 a16 a17 a18 a19 a20.
Definition ChimeEnabled v m := let 'mkMessage a0 a1 a2 a3 a4 a5 a6 a7 a8 _ a10 a11 a12 a13 a14 a15 a16 a17 a18 a19 a20 := m in mkMessage a0 a1 a2 a3 a4 a5 a6 a7 a8 v a10 a11 a12 a13 a14 a15 a16 a17 a18 a19 a20.
Definition AlarmHasOccured v m := let 'mkMessage a0 a1 a2 a3 a4 a5 a6 a7 a8 a9 _ a11 a12 a13 a14 a15 a16 a17 a18 a19 a20 := m in mkMessage a0 a1 a2 a3 a4 a5 a6 a7 a8 a9 v a11 a12 a13 a14 a15 a16 a17 a18 a19 a20.
Definition AlarmSounding v m := let 'mkMessage a0 a1 a2 a3 a4 a5 a6 a7 a8 a9 a10 _ a12 a13 a14 a15 a16 a17 a18 a19 a20 := m in mkMessage a0 a1 a2 a3 a4 a5 a6 a7 a8 a9 a10 v a12 a13 a14 a15 a16 a17 a18 a19 a20.
Definition BatteryLow v m := let 'mkMessage a0 a1 a2 a3 a4 a5 a6 a7 a8 a9 a10 a11 _ a13 a14 a15 a16 a17 a18 a19 a20 := m in mkMessage a0 a1 a2 a3 a4 a5 a6 a7 a8 a9 a10 a11 v a13 a14 a15 a16 a17 a18 a19 a20.
Definition EntryDelayDisabled v m := let 'mkMessage a0 a1 a2 a3 a4 a5 a6 a7 a8 a9 a10 a11 a12 _ a14 a15 a16 a17 a18 a19 a20 := m in mkMessage a0 a1 a2 a3 a4 a5 a6 a7 a8 a9 a10 a11 a12 v a14 a15 a16 a17 a18 a19 a20.
Definition Fire v m := let 'mkMessage a0 a1 a2 a3 a4 a5 a6 a7 a8 a9 a10 a11 a12 a13 _ a15 a16 a17 a18 a19 a20 := m in mkMessage a0 a1 a2 a3 a4 a5 a6 a7 a8 a9 a10 a11 a12 a13 v a15 a16 a17 a18 a19 a20.
Definition SystemIssue v m := let 'mkMessage a0 a1 a2 a3 a4 a5 a6 a7 a8 a9 a10 a11 a12 a13 a14 _ a16 a17 a18 a19 a20 := m in mkMessage a0 a1 a2 a3 a4 a5 a6 a7 a8 a9 a10 a11 a12 a13 a14 v a16 a17 a18 a19 a20.
Definition PerimeterOnly v m := let 'mkMessage a0 a1 a2 a3 a4 a5 a6 a7 a8 a9 a10 a11 a12 a13 a14 a15 _ a17 a18 a19 a20 := m in mkMessage a0 a1 a2 a3 a4 a5 a6 a7 a8 a9 a10 a11 a12 a13 a14 a15 v a17 a18 a19 a20.
Definition Mode v m := let 'mkMessage a0 a1 a2 a3 a4 a5 a6 a7 a8 a9 a10 a11 a12 a13 a14 a15 a16 _ a18 a19 a20 := m in mkMessage a0 a1 a2 a3 a4 a5 a6 a7 a8 a9 a10 a11 a12 a13 a14 a15 a16 v a18 a19 a20.
Definition Zone v m := let 'mkMessage a0 a1 a2 a3 a4 a5 a6 a7 a8 a9 a10 a11 a12 a13 a14 a15 a16 a17 _ a19 a20 := m in mkMessage a0 a1 a2 a3 a4 a5 a6 a7 a8 a9 a10 a11 a12 a13 a14 a15 a16 a17 v a19 a20.
Definition RawData v m := let 'mkMessage a0 a1 a2 a3 a4 a5 a6 a7 a8 a9 a10 a11 a12 a13 a14 a15 a16 a17 a18 _ a20 := m in mkMessage a0 a1 a2 a3 a4 a5 a6 a7 a8 a9 a10 a11 a12 a13 a14 a15 a16 a17 a18 v a20.
Definition KeypadMessage v m := let 'mkMessage a0 a1 a2 a3 a4 a5 a6 a7 a8 a9 a10 a11 a12 a13 a14 a15 a16 a17 a18 a19 _ := m in mkMessage a0 a1 a2 a3 a4 a5 a6 a7 a8 a9 a10 a11 a12 a13 a14 a15 a16 a17 a18 a19 v.
End Set_.

(** [bits[k] == '1']: the strict byte comparison of the source. *)
Definition is_one (c : ascii) : bool := Ascii.eqb c "1"%char.

(** ** [ParseMessage] *)

Definition ParseMessage (s : gostring) : result (Message * option error) :=
  let m := Set_.UnparsedMessage s Message_zero in
  let parts := Split s ","%char in
  if negb (len parts =? 4) then
    Return (Message_zero, Some (Errorf "expected 4 parts got: %#v" parts))
  else
    bits <- index parts 0 ;;
    b <- index bits 1 ;; let m := Set_.Ready (is_one b) m in
    b <- index bits 2 ;; let m := Set_.ArmedAway (is_one b) m in
    b <- index bits 3 ;; let m := Set_.ArmedHome (is_one b) m in
    b <- index bits 4 ;; let m := Set_.BacklightOn (is_one b) m in
    b <- index bits 5 ;; let m := Set_.ProgrammingMode (is_one b) m in
    d <- slice bits 6 7 ;;
    let '(n, err) := Atoi d in
    let m := Set_.Beeps n m in
    match err with
    | Some e => Return (Message_zero, Some e)
    | None =>
        b <- index bits 7 ;; let m := Set_.ZoneBypassed (is_one b) m in
        b <- index bits 8 ;; let m := Set_.ACPower (is_one b) m in
        b <- index bits 9 ;; let m := Set_.ChimeEnabled (is_one b) m in
        b <- index bits 10 ;; let m := Set_.AlarmHasOccured (is_one b) m in
        b <- index bits 11 ;; let m := Set_.AlarmSounding (is_one b) m in
        b <- index bits 12 ;; let m := Set_.BatteryLow (is_one b) m in
        b <- index bits 13 ;; let m := Set_.EntryDelayDisabled (is_one b) m in
        b <- index bits 14 ;; let m := Set_.Fire (is_one b) m in
        b <- index bits 15 ;; let m := Set_.SystemIssue (is_one b) m in
        b <- index bits 16 ;; let m := Set_.PerimeterOnly (is_one b) m in
        md <- slice bits 18 19 ;; let m := Set_.Mode md m in
        z <- index parts 1 ;; let m := Set_.Zone z m in
        rd <- index parts 2 ;; let m := Set_.RawData rd m in
        msg <- index parts 3 ;;
        inner <- slice msg 1 (len msg - 1) ;;
        let m := Set_.KeypadMessage (TrimSpace inner) m in
        Return (m, None)
    end.

(** ** The transport behind the [io.ReadWriter]

    The byte stream the decoder is built over.  [incoming] is what the
    device will deliver, one chunk per [Read] call (a chunk longer than the
    caller's buffer is delivered over several calls); once the chunks are
    used up every [Read] returns [(0, closing)], where [closing] is [io.EOF]
    for a closed stream.  [Write] appends to [outgoing] unless the transport
    refuses writes. *)
Record Transport : Type := mkTransport {
  incoming : list gostring;
  closing : error;
  outgoing : gostring;
  write_refused : option error
}.

(** [rw.Read(p)] with [len(p) = n]: the bytes stored in [p], the error, and
    the transport afterwards. *)
Definition Transport_Read (t : Transport) (n : Z) : gostring * option error * Transport :=
  match incoming t with
  | [] => ([], Some (closing t), t)
  | c :: rest =>
      let k := Z.to_nat (Z.min n (len c)) in
      let left := if len c <=? n then rest else skipn k c :: rest in
      (firstn k c, None, mkTransport left (closing t) (outgoing t) (write_refused t))
  end.

(** [rw.Write(p)]. *)
Definition Transport_Write (t : Transport) (p : gostring) : Z * option error * Transport :=
  match write_refused t with
  | Some e => (0, Some e, t)
  | None =>
      (len p, None, mkTransport (incoming t) (closing t) (outgoing t ++ p) (write_refused t))
  end.

(** ** [bufio.Scanner] with the [ScanLines] split function *)

Definition MaxScanTokenSize : Z := 64 * 1024.
Definition startBufSize : Z := 4096.
Definition maxConsecutiveEmptyReads : nat := 100.
Definition maxInt : Z := 2 ^ 63 - 1.

(** The scanner's fields.  [buf] holds [s.buf[0:s.end]], so [s.end] is its
    length; [buf_len] is [len(s.buf)], the allocated size.  [tok] is [None]
    for a nil token.  The reader the scanner pulls from is the decoder's
    transport, which [Scan] takes and hands back. *)
Record Scanner : Type := mkScanner {
  maxTokenSize : Z;
  tok : option gostring;
  buf : gostring;
  buf_len : Z;
  start : Z;
  empties : Z;
  scanCalled : bool;
  done : bool;
  err : option error
}.

Definition end_ (s : Scanner) : Z := len (buf s).

Definition NewScanner : Scanner :=
  mkScanner MaxScanTokenSize None [] 0 0 0 false false None.

Definition with_tok v s := mkScanner (maxTokenSize s) v (buf s) (buf_len s) (start s) (empties s) (scanCalled s) (done s) (err s).
Definition with_buf v n st s := mkScanner (maxTokenSize s) (tok s) v n st (empties s) (scanCalled s) (done s) (err s).
Definition with_start v s := mkScanner (maxTokenSize s) (tok s) (buf s) (buf_len s) v (empties s) (scanCalled s) (done s) (err s).
Definition with_empties v s := mkScanner (maxTokenSize s) (tok s) (buf s) (buf_len s) (start s) v (scanCalled s) (done s) (err s).
Definition with_scanCalled v s := mkScanner (maxTokenSize s) (tok s) (buf s) (buf_len s) (start s) (empties s) v (done s) (err s).
Definition with_err v s := mkScanner (maxTokenSize s) (tok s) (buf s) (buf_len s) (start s) (empties s) (scanCalled s) (done s) v.

(** [s.setErr(err)]: records the first non-EOF error. *)
Definition setErr (e : error) (s : Scanner) : Scanner :=
  match err s with
  | None | Some EOF => with_err (Some e) s
  | Some _ => s
  end.

(** [s.advance(n)]. *)
Definition advance (n : Z) (s : Scanner) : bool * Scanner :=
  if n <? 0 then (false, setErr ErrNegativeAdvance s)
  else if end_ s - start s <? n then (false, setErr ErrAdvanceTooFar s)
  else (true, with_start (start s + n) s).

(** [bytes.IndexByte]. *)
Fixpoint IndexByte (b : gostring) (c : ascii) : option Z :=
  match b with
  | [] => None
  | x :: r =>
      if Ascii.eqb x c then Some 0
      else match IndexByte r c with
           | Some i => Some (i + 1)
           | None => None
           end
  end.

Definition newline : ascii := "010"%char.
Definition carriage_return : ascii := "013"%char.

(** [dropCR]: drops one terminal carriage return. *)
Definition dropCR (data : gostring) : gostring :=
  match rev data with
  | c :: r => if Ascii.eqb c carriage_return then rev r else data
  | [] => data
  end.

(** [bufio.ScanLines]: the advance and the token ([None] for nil); it never
    returns an error. *)
Definition ScanLines (data : gostring) (atEOF : bool) : Z * option gostring :=
  if atEOF && (len data =? 0) then (0, None)
  else match IndexByte data newline with
       | Some i => (i + 1, Some (dropCR (firstn (Z.to_nat i) data)))
       | None => if atEOF then (len data, Some (dropCR data)) else (0, None)
       end.

Definition has_err (s : Scanner) : bool :=
  match err s with Some _ => true | None => false end.

(** The read loop at the end of one round of [Scan]:
    [for loop := 0; ; { n, err := s.r.Read(s.buf[s.end:len(s.buf)]) ... }].
    [k] is [maxConsecutiveEmptyReads - loop]. *)
Fixpoint Scan_read (k : nat) (t : Transport) (s : Scanner) : Transport * Scanner :=
  let '(data, rerr, t') := Transport_Read t (buf_len s - end_ s) in
  let n := len data in
  if (n <? 0) || (buf_len s - end_ s <? n) then (t', setErr ErrBadReadCount s)
  else
    let s := with_buf (buf s ++ data) (buf_len s) (start s) s in
    match rerr with
    | Some e => (t', setErr e s)
    | None =>
        if 0 <? n then (t', with_empties 0 s)
        else match k with
             | O => (t', setErr ErrNoProgress s)
             | S k' => Scan_read k' t' s
             end
    end.

(** The part of a round that makes room: shift the data to the front of the
    buffer, then grow the buffer when it is full.  [inr] is the early
    [return false] on a token that is too long. *)
Definition Scan_room (s : Scanner) : Scanner + Scanner :=
  let s :=
    if (0 <? start s) && ((end_ s =? buf_len s) || (buf_len s / 2 <? start s))
    then with_buf (skipn (Z.to_nat (start s)) (buf s)) (buf_len s) 0 s
    else s in
  if end_ s =? buf_len s then
    if (maxTokenSize s <=? buf_len s) || (maxInt / 2 <? buf_len s)
    then inr (setErr ErrTooLong s)
    else
      let newSize := buf_len s * 2 in
      let newSize := if newSize =? 0 then startBufSize else newSize in
      let newSize := if maxTokenSize s <? newSize then maxTokenSize s else newSize in
      inl (with_buf (skipn (Z.to_nat (start s)) (buf s)) newSize 0 s)
  else inl s.

(** What the first half of a round decides: a token is ready ([return
    true]), the scan is over ([return false]), or more input is needed.
    [ScanLines] returns no error, so the branch of [Scan] for an error of
    the split function has no counterpart here. *)
Inductive round : Type :=
| Token (s : Scanner)
| Stop (s : Scanner)
| More (s : Scanner)
| Panics (p : runtime_panic).

Definition Scan_token (s : Scanner) : round :=
  if (start s <? end_ s) || has_err s then
    let data := skipn (Z.to_nat (start s)) (buf s) in
    let '(adv, token) := ScanLines data (has_err s) in
    match advance adv s with
    | (false, s) => Stop s
    | (true, s) =>
        let s := with_tok token s in
        match token with
        | Some _ =>
            if negb (has_err s) || (0 <? adv) then Token (with_empties 0 s)
            else
              let s := with_empties (empties s + 1) s in
              if Z.of_nat maxConsecutiveEmptyReads <? empties s
              then Panics TooManyEmptyTokens
              else Token s
        | None => More s
        end
    end
  else More s.

(** The loop of [Scan]; [fuel] bounds the number of rounds. *)
Fixpoint Scan_loop (fuel : nat) (t : Transport) (s : Scanner)
    : option (result (bool * Transport * Scanner)) :=
  match fuel with
  | O => None
  | S fuel' =>
      match Scan_token s with
      | Panics p => Some (Panic p)
      | Token s => Some (Return (true, t, s))
      | Stop s => Some (Return (false, t, s))
      | More s =>
          if has_err s then
            Some (Return (false, t, with_buf [] (buf_len s) 0 s))
          else
            match Scan_room s with
            | inr s => Some (Return (false, t, s))
            | inl s =>
                let '(t, s) := Scan_read maxConsecutiveEmptyReads t s in
                Scan_loop fuel' t s
            end
      end
  end.

(** [s.Scan()]. *)
Definition Scan (fuel : nat) (t : Transport) (s : Scanner)
    : option (result (bool * Transport * Scanner)) :=
  if done s then Some (Return (false, t, s))
  else Scan_loop fuel t (with_scanCalled true s).

(** [s.Err()]: [io.EOF] is not reported. *)
Definition Scanner_Err (s : Scanner) : option error :=
  match err s with
  | Some EOF => None
  | e => e
  end.

(** [s.Text()]. *)
Definition Text (s : Scanner) : gostring :=
  match tok s with
  | Some b => b
  | None => []
  end.

(** ** [AlarmDecoder] *)

(** The handle.  In the source both fields point at the same stream: the
    scanner reads from [rw].  Here [rw] is that one stream and the scanner
    borrows it in [Read]. *)
Record AlarmDecoder : Type := mkAlarmDecoder {
  rw : Transport;
  scanner : Scanner
}.

Definition New (rw : Transport) : AlarmDecoder :=
  mkAlarmDecoder rw NewScanner.

(** [ad.Read()]: a single message from the stream. *)
Definition Read (fuel : nat) (ad : AlarmDecoder)
    : option (result (Message * option error * AlarmDecoder)) :=
  match Scan fuel (rw ad) (scanner ad) with
  | None => None
  | Some (Panic p) => Some (Panic p)
  | Some (Return (hasMsg, t, sc)) =>
      let ad := mkAlarmDecoder t sc in
      match Scanner_Err sc with
      | Some e => Some (Return (Message_zero, Some e, ad))
      | None =>
          if hasMsg then
            Some (r <- ParseMessage (Text sc) ;; Return (r, ad))
          else Some (Return (Message_zero, Some EOF, ad))
      end
  end.

(** [ad.Write(msg)]. *)
Definition Write (ad : AlarmDecoder) (msg : gostring) : option error * AlarmDecoder :=
  let '(_, e, t) := Transport_Write (rw ad) msg in
  (e, mkAlarmDecoder t (scanner ad)).

(** ** Reading the spec on the embedding *)

(** The spec's parse-error taxonomy, read on the error values the source
    builds: the [errors.Errorf] of the segment-count check is the malformed
    frame, the [*strconv.NumError] of [Atoi] is the invalid beep count.  The
    source has no value for the other two kinds. *)
Inductive ParseErrorKind : Type :=
| MalformedFrame
| InvalidBeepCount
| TruncatedBitField
| MalformedKeypadText.

Definition kind_of (e : error) : option ParseErrorKind :=
  match e with
  | Errorf _ _ => Some MalformedFrame
  | NumError _ _ _ => Some InvalidBeepCount
  | _ => None
  end.

Definition comma : ascii := ","%char.

Definition is_digit (c : ascii) : bool :=
  (48 <=? byte_val c) && (byte_val c <=? 57).

(** The byte of [bits] at position [k] (the zero byte when out of range). *)
Definition bit (bits : gostring) (k : nat) : ascii := nth k bits zero.

(** What an accepted line decodes to, field by field, in terms of its four
    segments. *)
Definition decoded (s bits z rd msg : gostring) : Message :=
  {| UnparsedMessage := s;
     Ready := is_one (bit bits 1);
     ArmedAway := is_one (bit bits 2);
     ArmedHome := is_one (bit bits 3);
     BacklightOn := is_one (bit bits 4);
     ProgrammingMode := is_one (bit bits 5);
     Beeps := byte_val (bit bits 6) - 48;
     ZoneBypassed := is_one (bit bits 7);
     ACPower := is_one (bit bits 8);
     ChimeEnabled := is_one (bit bits 9);
     AlarmHasOccured := is_one (bit bits 10);
     AlarmSounding := is_one (bit bits 11);
     BatteryLow := is_one (bit bits 12);
     EntryDelayDisabled := is_one (bit bits 13);
     Fire := is_one (bit bits 14);
     SystemIssue := is_one (bit bits 15);
     PerimeterOnly := is_one (bit bits 16);
     Mode := [bit bits 18];
     Zone := z;
     RawData := rd;
     KeypadMessage := TrimSpace (removelast (tl msg)) |}.

(** The boolean flag the source fills from position [k] of the bit field
    (the numbered comments of the struct); position 6 holds the beep count
    and has no flag. *)
Definition flag (k : nat) (m : Message) : bool :=
  match k with
  | 1 => Ready m | 2 => ArmedAway m | 3 => ArmedHome m | 4 => BacklightOn m
  | 5 => ProgrammingMode m | 7 => ZoneBypassed m | 8 => ACPower m
  | 9 => ChimeEnabled m | 10 => AlarmHasOccured m | 11 => AlarmSounding m
  | 12 => BatteryLow m | 13 => EntryDelayDisabled m | 14 => Fire m
  | 15 => SystemIssue m | 16 => PerimeterOnly m
  | _ => false
  end%nat.

Definition flag_positions : list nat :=
  [1; 2; 3; 4; 5; 7; 8; 9; 10; 11; 12; 13; 14; 15; 16]%nat.

(** A line the parser accepts: four segments, a bit field that covers
    position 18 with a decimal digit at position 6, and a keypad text of at
    least two bytes. *)
Definition well_formed (s : gostring) : Prop :=
  exists bits z rd msg,
    Split s comma = [bits; z; rd; msg] /\
    19 <= len bits /\ is_digit (bit bits 6) = true /\ 2 <= len msg.



Definition all_ascii (s : gostring) : Prop :=
  Forall (fun c => byte_val c < RuneSelf) s.

(** [a] occurs in [b] as a contiguous run of bytes. *)
Definition infix (a b : gostring) : Prop :=
  exists pre post, b = pre ++ a ++ post.

(** What two runs of [ParseMessage] have in common when the lines differ
    only where the parser does not look: the outcome with
    [UnparsedMessage] blanked and, in a bounds panic, the length of the
    offending string left out. *)
Definition blank_panic (p : runtime_panic) : runtime_panic :=
  match p with
  | IndexOutOfRange i _ => IndexOutOfRange i 0
  | SliceBoundsHigh hi _ => SliceBoundsHigh hi 0
  | p => p
  end.

Definition observe (r : result (Message * option error)) : result (Message * option error) :=
  match r with
  | Return (m, e) => Return (Set_.UnparsedMessage [] m, e)
  | Panic p => Panic (blank_panic p)
  end.

(** The positions of the bit field that [ParseMessage] reads. *)
Definition inspected : list nat :=
  [1; 2; 3; 4; 5; 6; 7; 8; 9; 10; 11; 12; 13; 14; 15; 16; 18]%nat.

(** ** The line of the repository's tests *)

Definition test_line : gostring :=
  lit "[00000000011000003A--],,," ++ dquote ++ lit "test" ++ dquote.

(** The bytes [TestRead] writes to the stream: the line and its newline. *)
Definition test_bytes : gostring := test_line ++ [newline].

Definition test_message : Message :=
  {| UnparsedMessage := test_line;
     Ready := false; ArmedAway := false; ArmedHome := false;
     BacklightOn := false; ProgrammingMode := false; Beeps := 0;
     ZoneBypassed := false; ACPower := false; ChimeEnabled := false;
     AlarmHasOccured := true; AlarmSounding := true;
     BatteryLow := false; EntryDelayDisabled := false; Fire := false;
     SystemIssue := false; PerimeterOnly := false;
     Mode := lit "A"; Zone := []; RawData := [];
     KeypadMessage := lit "test" |}.

(** A stream that delivers [chunks] and is then closed. *)
Definition stream (chunks : list gostring) : Transport :=
  mkTransport chunks EOF [] None.

(** The segment of the first test case, quotes included. *)
Definition disarmed_segment : gostring :=
  dquote ++ lit "****DISARMED****  READY TO ARM  " ++ dquote.

Definition utf8 (l : list Z) : gostring := map (fun v => ascii_of_N (Z.to_N v)) l.

(** A frame cut short inside its bit field, and a frame whose keypad text
    is a lone quote mark. *)
Definition truncated_line : gostring :=
  lit "[10000601,045,[f71f00000045001c28020000000000]," ++ disarmed_segment.

Definition short_keypad_line : gostring :=
  lit "[00000000011000003A--],,," ++ dquote.

(** The test line without its brackets and with other bytes at positions 0
    and 17. *)
Definition bracketless_line : gostring :=
  lit "X0000000001100000?A,,," ++ dquote ++ lit "test" ++ dquote.




(** ** Further readings of the source *)

(** The panics of an index or a slice expression. *)
Definition bounds_panic (p : runtime_panic) : Prop :=
  match p with
  | TooManyEmptyTokens => False
  | _ => True
  end.

(** The number of commas of a line. *)
Definition commas (s : gostring) : nat := count_occ ascii_dec s comma.

(** *** The reader's state *)

(** What the scanner holds and has not yet handed out: [s.buf[s.start:s.end]]. *)
Definition pending (s : Scanner) : gostring :=
  skipn (Z.to_nat (start s)) (buf s).

(** The bounds [Scan] keeps on its indices. *)
Definition Scanner_ok (s : Scanner) : Prop :=
  done s = false /\
  maxTokenSize s = MaxScanTokenSize /\
  0 <= start s <= end_ s /\
  end_ s <= buf_len s <= MaxScanTokenSize.

(** The bytes still to come out of a decoder: what the scanner holds,
    then what the stream will deliver. *)
Definition unread (ad : AlarmDecoder) : gostring :=
  pending (scanner ad) ++ List.concat (incoming (rw ad)).

(** No read of the stream returns zero bytes without an error. *)
Definition no_empty_chunk (t : Transport) : Prop :=
  Forall (fun c => c <> []) (incoming t).

(** A decoder in the middle of a stream, with [data] still to be read and
    no error met so far. *)
Definition reading (ad : AlarmDecoder) (data : gostring) : Prop :=
  Scanner_ok (scanner ad) /\
  err (scanner ad) = None /\
  no_empty_chunk (rw ad) /\
  unread ad = data.

(** A decoder whose stream has ended: the closing error is recorded and
    nothing is left to hand out. *)
Definition finished (ad : AlarmDecoder) : Prop :=
  Scanner_ok (scanner ad) /\
  err (scanner ad) = Some (closing (rw ad)) /\
  incoming (rw ad) = [] /\
  pending (scanner ad) = [].

(** The same stream seen from the writing side. *)
Definition same_output (ad ad' : AlarmDecoder) : Prop :=
  outgoing (rw ad') = outgoing (rw ad) /\
  write_refused (rw ad') = write_refused (rw ad) /\
  closing (rw ad') = closing (rw ad).

(** [n] calls of [ad.Read()] one after the other, the way the loop of
    [run] in main.go issues them: the results in order and the decoder
    left behind.  A panic ends the program, so nothing follows it. *)
Fixpoint Reads (fuel n : nat) (ad : AlarmDecoder)
    : option (list (result (Message * option error)) * AlarmDecoder) :=
  match n with
  | O => Some ([], ad)
  | S n' =>
      match Read fuel ad with
      | None => None
      | Some (Panic p) => Some ([Panic p], ad)
      | Some (Return (m, e, ad')) =>
          match Reads fuel n' ad' with
          | None => None
          | Some (outs, ad'') => Some (Return (m, e) :: outs, ad'')
          end
      end
  end.

(** A list of results up to and including its first panic. *)
Fixpoint until_panic {A : Type} (l : list (result A)) : list (result A) :=
  match l with
  | [] => []
  | Return a :: r => Return a :: until_panic r
  | Panic p :: _ => [Panic p]
  end.

(** Lines as they stand in the stream, each followed by its newline. *)
Definition terminated (lines : list gostring) : gostring :=
  List.concat (map (fun l => l ++ [newline]) lines).

(** What [Read] makes of one line of the stream. *)
Definition parse_line (l : gostring) : result (Message * option error) :=
  ParseMessage (dropCR l).

(** A decoder whose scanner has recorded the error [e] and holds no
    complete line. *)
Definition wedged (e : error) (ad : AlarmDecoder) : Prop :=
  Scanner_ok (scanner ad) /\
  err (scanner ad) = Some e /\
  ~ In newline (pending (scanner ad)).

(** * main.go: the loop of [run] and the MQTT callback *)

(** ** Strings and maps *)

(** [a == b] on strings. *)
Fixpoint streq (a b : gostring) : bool :=
  match a, b with
  | [], [] => true
  | x :: a', y :: b' => Ascii.eqb x y && streq a' b'
  | _, _ => false
  end.

(** A Go map with string keys, as the list of its entries.  Only [map_find],
    which stops at the first entry of a key, looks into it; the order of
    the entries means nothing, and [range] does not follow it (see
    [clear_zones]). *)
Definition gomap (V : Type) : Type := list (gostring * V).

(** [v, ok := m[k]], as an option. *)
Fixpoint map_find {V : Type} (m : gomap V) (k : gostring) : option V :=
  match m with
  | [] => None
  | (k', v) :: r => if streq k' k then Some v else map_find r k
  end.

(** [m[k]]: the zero value for a missing key. *)
Definition map_get {V : Type} (zero : V) (m : gomap V) (k : gostring) : V :=
  match map_find m k with
  | Some v => v
  | None => zero
  end.

(** [m[k] = v]. *)
Fixpoint map_set {V : Type} (m : gomap V) (k : gostring) (v : V) : gomap V :=
  match m with
  | [] => [(k, v)]
  | (k', v') :: r =>
      if streq k' k then (k, v) :: r else (k', v') :: map_set r k v
  end.

(** ** The configuration *)

Record zone : Type := mkZone {
  Name : gostring;
  FriendlyName : gostring;
  Type_ : gostring;
  Disabled : bool
}.

(** [zone{}], what [zones[k]] gives for a key that is not configured. *)
Definition zone_zero : zone := mkZone [] [] [] false.

(** ** The outside of the program *)

(** An argument of a [log.Printf] call. *)
Inductive log_arg : Type :=
| ArgError (e : error)
| ArgString (s : gostring).

(** The calls the program makes on the MQTT client and on the logger.
    Every [Publish] of the loop is made with QoS 0 and the retained flag. *)
Inductive event : Type :=
| Published (topic payload : gostring)
| Logged (format : string) (args : list log_arg).

(** The calls made so far, in order, and what [token.Error()] is going to
    say after each [Publish] still to come: [nil] once the list is used
    up.  [token.Wait()] returns true. *)
Record Outside : Type := mkOutside {
  events : list event;
  replies : list (option error)
}.

(** [token := mqttClient.Publish(topic, 0, true, payload)] with the
    [token.Error()] that follows. *)
Definition Publish (o : Outside) (topic payload : gostring)
    : option error * Outside :=
  let evs := events o ++ [Published topic payload] in
  match replies o with
  | [] => (None, mkOutside evs [])
  | r :: rs => (r, mkOutside evs rs)
  end.

(** [log.Printf(format, args...)]. *)
Definition Printf (o : Outside) (format : string) (args : list log_arg)
    : Outside :=
  mkOutside (events o ++ [Logged format args]) (replies o).

Definition state_topic : gostring :=
  lit "homeassistant/alarm_control_panel/ad2mqtt/state".

(** [fmt.Sprintf("homeassistant/binary_sensor/%s/state", name)]. *)
Definition zone_topic (name : gostring) : gostring :=
  lit "homeassistant/binary_sensor/" ++ name ++ lit "/state".

(** ** The loop of [run] *)

(** What the loop works on: the decoder, the outside, and its two
    variables [alarmState] and [zoneState]. *)
Record Run : Type := mkRun {
  decoder : AlarmDecoder;
  world : Outside;
  alarmState : gostring;
  zoneState : gomap bool
}.

Definition with_decoder v r := mkRun v (world r) (alarmState r) (zoneState r).
Definition with_world v r := mkRun (decoder r) v (alarmState r) (zoneState r).
Definition with_alarmState v r := mkRun (decoder r) (world r) v (zoneState r).
Definition with_zoneState v r := mkRun (decoder r) (world r) (alarmState r) v.

(** The state at the loop's entry: [alarmState := ""] and
    [zoneState := map[string]bool{}]. *)
Definition enter (ad : AlarmDecoder) (o : Outside) : Run := mkRun ad o [] [].

(** How a stretch of the loop's body ends: the body goes on, or [run]
    returns the error of a [Publish]. *)
Inductive flow : Type :=
| Goes (r : Run)
| Exits (e : error) (r : Run).

Definition and_then (f : flow) (k : Run -> flow) : flow :=
  match f with
  | Goes r => k r
  | Exits e r => Exits e r
  end.

(** [if token := mqttClient.Publish(...); token.Wait() && token.Error() != nil
       { return token.Error() }]. *)
Definition publish (topic payload : gostring) (r : Run) : flow :=
  match Publish (world r) topic payload with
  | (Some e, o) => Exits e (with_world o r)
  | (None, o) => Goes (with_world o r)
  end.

Definition logf (format : string) (args : list log_arg) (r : Run) : Run :=
  with_world (Printf (world r) format args) r.

(** Lines 169-180. *)
Definition newAlarmState (msg : Message) : gostring :=
  if AlarmSounding msg || AlarmHasOccured msg then lit "triggered"
  else if ArmedHome msg then lit "armed_home"
  else if ArmedAway msg then lit "armed_away"
  else if negb (Ready msg) then lit "pending"
  else lit "disarmed".

(** Lines 182-189: the alarm state is published when it changes. *)
Definition update_alarm_state (msg : Message) (r : Run) : flow :=
  if negb (streq (newAlarmState msg) (alarmState r)) then
    let r := with_alarmState (newAlarmState msg) r in
    and_then (publish state_topic (alarmState r) r) (fun r =>
    Goes (logf "[alarm] Set state to %s" [ArgString (alarmState r)] r))
  else Goes r.

(** Lines 192-207: the zone of the message is reported as triggered. *)
Definition handle_zone_trigger (zones : gomap zone) (msg : Message) (r : Run)
    : flow :=
  let '(zone, ok) :=
    match map_find zones (Zone msg) with
    | Some z => (z, true)
    | None => (zone_zero, false)
    end in
  let r :=
    if negb ok
    then logf "[alarm] Unknown zone %q has been triggered" [ArgString (Zone msg)] r
    else r in
  if negb (Disabled zone) then
    let state := map_get false (zoneState r) (Name zone) in
    if negb state then
      and_then (publish (zone_topic (Name zone)) (lit "on") r) (fun r =>
      let r := logf "[alarm] Zone %q has been triggered" [ArgString (Name zone)] r in
      Goes (with_zoneState (map_set (zoneState r) (Zone msg) true) r))
    else Goes r
  else Goes r.

(** Lines 211-229: [for k, v := range zoneState { ... }].  [order] is the
    order in which the run time hands out the keys.  The body assigns to
    the key it is at and to no other, so [v] is the entry at the time of
    the visit. *)
Fixpoint clear_zones (zones : gomap zone) (msg : Message)
    (order : list gostring) (r : Run) : flow :=
  match order with
  | [] => Goes r
  | k :: rest =>
      let v := map_get false (zoneState r) k in
      if streq k (Zone msg) then clear_zones zones msg rest r
      else if negb v then clear_zones zones msg rest r
      else
        let r := with_zoneState (map_set (zoneState r) k false) r in
        let zone := map_get zone_zero zones k in
        if negb (streq (Name zone) []) then
          match publish (zone_topic (Name zone)) (lit "off") r with
          | Exits e r => Exits e r
          | Goes r =>
              clear_zones zones msg rest
                (logf "[alarm] Zone %q has been cleared" [ArgString (Name zone)] r)
          end
        else clear_zones zones msg rest r
  end.

(** Lines 168-230: the body of the loop on a message read without error.
    [visit] is the order in which [range] goes over a map. *)
Definition process (zones : gomap zone) (visit : gomap bool -> list gostring)
    (msg : Message) (r : Run) : flow :=
  and_then (update_alarm_state msg r) (fun r =>
  and_then (handle_zone_trigger zones msg r) (fun r =>
  if Ready msg then clear_zones zones msg (visit (zoneState r)) r
  else Goes r)).

(** Lines 162-230: one pass of the loop. *)
Definition iteration (zones : gomap zone) (fuel : nat)
    (visit : gomap bool -> list gostring) (r : Run) : option (result flow) :=
  match Read fuel (decoder r) with
  | None => None
  | Some (Panic p) => Some (Panic p)
  | Some (Return (msg, Some e, ad)) =>
      Some (Return (Goes (logf "[alarm] Unknown message from alarm: %v"
                            [ArgError e] (with_decoder ad r))))
  | Some (Return (msg, None, ad)) =>
      Some (Return (process zones visit msg (with_decoder ad r)))
  end.

(** As many passes as [visits] has entries, one order of [range] for each,
    unless [run] returns or panics before. *)
Fixpoint iterations (zones : gomap zone) (fuel : nat)
    (visits : list (gomap bool -> list gostring)) (r : Run)
    : option (result flow) :=
  match visits with
  | [] => Some (Return (Goes r))
  | visit :: more =>
      match iteration zones fuel visit r with
      | Some (Return (Goes r')) => iterations zones fuel more r'
      | other => other
      end
  end.

(** The run a flow ends with. *)
Definition run_of (f : flow) : Run :=
  match f with
  | Goes r => r
  | Exits _ r => r
  end.

(** ** The MQTT callback *)

(** [type mqttAction struct]. *)
Record mqttAction : Type := mkAction {
  Action : gostring;
  Code : gostring
}.

Definition byte_of (v : Z) : ascii := ascii_of_N (Z.to_N (v mod 256)).

(** [string(c)] for a rune [c]: its UTF-8 encoding, that of U+FFFD for a
    value that is no code point ([runtime.encoderune]). *)
Definition string_of_rune (r : Z) : gostring :=
  if (0 <=? r) && (r <=? 127) then [byte_of r]
  else if (0 <=? r) && (r <=? 2047) then
    [byte_of (Z.lor 192 (Z.shiftr r 6)); byte_of (Z.lor 128 (Z.land r 63))]
  else
    let r' :=
      if (r <? 0) || (1114111 <? r) || ((55296 <=? r) && (r <=? 57343))
      then RuneError else r in
    if r' <=? 65535 then
      [byte_of (Z.lor 224 (Z.shiftr r' 12));
       byte_of (Z.lor 128 (Z.land (Z.shiftr r' 6) 63));
       byte_of (Z.lor 128 (Z.land r' 63))]
    else
      [byte_of (Z.lor 240 (Z.shiftr r' 18));
       byte_of (Z.lor 128 (Z.land (Z.shiftr r' 12) 63));
       byte_of (Z.lor 128 (Z.land (Z.shiftr r' 6) 63));
       byte_of (Z.lor 128 (Z.land r' 63))].

(** [for _, c := range s]: the runes of [s] in order, U+FFFD for a byte
    that starts no valid encoding.  [skip] counts the bytes of the current
    rune still to pass. *)
Fixpoint range_runes (s : gostring) (skip : nat) : list Z :=
  match s with
  | [] => []
  | _ :: rest =>
      match skip with
      | S k => range_runes rest k
      | O =>
          let '(r, size) := DecodeRuneInString s in
          r :: range_runes rest (size - 1)
      end
  end.

(** [ad.Write(msg)] with its error dropped, as the callback calls it. *)
Definition Write_ (ad : AlarmDecoder) (msg : gostring) : AlarmDecoder :=
  snd (Write ad msg).

(** Lines 91-128, from the [action] that [json.Unmarshal] has filled in
    and the error it has returned: the callback goes on after logging a
    decoding error. *)
Definition mqttCallback (action : mqttAction) (unmarshal : option error)
    (ad : AlarmDecoder) (o : Outside) : AlarmDecoder * Outside :=
  let o :=
    match unmarshal with
    | Some e => Printf o "[mqtt] Failed to parse action: %v" [ArgError e]
    | None => o
    end in
  if streq (Action action) (lit "ARM_HOME") then
    let ad := Write_ ad (lit "#") in
    let ad := Write_ ad (lit "3") in
    (ad, Printf o "[mqtt] Armed (home)" [])
  else if streq (Action action) (lit "ARM_AWAY") then
    let ad := Write_ ad (lit "#") in
    let ad := Write_ ad (lit "2") in
    (ad, Printf o "[mqtt] Armed (away)" [])
  else if streq (Action action) (lit "DISARM") then
    if streq (Code action) (lit "None") then
      (ad, Printf o "[mqtt] Failed to disarm: No code provided" [])
    else
      let ad :=
        fold_left (fun ad c => Write_ ad (string_of_rune c))
                  (range_runes (Code action) 0) ad in
      let ad := Write_ ad (lit "1") in
      (ad, Printf o "[mqtt] Disarmed" [])
  else (ad, o).

(** ** Reading the loop's output *)

(** The payloads published on the alarm's state topic, in order. *)
Fixpoint state_payloads (evs : list event) : list gostring :=
  match evs with
  | [] => []
  | Published topic payload :: r =>
      if streq topic state_topic then payload :: state_payloads r
      else state_payloads r
  | Logged _ _ :: r => state_payloads r
  end.

(** No two neighbours of the list are equal. *)
Fixpoint no_repeat (l : list gostring) : Prop :=
  match l with
  | a :: (b :: _) as r => a <> b /\ no_repeat r
  | _ => True
  end.

(** What the broker was last told about the zone of name [n]: [true] for
    "on", [false] for "off" or when nothing was published on its topic;
    [before] is the answer for the events so far. *)
Fixpoint zone_shown (n : gostring) (before : bool) (evs : list event) : bool :=
  match evs with
  | [] => before
  | Published topic payload :: r =>
      if streq topic (zone_topic n)
      then zone_shown n (streq payload (lit "on")) r
      else zone_shown n before r
  | Logged _ _ :: r => zone_shown n before r
  end.

(** A configuration that files every zone under its own name, which is
    not empty. *)
Definition named_by_key (zones : gomap zone) : Prop :=
  forall k z, map_find zones k = Some z -> Name z = k /\ k <> [].

(** The broker's picture of the zones is the loop's: an entry of
    [zoneState] is [true] when "on" was the last thing published for the
    zone of that name, and only configured zones are marked. *)
Definition zones_agree (zones : gomap zone) (r : Run) : Prop :=
  forall k,
    map_get false (zoneState r) k = zone_shown k false (events (world r)) /\
    (map_get false (zoneState r) k = true -> map_find zones k <> None).

(** An order of [range] that leaves out no key whose entry is [true]. *)
Definition visits_all (visit : gomap bool -> list gostring) : Prop :=
  forall m k, map_get false m k = true -> In k (visit m).

(** The keys of a map, as one order [range] may take. *)
Definition keys {V : Type} (m : gomap V) : list gostring := map fst m.

(** From [r] to [r'] the loop has only added to the calls made, and the
    payloads it has published on the state topic lead from the
    [alarmState] of [r] to that of [r'] without ever repeating the one
    before. *)
Definition advances (r r' : Run) : Prop :=
  exists new,
    events (world r') = events (world r) ++ new /\
    no_repeat (alarmState r :: state_payloads new) /\
    last (state_payloads new) (alarmState r) = alarmState r'.

(** From [r] to [r'] nothing was published on the state topic. *)
Definition quiet (r r' : Run) : Prop :=
  exists new,
    events (world r') = events (world r) ++ new /\
    state_payloads new = [] /\
    alarmState r' = alarmState r.

(** ** Examples *)

(** Two zones, filed under their names. *)
Definition two_zones : gomap zone :=
  [(lit "008", mkZone (lit "008") (lit "Front door") (lit "door") false);
   (lit "012", mkZone (lit "012") (lit "Garage") (lit "garage_door") false)].

(** A message in which the panel is ready, about zone 012. *)
Definition ready_message : Message :=
  Set_.Zone (lit "012") (Set_.Ready true Message_zero).

(** A fault of zone 008, the panel not ready. *)
Definition fault_message : Message := Set_.Zone (lit "008") Message_zero.


(** The loop with zone 008 marked, and a broker that accepts everything. *)
Definition one_zone_marked (ad : AlarmDecoder) : Run :=
  mkRun ad
    (mkOutside [Published (zone_topic (lit "008")) (lit "on")] [])
    (lit "pending") [(lit "008", true)].

(** The first line of [TestParse]: the panel disarmed and ready. *)
Definition disarmed_line : gostring :=
  lit "[10000601100000003A--],045,[f71f00000045001c28020000000000],"
  ++ disarmed_segment.

(** The loop at its entry, on a stream that holds the alarm line of
    [TestRead] twice and then [disarmed_line]. *)
Definition three_lines : Run :=
  enter (New (stream [test_line ++ [newline] ++ test_line ++ [newline];
                      disarmed_line ++ [newline]]))
        (mkOutside [] []).

(** Where three passes of the loop take [three_lines]. *)
Definition three_lines_end : flow :=
  Eval vm_compute in
    match iterations two_zones 200 [keys; keys; keys] three_lines with
    | Some (Return f) => f
    | _ => Goes three_lines
    end.

(** The transport after [rw.Write(p)]. *)
Definition sent (t : Transport) (p : gostring) : Transport :=
  snd (Transport_Write t p).


(** A request to disarm with the code 1234. *)
Definition disarm_1234 : mqttAction := mkAction (lit "DISARM") (lit "1234").

(** ** The set-up of the zones *)




(** * Checks against the repository's tests and against Go's behaviour *)

Example DecodeRune_e_acute : DecodeRuneInString (utf8 [195; 169; 65]) = (233, 2%nat).
Proof. reflexivity. Qed.

Example DecodeLastRune_ideographic_space :
  DecodeLastRuneInString (utf8 [65; 227; 128; 128]) = (12288, 3%nat).
Proof. reflexivity. Qed.

Example DecodeLastRune_stray_continuation :
  DecodeLastRuneInString (utf8 [65; 128]) = (RuneError, 1%nat).
Proof. reflexivity. Qed.

Example TrimSpace_plain : TrimSpace (lit "  a  b  ") = lit "a  b".
Proof. reflexivity. Qed.

Example TrimSpace_tab_and_newline :
  TrimSpace (utf8 [9; 10; 97; 32; 98; 13; 10]) = lit "a b".
Proof. reflexivity. Qed.

Example TrimSpace_nbsp_and_ideographic :
  TrimSpace (utf8 [32; 194; 160; 120; 32; 121; 227; 128; 128; 10]) = lit "x y".
Proof. reflexivity. Qed.

Example TrimSpace_keeps_invalid_bytes :
  TrimSpace (utf8 [32; 128; 65; 255; 32]) = utf8 [128; 65; 255].
Proof. reflexivity. Qed.

Example Atoi_examples :
  Atoi (lit "6") = (6, None) /\
  Atoi (lit "-12") = (-12, None) /\
  Atoi (lit "+") = (0, Some (NumError "Atoi" (lit "+") ErrSyntax)) /\
  Atoi (lit "") = (0, Some (NumError "Atoi" [] ErrSyntax)) /\
  Atoi (lit "9223372036854775808")
    = (maxInt64, Some (NumError "Atoi" (lit "9223372036854775808") ErrRange)).
Proof. repeat split. Qed.

Example Split_examples :
  Split (lit "a,b,c") comma = [lit "a"; lit "b"; lit "c"] /\
  Split (lit "") comma = [[]] /\
  Split (lit ",") comma = [[]; []] /\
  Split (lit "abc") comma = [lit "abc"].
Proof. repeat split. Qed.

(** The four cases of [TestParse]. *)
Example TestParse_0 :
  ParseMessage
    (lit "[10000601100000003A--],045,[f71f00000045001c28020000000000],"
     ++ disarmed_segment)
  = Return
      ({| UnparsedMessage :=
            lit "[10000601100000003A--],045,[f71f00000045001c28020000000000],"
            ++ disarmed_segment;
          Ready := true; ArmedAway := false; ArmedHome := false;
          BacklightOn := false; ProgrammingMode := false; Beeps := 6;
          ZoneBypassed := false; ACPower := true; ChimeEnabled := true;
          AlarmHasOccured := false; AlarmSounding := false;
          BatteryLow := false; EntryDelayDisabled := false; Fire := false;
          SystemIssue := false; PerimeterOnly := false;
          Mode := lit "A"; Zone := lit "045";
          RawData := lit "[f71f00000045001c28020000000000]";
          KeypadMessage := lit "****DISARMED****  READY TO ARM" |}, None).
Proof. reflexivity. Qed.

Example TestParse_1 : ParseMessage test_line = Return (test_message, None).
Proof. reflexivity. Qed.

Example TestParse_2 :
  exists m,
    ParseMessage (lit "[00000000000001003A--],,," ++ dquote ++ lit "test" ++ dquote)
      = Return (m, None) /\
    Fire m = true /\ SystemIssue m = false /\ Mode m = lit "A" /\
    KeypadMessage m = lit "test".
Proof. eexists. repeat split. Qed.

Example TestParse_3 :
  exists m,
    ParseMessage (lit "[00000000000000103A--],,," ++ dquote ++ lit "test" ++ dquote)
      = Return (m, None) /\
    Fire m = false /\ SystemIssue m = true /\ Mode m = lit "A" /\
    KeypadMessage m = lit "test".
Proof. eexists. repeat split. Qed.

(** [TestRead]: one [Read] over a stream holding the line and its newline. *)
Example TestRead :
  exists ad,
    Read 2 (New (stream [test_bytes])) = Some (Return (test_message, None, ad)).
Proof. eexists. vm_compute. reflexivity. Qed.

(** [Write] hands the bytes to the stream as they are. *)
Example Write_appends :
  let (e, ad) := Write (New (stream [])) (lit "1234") in
  e = None /\ outgoing (rw ad) = lit "1234".
Proof. split; reflexivity. Qed.

(** ** [Split] and joining *)

Lemma Split_nonempty (s : gostring) (sep : ascii) : Split s sep <> [].
Proof.
  induction s as [| c r IH]; cbn; [discriminate |].
  destruct (Ascii.eqb c sep); [discriminate |].
  destruct (Split r sep); [contradiction | discriminate].
Qed.

Lemma Split_no_sep (s : gostring) (sep : ascii) :
  ~ In sep s -> Split s sep = [s].
Proof.
  induction s as [| c r IH]; intros H; [reflexivity |].
  cbn. destruct (Ascii.eqb_spec c sep) as [-> | _].
  - exfalso. apply H. now left.
  - rewrite IH; [reflexivity |]. intros Hin. apply H. now right.
Qed.

Lemma Split_app (a b : gostring) (sep : ascii) :
  ~ In sep a -> Split (a ++ sep :: b) sep = a :: Split b sep.
Proof.
  induction a as [| c r IH]; intros H.
  - cbn. now rewrite Ascii.eqb_refl.
  - cbn. destruct (Ascii.eqb_spec c sep) as [-> | _].
    + exfalso. apply H. now left.
    + rewrite IH; [reflexivity |]. intros Hin. apply H. now right.
Qed.

(** Four comma-free segments joined by commas split back into the four. *)
Lemma Split_four (bits z rd msg : gostring) :
  ~ In comma bits -> ~ In comma z -> ~ In comma rd -> ~ In comma msg ->
  Split (bits ++ comma :: z ++ comma :: rd ++ comma :: msg) comma
    = [bits; z; rd; msg].
Proof.
  intros Hb Hz Hr Hm.
  now rewrite !Split_app, Split_no_sep by assumption.
Qed.

(** * Properties *)

(** ** Bounds-checked access *)

Lemma len_nonneg {A : Type} (l : list A) : 0 <= len l.
Proof. unfold len. lia. Qed.

Lemma len_cons {A : Type} (x : A) (l : list A) : len (x :: l) = len l + 1.
Proof. unfold len. cbn [List.length]. lia. Qed.

Lemma index_nth_error {A : Type} (l : list A) (i : nat) :
  index l (Z.of_nat i) =
  match nth_error l i with
  | Some x => Return x
  | None => Panic (IndexOutOfRange (Z.of_nat i) (len l))
  end.
Proof.
  unfold index.
  destruct (Z.ltb_spec (Z.of_nat i) 0) as [Hneg | _]; [lia |].
  now rewrite Nat2Z.id.
Qed.

Lemma slice_in_range (s : gostring) (lo hi : Z) :
  0 <= lo <= hi -> hi <= len s ->
  slice s lo hi = Return (firstn (Z.to_nat (hi - lo)) (skipn (Z.to_nat lo) s)).
Proof.
  intros Hlo Hhi. unfold slice.
  destruct (Z.ltb_spec hi 0); [lia |].
  destruct (Z.ltb_spec (len s) hi); [lia |].
  destruct (Z.ltb_spec lo 0); [lia |].
  destruct (Z.ltb_spec hi lo); [lia |].
  reflexivity.
Qed.

(** A one-byte slice [s[i:i+1]] reads exactly the byte at [i]. *)
Lemma slice_one (s : gostring) (i : nat) :
  slice s (Z.of_nat i) (Z.of_nat i + 1) =
  match nth_error s i with
  | Some c => Return [c]
  | None => Panic (SliceBoundsHigh (Z.of_nat i + 1) (len s))
  end.
Proof.
  destruct (nth_error s i) as [c |] eqn:E.
  - assert (Hlt : (i < List.length s)%nat) by (apply nth_error_Some; congruence).
    rewrite slice_in_range by (unfold len; lia).
    replace (Z.to_nat (Z.of_nat i + 1 - Z.of_nat i)) with 1%nat by lia.
    rewrite Nat2Z.id. f_equal.
    revert i E Hlt. induction s as [| x s IH]; intros [| i] E Hlt; cbn in *;
      try lia; try discriminate.
    + destruct s; now inversion E.
    + apply IH; [assumption | lia].
  - apply nth_error_None in E. unfold slice.
    destruct (Z.ltb_spec (Z.of_nat i + 1) 0); [lia |].
    destruct (Z.ltb_spec (len s) (Z.of_nat i + 1)) as [_ | Hge];
      [reflexivity | unfold len in Hge; lia].
Qed.

Lemma slice_inner (msg : gostring) :
  2 <= len msg ->
  slice msg 1 (len msg - 1) = Return (removelast (tl msg)).
Proof.
  intros H. rewrite slice_in_range by lia.
  destruct msg as [| a rest]; [cbn in H; lia |].
  rewrite len_cons. cbn [tl]. change (Z.to_nat 1) with 1%nat. cbn [skipn].
  rewrite removelast_firstn_len. do 2 f_equal. unfold len. lia.
Qed.

(** ** [Atoi] on one byte *)

Lemma Atoi_one_byte (c : ascii) :
  Atoi [c] =
  if is_digit c then (byte_val c - 48, None)
  else (0, Some (NumError "Atoi" [c] ErrSyntax)).
Proof.
  destruct c as [[] [] [] [] [] [] [] []]; reflexivity.
Qed.

(** ** Symbolic execution of [ParseMessage] *)

Lemma index_nat {A : Type} (l : list A) (i : Z) :
  0 <= i ->
  index l i =
  match nth_error l (Z.to_nat i) with
  | Some x => Return x
  | None => Panic (IndexOutOfRange i (len l))
  end.
Proof.
  intros Hi. pose proof (index_nth_error l (Z.to_nat i)) as H.
  now rewrite Z2Nat.id in H by assumption.
Qed.

Lemma slice_one_Z (s : gostring) (i j : Z) :
  0 <= i -> j = i + 1 ->
  slice s i j =
  match nth_error s (Z.to_nat i) with
  | Some c => Return [c]
  | None => Panic (SliceBoundsHigh j (len s))
  end.
Proof.
  intros Hi ->. pose proof (slice_one s (Z.to_nat i)) as H.
  now rewrite Z2Nat.id in H by assumption.
Qed.

Lemma nth_error_bit (bits : gostring) (k : nat) :
  Z.of_nat k < len bits -> nth_error bits k = Some (bit bits k).
Proof.
  intros H. apply nth_error_nth'. unfold len in H. lia.
Qed.

(** One bounds-checked read of the source, when the index is in range. *)
Ltac read_in_range :=
  match goal with
  | |- context [index ?l ?i] =>
      rewrite (index_nat l i) by lia;
      rewrite (nth_error_bit l (Z.to_nat i)) by lia;
      cbn [bind]
  | |- context [slice ?l ?i ?j] =>
      rewrite (slice_one_Z l i j) by lia;
      rewrite (nth_error_bit l (Z.to_nat i)) by lia;
      cbn [bind]
  end.

Lemma ParseMessage_four_parts (s bits z rd msg : gostring) :
  Split s comma = [bits; z; rd; msg] ->
  ParseMessage s =
    (bits <- index [bits; z; rd; msg] 0 ;;
     b1 <- index bits 1 ;; b2 <- index bits 2 ;; b3 <- index bits 3 ;;
     b4 <- index bits 4 ;; b5 <- index bits 5 ;;
     d <- slice bits 6 7 ;;
     match snd (Atoi d) with
     | Some e => Return (Message_zero, Some e)
     | None =>
         b7 <- index bits 7 ;; b8 <- index bits 8 ;; b9 <- index bits 9 ;;
         b10 <- index bits 10 ;; b11 <- index bits 11 ;; b12 <- index bits 12 ;;
         b13 <- index bits 13 ;; b14 <- index bits 14 ;; b15 <- index bits 15 ;;
         b16 <- index bits 16 ;;
         md <- slice bits 18 19 ;;
         inner <- slice msg 1 (len msg - 1) ;;
         Return
           (mkMessage s (is_one b1) (is_one b2) (is_one b3) (is_one b4) (is_one b5)
              (fst (Atoi d)) (is_one b7) (is_one b8) (is_one b9) (is_one b10)
              (is_one b11) (is_one b12) (is_one b13) (is_one b14) (is_one b15)
              (is_one b16) md z rd (TrimSpace inner), None)
     end).
Proof.
  intros HS. unfold ParseMessage. fold comma. rewrite HS.
  change (negb (len [bits; z; rd; msg] =? 4)) with false. cbv iota.
  change (index [bits; z; rd; msg] 0) with (Return (A := gostring) bits).
  cbn [bind].
  repeat (match goal with
          | |- bind ?r _ = bind ?r _ => destruct r; cbn [bind]; [| reflexivity]
          end).
  match goal with
  | |- context [Atoi ?d] => destruct (Atoi d) as [n [e |]]
  end; cbn [fst snd]; [reflexivity |].
  repeat (match goal with
          | |- bind ?r _ = bind ?r _ => destruct r; cbn [bind]; [| reflexivity]
          end).
  change (index [bits; z; rd; msg] 1) with (Return (A := gostring) z).
  change (index [bits; z; rd; msg] 2) with (Return (A := gostring) rd).
  change (index [bits; z; rd; msg] 3) with (Return (A := gostring) msg).
  cbn [bind].
  destruct (slice msg 1 (len msg - 1)); reflexivity.
Qed.

(** A line with four segments, a bit field covering position 18 with a
    decimal digit at position 6 and a keypad text of two bytes or more is
    accepted, and decodes to [decoded]. *)
Lemma ParseMessage_accepts (s bits z rd msg : gostring) :
  Split s comma = [bits; z; rd; msg] ->
  19 <= len bits ->
  is_digit (bit bits 6) = true ->
  2 <= len msg ->
  ParseMessage s = Return (decoded s bits z rd msg, None).
Proof.
  intros HS Hb Hd Hm.
  rewrite (ParseMessage_four_parts _ _ _ _ _ HS).
  change (index [bits; z; rd; msg] 0) with (Return (A := gostring) bits).
  cbn [bind].
  repeat read_in_range.
  change (Z.to_nat 6) with 6%nat.
  rewrite Atoi_one_byte, Hd. cbn [fst snd].
  rewrite slice_inner by assumption. cbn [bind].
  reflexivity.
Qed.

Lemma ParseMessage_bad_beep (s bits z rd msg : gostring) :
  Split s comma = [bits; z; rd; msg] ->
  7 <= len bits ->
  is_digit (bit bits 6) = false ->
  ParseMessage s =
    Return (Message_zero, Some (NumError "Atoi" [bit bits 6] ErrSyntax)).
Proof.
  intros HS Hb Hd.
  rewrite (ParseMessage_four_parts _ _ _ _ _ HS).
  change (index [bits; z; rd; msg] 0) with (Return (A := gostring) bits).
  cbn [bind].
  repeat read_in_range.
  change (Z.to_nat 6) with 6%nat.
  rewrite Atoi_one_byte, Hd. reflexivity.
Qed.

(** ** Segment count *)

Lemma wrong_segment_count_outcome (s : gostring) :
  len (Split s comma) <> 4 ->
  exists e,
    ParseMessage s = Return (Message_zero, Some e) /\
    e = Errorf "expected 4 parts got: %#v" (Split s comma).
Proof.
  intros H. exists (Errorf "expected 4 parts got: %#v" (Split s comma)).
  split; [| reflexivity].
  unfold ParseMessage. fold comma.
  destruct (Z.eqb_spec (len (Split s comma)) 4) as [E | _]; [contradiction |].
  reflexivity.
Qed.

(** C3: a line whose number of comma-separated segments is not 4 gets the
    zero message together with the malformed-frame error, and that error
    carries the segments that were seen. *)
Theorem wrong_segment_count_is_malformed_frame (s : gostring) :
  len (Split s comma) <> 4 ->
  exists e,
    ParseMessage s = Return (Message_zero, Some e) /\
    kind_of e = Some MalformedFrame /\
    e = Errorf "expected 4 parts got: %#v" (Split s comma).
Proof.
  intros H. destruct (wrong_segment_count_outcome s H) as [e [He ->]].
  eexists. split; [exact He |]. split; reflexivity.
Qed.

Lemma wrong_segment_count_witness :
  (exists e,
     ParseMessage (lit "a,b,c") = Return (Message_zero, Some e) /\
     kind_of e = Some MalformedFrame /\
     e = Errorf "expected 4 parts got: %#v" [lit "a"; lit "b"; lit "c"]) /\
  (exists e,
     ParseMessage (lit "a,b,c,d,e") = Return (Message_zero, Some e) /\
     kind_of e = Some MalformedFrame /\
     e = Errorf "expected 4 parts got: %#v" [lit "a"; lit "b"; lit "c"; lit "d"; lit "e"]).
Proof.
  split.
  - apply (wrong_segment_count_is_malformed_frame (lit "a,b,c")).
    vm_compute. discriminate.
  - apply (wrong_segment_count_is_malformed_frame (lit "a,b,c,d,e")).
    vm_compute. discriminate.
Defined.

(** ** The beep count *)

(** C4: on a line with four segments, a bit field covering position 18 and
    a keypad text of at least two bytes, a byte '0'..'7' at position 6 makes
    the parse succeed with [Beeps] equal to the digit's value, and a byte
    that is not a decimal digit makes it return the invalid-beep-count
    error. *)
Theorem beep_count_digit_or_error (s bits z rd msg : gostring) :
  Split s comma = [bits; z; rd; msg] ->
  19 <= len bits ->
  2 <= len msg ->
  (48 <= byte_val (bit bits 6) <= 55 ->
   exists m,
     ParseMessage s = Return (m, None) /\
     Beeps m = byte_val (bit bits 6) - 48 /\ 0 <= Beeps m <= 7) /\
  (is_digit (bit bits 6) = false ->
   exists e,
     ParseMessage s = Return (Message_zero, Some e) /\
     kind_of e = Some InvalidBeepCount).
Proof.
  intros HS Hb Hm. split.
  - intros Hd. exists (decoded s bits z rd msg). split.
    + apply ParseMessage_accepts; try assumption.
      unfold is_digit. apply andb_true_intro. split; apply Z.leb_le; lia.
    + cbn [Beeps decoded]. lia.
  - intros Hd. eexists. split.
    + apply (ParseMessage_bad_beep _ _ _ _ _ HS); [lia | assumption].
    + reflexivity.
Qed.

Lemma beep_count_witness :
  (exists m,
     ParseMessage
       (lit "[10000601100000003A--],045,[f71f00000045001c28020000000000],"
        ++ disarmed_segment) = Return (m, None) /\ Beeps m = 6) /\
  (exists e,
     ParseMessage (lit "[00000x00011000003A--],,,xtestx")
       = Return (Message_zero, Some e) /\
     kind_of e = Some InvalidBeepCount).
Proof.
  split.
  - destruct (beep_count_digit_or_error
                (lit "[10000601100000003A--],045,[f71f00000045001c28020000000000],"
                 ++ disarmed_segment)
                (lit "[10000601100000003A--]") (lit "045")
                (lit "[f71f00000045001c28020000000000]") disarmed_segment
                eq_refl ltac:(vm_compute; discriminate) ltac:(vm_compute; discriminate))
      as [Hdigit _].
    destruct Hdigit as [m [Hm [Hb _]]]; [vm_compute; split; discriminate |].
    exists m. split; [exact Hm | exact Hb].
  - destruct (beep_count_digit_or_error
                (lit "[00000x00011000003A--],,,xtestx")
                (lit "[00000x00011000003A--]") [] [] (lit "xtestx")
                eq_refl ltac:(vm_compute; discriminate) ltac:(vm_compute; discriminate))
      as [_ Hbad].
    apply Hbad. reflexivity.
Defined.

(** C8: the digits '8' and '9' at position 6 are accepted as well, with
    [Beeps] 8 and 9. *)
Theorem beep_count_eight_and_nine (s bits z rd msg : gostring) (c : ascii) :
  Split s comma = [bits; z; rd; msg] ->
  19 <= len bits ->
  2 <= len msg ->
  bit bits 6 = c ->
  c = "8"%char \/ c = "9"%char ->
  exists m,
    ParseMessage s = Return (m, None) /\
    Beeps m = if Ascii.eqb c "8"%char then 8 else 9.
Proof.
  intros HS Hb Hm Hc H89. exists (decoded s bits z rd msg). split.
  - apply ParseMessage_accepts; try assumption.
    rewrite Hc. destruct H89 as [-> | ->]; reflexivity.
  - cbn [Beeps decoded]. rewrite Hc. destruct H89 as [-> | ->]; reflexivity.
Qed.

Lemma beep_count_eight_and_nine_witness :
  exists m,
    ParseMessage (lit "[00000900011000003A--],,,xtestx") = Return (m, None) /\
    Beeps m = 9.
Proof.
  exact (beep_count_eight_and_nine
           (lit "[00000900011000003A--],,,xtestx")
           (lit "[00000900011000003A--]") [] [] (lit "xtestx") "9"%char
           eq_refl ltac:(vm_compute; discriminate) ltac:(vm_compute; discriminate)
           eq_refl (or_intror eq_refl)).
Defined.

(** ** The boolean flags *)

Lemma flag_decoded (s bits z rd msg : gostring) (j : nat) :
  In j flag_positions ->
  flag j (decoded s bits z rd msg) = is_one (bit bits j).
Proof.
  intros Hj. cbn in Hj.
  repeat (destruct Hj as [<- | Hj]; [reflexivity |]).
  contradiction.
Qed.

(** C6: with '1' at one flag position [k] and '0' at the other flag
    positions, exactly the flag of position [k] is set. *)
Theorem one_flag_set (s bits z rd msg : gostring) (k : nat) :
  Split s comma = [bits; z; rd; msg] ->
  19 <= len bits ->
  is_digit (bit bits 6) = true ->
  2 <= len msg ->
  In k flag_positions ->
  (forall j, In j flag_positions ->
             bit bits j = if (j =? k)%nat then "1"%char else "0"%char) ->
  exists m,
    ParseMessage s = Return (m, None) /\
    forall j, In j flag_positions -> flag j m = (j =? k)%nat.
Proof.
  intros HS Hb Hd Hm Hk Hbits. exists (decoded s bits z rd msg). split.
  - now apply ParseMessage_accepts.
  - intros j Hj. rewrite flag_decoded by assumption.
    rewrite (Hbits j Hj). now destruct (j =? k)%nat.
Qed.

Lemma one_flag_set_witness :
  exists m,
    ParseMessage (lit "[00000000000001003A--],,,xtestx") = Return (m, None) /\
    forall j, In j flag_positions -> flag j m = (j =? 14)%nat.
Proof.
  apply (one_flag_set (lit "[00000000000001003A--],,,xtestx")
           (lit "[00000000000001003A--]") [] [] (lit "xtestx") 14%nat).
  - reflexivity.
  - vm_compute. discriminate.
  - reflexivity.
  - vm_compute. discriminate.
  - cbn. tauto.
  - intros j Hj. cbn in Hj.
    repeat (destruct Hj as [<- | Hj]; [reflexivity |]). contradiction.
Defined.

(** ** Lines the parser cannot index *)

Lemma slice_inner_short (msg : gostring) :
  len msg < 2 -> exists p, slice msg 1 (len msg - 1) = Panic p.
Proof.
  intros H. pose proof (len_nonneg msg) as H0. unfold slice.
  destruct (Z.ltb_spec (len msg - 1) 0); [eexists; reflexivity |].
  destruct (Z.ltb_spec (len msg) (len msg - 1)); [lia |].
  destruct (Z.ltb_spec 1 0); [lia |].
  destruct (Z.ltb_spec (len msg - 1) 1); [eexists; reflexivity | lia].
Qed.

(** One read at the head of the remaining program: either it panics, which
    settles the goal, or it yields a byte and the program goes on. *)
Ltac head_read_or_panic :=
  match goal with
  | |- (exists p, bind (index ?l ?i) _ = Panic p) \/ _ =>
      rewrite (index_nat l i) by lia;
      destruct (nth_error l (Z.to_nat i)) eqn:?; cbn [bind];
      [| left; eexists; reflexivity]
  | |- (exists p, bind (slice ?l ?i ?j) _ = Panic p) \/ _ =>
      rewrite (slice_one_Z l i j) by lia;
      destruct (nth_error l (Z.to_nat i)) eqn:?; cbn [bind];
      [| left; eexists; reflexivity]
  end.

Ltac beep_or_error :=
  match goal with
  | |- context [Atoi [?c]] =>
      rewrite (Atoi_one_byte c); destruct (is_digit c); cbn [fst snd];
      [| right; eexists; split; reflexivity]
  end.

(** With a bit field that stops before position 18 the parser never gets
    to return a message: it panics on a read past the end, unless the byte
    at position 6 exists and is no digit, in which case [Atoi]'s error comes
    first. *)
Lemma truncated_bit_field_outcome (s bits z rd msg : gostring) :
  Split s comma = [bits; z; rd; msg] ->
  len bits < 19 ->
  (exists p, ParseMessage s = Panic p) \/
  (exists e, ParseMessage s = Return (Message_zero, Some e) /\
             kind_of e = Some InvalidBeepCount).
Proof.
  intros HS Hb.
  rewrite (ParseMessage_four_parts _ _ _ _ _ HS).
  change (index [bits; z; rd; msg] 0) with (Return (A := gostring) bits).
  cbn [bind].
  do 6 head_read_or_panic. beep_or_error.
  do 11 head_read_or_panic.
  match goal with
  | H : nth_error bits (Z.to_nat 18) = Some _ |- _ =>
      assert (Hlt : (Z.to_nat 18 < List.length bits)%nat)
        by (apply nth_error_Some; congruence);
      unfold len in Hb; lia
  end.
Qed.

(** With a keypad text of fewer than two bytes the outcome is the same: a
    panic (at the latest on the slice that strips the quotes) or [Atoi]'s
    error. *)
Lemma short_keypad_text_outcome (s bits z rd msg : gostring) :
  Split s comma = [bits; z; rd; msg] ->
  len msg < 2 ->
  (exists p, ParseMessage s = Panic p) \/
  (exists e, ParseMessage s = Return (Message_zero, Some e) /\
             kind_of e = Some InvalidBeepCount).
Proof.
  intros HS Hm.
  rewrite (ParseMessage_four_parts _ _ _ _ _ HS).
  change (index [bits; z; rd; msg] 0) with (Return (A := gostring) bits).
  cbn [bind].
  do 6 head_read_or_panic. beep_or_error.
  do 11 head_read_or_panic.
  destruct (slice_inner_short msg Hm) as [p ->]. left. now exists p.
Qed.

(** C1: on a four-segment line whose bit field is cut short the parser
    panics with an index out of range; no error is returned. *)
Theorem truncated_bit_field_panics :
  Split truncated_line comma =
    [lit "[10000601"; lit "045"; lit "[f71f00000045001c28020000000000]";
     disarmed_segment] /\
  len (lit "[10000601") < 19 /\
  ParseMessage truncated_line = Panic (IndexOutOfRange 9 9).
Proof. repeat split. Qed.

(** C5: on a four-segment line whose keypad text is a single byte the
    parser panics with slice bounds out of range; no error is returned. *)
Theorem short_keypad_text_panics :
  Split short_keypad_line comma = [lit "[00000000011000003A--]"; []; []; dquote] /\
  len dquote < 2 /\
  ParseMessage short_keypad_line = Panic (SliceBoundsLow 1 0).
Proof. repeat split. Qed.

(** ** What the parser does not look at *)

Ltac in_inspected := vm_compute; repeat (first [left; reflexivity | right]).

Ltac same_head_read H :=
  match goal with
  | |- observe (bind (index ?l1 ?i) _) = observe (bind (index ?l2 ?i) _) =>
      rewrite (index_nat l1 i), (index_nat l2 i) by lia;
      rewrite (H (Z.to_nat i)) by in_inspected;
      destruct (nth_error l2 (Z.to_nat i)); cbn [bind]; [| reflexivity]
  | |- observe (bind (slice ?l1 ?i ?j) _) = observe (bind (slice ?l2 ?i ?j) _) =>
      rewrite (slice_one_Z l1 i j), (slice_one_Z l2 i j) by lia;
      rewrite (H (Z.to_nat i)) by in_inspected;
      destruct (nth_error l2 (Z.to_nat i)); cbn [bind]; [| reflexivity]
  end.

Lemma ParseMessage_same_observation (s1 s2 b1 b2 z rd msg : gostring) :
  Split s1 comma = [b1; z; rd; msg] ->
  Split s2 comma = [b2; z; rd; msg] ->
  (forall i, In i inspected -> nth_error b1 i = nth_error b2 i) ->
  observe (ParseMessage s1) = observe (ParseMessage s2).
Proof.
  intros H1 H2 Hsame.
  rewrite (ParseMessage_four_parts _ _ _ _ _ H1), (ParseMessage_four_parts _ _ _ _ _ H2).
  change (index [b1; z; rd; msg] 0) with (Return (A := gostring) b1).
  change (index [b2; z; rd; msg] 0) with (Return (A := gostring) b2).
  cbn [bind].
  do 6 same_head_read Hsame.
  match goal with
  | |- context [Atoi ?d] => destruct (Atoi d) as [n [e |]]
  end; cbn [fst snd]; [reflexivity |].
  do 11 same_head_read Hsame.
  destruct (slice msg 1 (len msg - 1)); reflexivity.
Qed.

(** C9: two four-segment lines that agree on positions 1..16 and 18 of the
    bit field and on the other three segments have the same outcome up to
    [UnparsedMessage]; bytes at positions 0, 17 and from 19 on play no
    part, so a line is accepted whatever stands there. *)
Theorem uninspected_positions_are_ignored (s1 s2 b1 b2 z rd msg : gostring) :
  Split s1 comma = [b1; z; rd; msg] ->
  Split s2 comma = [b2; z; rd; msg] ->
  (forall i, In i inspected -> nth_error b1 i = nth_error b2 i) ->
  observe (ParseMessage s1) = observe (ParseMessage s2) /\
  (19 <= len b1 -> is_digit (bit b1 6) = true -> 2 <= len msg ->
   exists m1 m2,
     ParseMessage s1 = Return (m1, None) /\
     ParseMessage s2 = Return (m2, None) /\
     Set_.UnparsedMessage [] m1 = Set_.UnparsedMessage [] m2).
Proof.
  intros H1 H2 Hsame.
  pose proof (ParseMessage_same_observation _ _ _ _ _ _ _ H1 H2 Hsame) as Hobs.
  split; [exact Hobs |].
  intros Hb Hd Hm.
  rewrite (ParseMessage_accepts _ _ _ _ _ H1 Hb Hd Hm) in Hobs |- *.
  destruct (ParseMessage s2) as [[m2 e2] | p]; cbn in Hobs; [| discriminate].
  injection Hobs as Hm12 He. subst e2.
  exists (decoded s1 b1 z rd msg), m2. repeat split. exact Hm12.
Qed.

Lemma uninspected_positions_witness :
  observe (ParseMessage test_line) = observe (ParseMessage bracketless_line) /\
  exists m1 m2,
    ParseMessage test_line = Return (m1, None) /\
    ParseMessage bracketless_line = Return (m2, None) /\
    Set_.UnparsedMessage [] m1 = Set_.UnparsedMessage [] m2.
Proof.
  destruct (uninspected_positions_are_ignored
              test_line bracketless_line
              (lit "[00000000011000003A--]") (lit "X0000000001100000?A")
              [] [] (dquote ++ lit "test" ++ dquote) eq_refl eq_refl) as [Hobs Hacc].
  - intros i Hi. cbn in Hi.
    repeat (destruct Hi as [<- | Hi]; [reflexivity |]). contradiction.
  - split; [exact Hobs |].
    apply Hacc; [vm_compute; discriminate | reflexivity | vm_compute; discriminate].
Defined.

(** ** [TrimSpace] returns a piece of its argument *)

Lemma infix_refl (a : gostring) : infix a a.
Proof. exists [], []. now rewrite app_nil_r. Qed.

Lemma infix_nil (b : gostring) : infix [] b.
Proof. now exists [], b. Qed.

Lemma infix_trans (a b c : gostring) : infix a b -> infix b c -> infix a c.
Proof.
  intros [p1 [q1 ->]] [p2 [q2 ->]].
  exists (p2 ++ p1), (q1 ++ q2). now rewrite <- !app_assoc.
Qed.

Lemma infix_firstn (n : nat) (l : gostring) : infix (firstn n l) l.
Proof. exists [], (skipn n l). cbn. now rewrite firstn_skipn. Qed.

Lemma infix_skipn (n : nat) (l : gostring) : infix (skipn n l) l.
Proof. exists (firstn n l), []. now rewrite app_nil_r, firstn_skipn. Qed.

Lemma infix_cons (c : ascii) (a l : gostring) : infix a l -> infix a (c :: l).
Proof. intros [p [q ->]]. now exists (c :: p), q. Qed.

Create HintDb infix.

#[local] Hint Resolve infix_refl infix_nil infix_firstn infix_skipn infix_cons : infix.

Lemma TrimRightFunc_infix (s : gostring) (f : Z -> bool) : infix (TrimRightFunc s f) s.
Proof.
  unfold TrimRightFunc.
  destruct (lastIndexFunc s f false) as [i |]; [| auto with infix].
  destruct (RuneSelf <=? byte_at s i); auto with infix.
Qed.

Lemma TrimLeftFunc_infix (s : gostring) (f : Z -> bool) : infix (TrimLeftFunc s f) s.
Proof.
  unfold TrimLeftFunc. destruct (indexFunc s f false); auto with infix.
Qed.

Lemma TrimFunc_infix (s : gostring) (f : Z -> bool) : infix (TrimFunc s f) s.
Proof.
  unfold TrimFunc.
  eapply infix_trans; [apply TrimRightFunc_infix | apply TrimLeftFunc_infix].
Qed.

Lemma TrimSpace_stop_infix (t : gostring) (stop : nat) : infix (TrimSpace_stop t stop) t.
Proof.
  induction stop as [| k IH]; cbn [TrimSpace_stop]; [auto with infix |].
  destruct (RuneSelf <=? byte_val (nth k t zero)).
  - eapply infix_trans; [apply TrimRightFunc_infix | auto with infix].
  - destruct (asciiSpace (nth k t zero)); auto with infix.
Qed.

Lemma TrimSpace_infix (s : gostring) : infix (TrimSpace s) s.
Proof.
  induction s as [| c r IH]; [auto with infix |].
  cbn [TrimSpace].
  destruct (RuneSelf <=? byte_val c); [apply TrimFunc_infix |].
  destruct (asciiSpace c); [auto with infix | apply TrimSpace_stop_infix].
Qed.

(** ** [TrimSpace] on ASCII is the plain trimming *)







Lemma two_bytes_shape (msg : gostring) :
  2 <= len msg ->
  exists a b, msg = a :: removelast (tl msg) ++ [b].
Proof.
  intros H. destruct msg as [| a [| x rest]]; try (cbn in H; lia).
  exists a, (last (x :: rest) zero). cbn [tl]. f_equal.
  apply app_removelast_last. discriminate.
Qed.

Lemma removelast_tl_shape (a b : ascii) (body : gostring) :
  removelast (tl (a :: body ++ [b])) = body.
Proof. cbn [tl]. apply removelast_last. Qed.

(** ** The keypad text *)





(** ** Exactly the well-formed lines are accepted *)

Lemma four_parts_shape (l : list gostring) :
  len l = 4 -> exists bits z rd msg, l = [bits; z; rd; msg].
Proof.
  intros H.
  destruct l as [| a [| b [| c [| d [| e l]]]]];
    try (cbn in H; discriminate).
  - now exists a, b, c, d.
  - exfalso. rewrite !len_cons in H. pose proof (len_nonneg l). lia.
Qed.

Theorem ParseMessage_accepts_iff (s : gostring) :
  (exists m, ParseMessage s = Return (m, None)) <-> well_formed s.
Proof.
  split.
  - intros [m Hm].
    destruct (Z.eq_dec (len (Split s comma)) 4) as [H4 | H4].
    + destruct (four_parts_shape _ H4) as [bits [z [rd [msg HS]]]].
      exists bits, z, rd, msg. split; [exact HS |].
      destruct (Z.lt_ge_cases (len bits) 19) as [Hb | Hb].
      { destruct (truncated_bit_field_outcome _ _ _ _ _ HS Hb)
          as [[p Hp] | [e [He _]]]; congruence. }
      destruct (is_digit (bit bits 6)) eqn:Hd.
      2:{ rewrite (ParseMessage_bad_beep _ _ _ _ _ HS) in Hm by (lia || assumption).
          discriminate. }
      destruct (Z.lt_ge_cases (len msg) 2) as [Hk | Hk].
      { destruct (short_keypad_text_outcome _ _ _ _ _ HS Hk)
          as [[p Hp] | [e [He _]]]; congruence. }
      repeat split; assumption.
    + destruct (wrong_segment_count_outcome s H4) as [e [He _]]. congruence.
  - intros [bits [z [rd [msg [HS [Hb [Hd Hm]]]]]]].
    exists (decoded s bits z rd msg). now apply ParseMessage_accepts.
Qed.

(** ** The line reader *)

(** More fuel never changes what a scan that finished returns. *)
Lemma Scan_loop_fuel (f : nat) :
  forall t s r, Scan_loop f t s = Some r ->
  forall f', (f <= f')%nat -> Scan_loop f' t s = Some r.
Proof.
  induction f as [| f IH]; intros t s r H f' Hf; [discriminate |].
  destruct f' as [| f']; [lia |].
  cbn [Scan_loop] in *.
  destruct (Scan_token s) as [s1 | s1 | s1 | p]; try assumption.
  destruct (has_err s1); [assumption |].
  destruct (Scan_room s1) as [s2 | s2]; [| assumption].
  destruct (Scan_read maxConsecutiveEmptyReads t s2) as [t3 s3].
  apply (IH _ _ _ H). lia.
Qed.

Lemma Scan_fuel (f f' : nat) (t : Transport) (s : Scanner) r :
  Scan f t s = Some r -> (f <= f')%nat -> Scan f' t s = Some r.
Proof.
  unfold Scan. destruct (done s); [trivial |].
  intros H Hf. now apply (Scan_loop_fuel f).
Qed.

Lemma Read_fuel (f f' : nat) (ad : AlarmDecoder) r :
  Read f ad = Some r -> (f <= f')%nat -> Read f' ad = Some r.
Proof.
  unfold Read. intros H Hf.
  destruct (Scan f (rw ad) (scanner ad)) as [r0 |] eqn:E; [| discriminate].
  now rewrite (Scan_fuel f f' _ _ _ E Hf).
Qed.

(** Runs [Read] on a closed decoder and hands the decoder it leaves behind
    to the continuation. *)
Ltac after_read ad k :=
  let r := eval vm_compute in (Read 3 ad) in
  match r with
  | Some (Return (_, _, ?ad')) => k ad'
  end.

Ltac by_running :=
  apply (Read_fuel 3); [vm_compute; reflexivity | assumption].

Ltac chunked_case n :=
  after_read (New (stream [firstn n test_bytes; skipn n test_bytes])) ltac:(fun ad1 =>
  after_read (New (stream [test_bytes])) ltac:(fun ad2 =>
  after_read ad1 ltac:(fun ad1' =>
  after_read ad2 ltac:(fun ad2' =>
    exists ad1, ad2, ad1', ad2'; repeat split; by_running)))).

(** C2: the test line and its newline, delivered in two chunks cut at any
    offset, are read as the same single message as when delivered at once;
    the next [Read] on either decoder reports the end of the stream. *)
Theorem chunked_read_equals_whole_read (k fuel : nat) :
  (k <= 32)%nat ->
  (3 <= fuel)%nat ->
  exists ad1 ad2 ad1' ad2',
    Read fuel (New (stream [firstn k test_bytes; skipn k test_bytes]))
      = Some (Return (test_message, None, ad1)) /\
    Read fuel (New (stream [test_bytes]))
      = Some (Return (test_message, None, ad2)) /\
    Read fuel ad1 = Some (Return (Message_zero, Some EOF, ad1')) /\
    Read fuel ad2 = Some (Return (Message_zero, Some EOF, ad2')).
Proof.
  intros Hk Hfuel.
  do 33 (destruct k as [| k];
         [match goal with
          | |- context [firstn ?n test_bytes] => chunked_case n
          end |]).
  lia.
Qed.

Lemma chunked_read_witness :
  exists ad1 ad2 ad1' ad2',
    Read 3 (New (stream [firstn 5 test_bytes; skipn 5 test_bytes]))
      = Some (Return (test_message, None, ad1)) /\
    Read 3 (New (stream [test_bytes]))
      = Some (Return (test_message, None, ad2)) /\
    Read 3 ad1 = Some (Return (Message_zero, Some EOF, ad1')) /\
    Read 3 ad2 = Some (Return (Message_zero, Some EOF, ad2')).
Proof.
  apply (chunked_read_equals_whole_read 5 3); lia.
Defined.

(** * The parser, case by case *)

(** One read at the head of the remaining program, for a goal that asks for
    a bounds panic. *)
Ltac head_read_or_bounds_panic :=
  match goal with
  | |- exists p, bind (index ?l ?i) _ = Panic p /\ _ =>
      rewrite (index_nat l i) by lia;
      destruct (nth_error l (Z.to_nat i)) eqn:?; cbn [bind];
      [| eexists; split; [reflexivity | exact I]]
  | |- exists p, bind (slice ?l ?i ?j) _ = Panic p /\ _ =>
      rewrite (slice_one_Z l i j) by lia;
      destruct (nth_error l (Z.to_nat i)) eqn:?; cbn [bind];
      [| eexists; split; [reflexivity | exact I]]
  end.

Ltac out_of_range :=
  match goal with
  | H : nth_error ?l ?k = Some _, Hlen : len ?l < _ |- _ =>
      assert ((k < List.length l)%nat) by (apply nth_error_Some; congruence);
      unfold len in Hlen; lia
  end.

Lemma ParseMessage_no_beep_byte (s bits z rd msg : gostring) :
  Split s comma = [bits; z; rd; msg] ->
  len bits < 7 ->
  exists p, ParseMessage s = Panic p /\ bounds_panic p.
Proof.
  intros HS Hb.
  rewrite (ParseMessage_four_parts _ _ _ _ _ HS).
  change (index [bits; z; rd; msg] 0) with (Return (A := gostring) bits).
  cbn [bind].
  do 6 head_read_or_bounds_panic.
  out_of_range.
Qed.

Lemma ParseMessage_digit_then_short (s bits z rd msg : gostring) :
  Split s comma = [bits; z; rd; msg] ->
  7 <= len bits ->
  is_digit (bit bits 6) = true ->
  len bits < 19 \/ len msg < 2 ->
  exists p, ParseMessage s = Panic p /\ bounds_panic p.
Proof.
  intros HS Hb Hd Hshort.
  rewrite (ParseMessage_four_parts _ _ _ _ _ HS).
  change (index [bits; z; rd; msg] 0) with (Return (A := gostring) bits).
  cbn [bind].
  do 6 read_in_range.
  change (Z.to_nat 6) with 6%nat.
  rewrite Atoi_one_byte, Hd. cbn [fst snd].
  do 11 head_read_or_bounds_panic.
  destruct Hshort as [Hshort | Hshort]; [out_of_range |].
  unfold slice.
  pose proof (len_nonneg msg) as Hm0.
  destruct (Z.ltb_spec (len msg - 1) 0);
    [eexists; split; [reflexivity | exact I] |].
  destruct (Z.ltb_spec (len msg) (len msg - 1)); [lia |].
  destruct (Z.ltb_spec 1 0); [lia |].
  destruct (Z.ltb_spec (len msg - 1) 1); [| lia].
  eexists; split; [reflexivity | exact I].
Qed.

(** What [ParseMessage] does on a line of four segments, by the length of
    the bit field, the byte at position 6 and the length of the keypad
    text. *)
Lemma ParseMessage_cases (s bits z rd msg : gostring) :
  Split s comma = [bits; z; rd; msg] ->
  (len bits < 7 /\ exists p, ParseMessage s = Panic p /\ bounds_panic p) \/
  (7 <= len bits /\ is_digit (bit bits 6) = false /\
   ParseMessage s =
     Return (Message_zero, Some (NumError "Atoi" [bit bits 6] ErrSyntax))) \/
  (7 <= len bits /\ is_digit (bit bits 6) = true /\
   (len bits < 19 \/ len msg < 2) /\
   exists p, ParseMessage s = Panic p /\ bounds_panic p) \/
  (19 <= len bits /\ is_digit (bit bits 6) = true /\ 2 <= len msg /\
   ParseMessage s = Return (decoded s bits z rd msg, None)).
Proof.
  intros HS.
  destruct (Z.lt_ge_cases (len bits) 7) as [H7 | H7].
  { left. split; [assumption |]. now apply (ParseMessage_no_beep_byte _ _ _ _ _ HS). }
  right. destruct (is_digit (bit bits 6)) eqn:Hd.
  2:{ left. repeat split; try assumption.
      now apply (ParseMessage_bad_beep _ _ _ _ _ HS). }
  right.
  destruct (Z.lt_ge_cases (len bits) 19) as [H19 | H19].
  { left. repeat split; try assumption; [now left |].
    apply (ParseMessage_digit_then_short _ _ _ _ _ HS); auto. }
  destruct (Z.lt_ge_cases (len msg) 2) as [H2 | H2].
  { left. repeat split; try assumption; [now right |].
    apply (ParseMessage_digit_then_short _ _ _ _ _ HS); auto. }
  right. repeat split; try assumption.
  now apply ParseMessage_accepts.
Qed.

(** X1: [ParseMessage] returns a message and no error exactly on the lines
    of four segments whose bit field covers position 18 with a decimal
    digit at position 6 and whose keypad segment has at least two bytes;
    nothing else about the line is required. *)
Theorem accepted_iff_well_formed (s : gostring) :
  (exists m, ParseMessage s = Return (m, None)) <-> well_formed s.
Proof. exact (ParseMessage_accepts_iff s). Qed.

(** X2: whenever [ParseMessage] returns an error the message beside it is
    the zero message, and the error is one of two: the frame error of the
    segment count, or [Atoi]'s syntax error on the single byte at position
    6, which is then no decimal digit. *)
Theorem ParseMessage_error_shape (s : gostring) (m : Message) (e : error) :
  ParseMessage s = Return (m, Some e) ->
  m = Message_zero /\
  ((len (Split s comma) <> 4 /\
    e = Errorf "expected 4 parts got: %#v" (Split s comma)) \/
   (exists bits z rd msg,
      Split s comma = [bits; z; rd; msg] /\ 7 <= len bits /\
      is_digit (bit bits 6) = false /\
      e = NumError "Atoi" [bit bits 6] ErrSyntax)).
Proof.
  intros H.
  destruct (Z.eq_dec (len (Split s comma)) 4) as [H4 | H4].
  - destruct (four_parts_shape _ H4) as [bits [z [rd [msg HS]]]].
    destruct (ParseMessage_cases _ _ _ _ _ HS)
      as [[_ [p [Hp _]]] | [[H7 [Hd He]] | [[_ [_ [_ [p [Hp _]]]]] | [_ [_ [_ Hok]]]]]];
      try congruence.
    rewrite He in H. injection H as <- <-.
    split; [reflexivity |]. right. now exists bits, z, rd, msg.
  - destruct (wrong_segment_count_outcome s H4) as [e' [He' ->]].
    rewrite He' in H. injection H as <- <-.
    split; [reflexivity |]. now left.
Qed.

Lemma ParseMessage_error_shape_witness :
  Message_zero = Message_zero /\
  ((len (Split (lit "[00000x00011000003A--],,,xtestx") comma) <> 4 /\
    NumError "Atoi" (lit "x") ErrSyntax
      = Errorf "expected 4 parts got: %#v"
          (Split (lit "[00000x00011000003A--],,,xtestx") comma)) \/
   (exists bits z rd msg,
      Split (lit "[00000x00011000003A--],,,xtestx") comma = [bits; z; rd; msg] /\
      7 <= len bits /\ is_digit (bit bits 6) = false /\
      NumError "Atoi" (lit "x") ErrSyntax = NumError "Atoi" [bit bits 6] ErrSyntax)).
Proof.
  apply (ParseMessage_error_shape (lit "[00000x00011000003A--],,,xtestx")).
  reflexivity.
Defined.

(** X3: [ParseMessage] panics exactly on the lines of four segments whose
    bit field has no byte 6, or has a digit there and then either stops
    before position 18 or comes with a keypad text under two bytes. *)
Theorem ParseMessage_panics_iff (s : gostring) :
  (exists p, ParseMessage s = Panic p) <->
  (exists bits z rd msg,
     Split s comma = [bits; z; rd; msg] /\
     (len bits < 7 \/
      (is_digit (bit bits 6) = true /\ (len bits < 19 \/ len msg < 2)))).
Proof.
  split.
  - intros [p Hp].
    destruct (Z.eq_dec (len (Split s comma)) 4) as [H4 | H4].
    + destruct (four_parts_shape _ H4) as [bits [z [rd [msg HS]]]].
      exists bits, z, rd, msg. split; [exact HS |].
      destruct (ParseMessage_cases _ _ _ _ _ HS)
        as [[H7 _] | [[_ [_ He]] | [[_ [Hd [Hshort _]]] | [_ [_ [_ Hok]]]]]];
        try congruence; auto.
    + destruct (wrong_segment_count_outcome s H4) as [e [He _]]. congruence.
  - intros [bits [z [rd [msg [HS Hc]]]]].
    destruct (ParseMessage_cases _ _ _ _ _ HS)
      as [[_ [p [Hp _]]] | [[H7 [Hd He]] | [[_ [_ [_ [p [Hp _]]]]] | [H19 [Hd [H2 Hok]]]]]].
    + now exists p.
    + destruct Hc as [Hc | [Hc _]]; [lia | congruence].
    + now exists p.
    + destruct Hc as [Hc | [_ [Hc | Hc]]]; lia.
Qed.


(** ** Segments, commas and fields *)

Lemma Split_length (s : gostring) (sep : ascii) :
  List.length (Split s sep) = S (count_occ ascii_dec s sep).
Proof.
  induction s as [| c r IH]; [reflexivity |].
  cbn [Split count_occ].
  destruct (Ascii.eqb_spec c sep) as [-> | Hne].
  - destruct (ascii_dec sep sep); [| contradiction]. cbn. now rewrite IH.
  - destruct (ascii_dec c sep); [contradiction |].
    destruct (Split r sep) as [| h t] eqn:E.
    + now destruct (Split_nonempty r sep).
    + rewrite <- IH. reflexivity.
Qed.

(** The first segment is what stands before the first separator. *)
Lemma Split_cons_inv (s : gostring) (sep : ascii) :
  forall h t, Split s sep = h :: t ->
  ~ In sep h /\
  ((t = [] /\ s = h) \/
   (exists r, s = h ++ sep :: r /\ Split r sep = t)).
Proof.
  induction s as [| c r IH]; intros h t H.
  - cbn in H. injection H as <- <-. split; [intros [] | now left].
  - cbn in H. destruct (Ascii.eqb_spec c sep) as [-> | Hne].
    + injection H as <- <-. split; [intros [] |]. right. now exists r.
    + destruct (Split r sep) as [| h' t'] eqn:E.
      * now destruct (Split_nonempty r sep).
      * injection H as <- <-.
        destruct (IH h' t' eq_refl) as [Hnot [[-> ->] | [r' [-> Hr']]]].
        -- split; [| now left]. intros [-> | Hin]; [now apply Hne | now apply Hnot].
        -- split; [| right; now exists r'].
           intros [-> | Hin]; [now apply Hne | now apply Hnot].
Qed.

Lemma Split_four_inv (s a b c d : gostring) (sep : ascii) :
  Split s sep = [a; b; c; d] ->
  s = a ++ sep :: b ++ sep :: c ++ sep :: d /\
  ~ In sep a /\ ~ In sep b /\ ~ In sep c /\ ~ In sep d.
Proof.
  intros H.
  destruct (Split_cons_inv _ _ _ _ H) as [Ha [[Hnil _] | [r1 [-> H1]]]];
    [discriminate |].
  destruct (Split_cons_inv _ _ _ _ H1) as [Hb [[Hnil _] | [r2 [-> H2]]]];
    [discriminate |].
  destruct (Split_cons_inv _ _ _ _ H2) as [Hc [[Hnil _] | [r3 [-> H3]]]];
    [discriminate |].
  destruct (Split_cons_inv _ _ _ _ H3) as [Hd [[_ ->] | [r4 [_ H4]]]].
  - repeat split; assumption.
  - now destruct (Split_nonempty r4 sep).
Qed.

Lemma ParseMessage_accepted_decoded (s : gostring) (m : Message) :
  ParseMessage s = Return (m, None) ->
  exists bits z rd msg,
    Split s comma = [bits; z; rd; msg] /\ 19 <= len bits /\
    is_digit (bit bits 6) = true /\ 2 <= len msg /\
    m = decoded s bits z rd msg.
Proof.
  intros H.
  assert (Hwf : well_formed s).
  { apply ParseMessage_accepts_iff. now exists m. }
  destruct Hwf as [bits [z [rd [msg [HS [Hb [Hd Hm]]]]]]].
  exists bits, z, rd, msg. repeat split; try assumption.
  rewrite (ParseMessage_accepts _ _ _ _ _ HS Hb Hd Hm) in H. congruence.
Qed.

(** X4: the frame error is returned exactly for the lines that do not hold
    exactly three commas; a comma inside the quoted keypad text counts like
    any other. *)
Theorem malformed_frame_iff_not_three_commas (s : gostring) :
  ParseMessage s =
    Return (Message_zero, Some (Errorf "expected 4 parts got: %#v" (Split s comma)))
  <-> commas s <> 3%nat.
Proof.
  assert (Hlen : len (Split s comma) = 4 <-> commas s = 3%nat).
  { unfold len, commas. rewrite Split_length. lia. }
  split.
  - intros H Hc. apply Hlen in Hc.
    destruct (four_parts_shape _ Hc) as [bits [z [rd [msg HS]]]].
    destruct (ParseMessage_cases _ _ _ _ _ HS)
      as [[_ [p [Hp _]]] | [[_ [_ He]] | [[_ [_ [_ [p [Hp _]]]]] | [_ [_ [_ Hok]]]]]];
      congruence.
  - intros Hc.
    destruct (wrong_segment_count_outcome s) as [e [He ->]]; [| exact He].
    intros H4. now apply Hc, Hlen.
Qed.

(** X5: the fields of an accepted message are pieces of the line:
    [UnparsedMessage] is the line, the line is the bit field, [Zone],
    [RawData] and the keypad segment joined by commas, none of them holds a
    comma, [Mode] is the byte at position 18, [Beeps] is a single digit and
    [KeypadMessage] occurs in the keypad segment. *)
Theorem accepted_fields_are_pieces (s : gostring) (m : Message) :
  ParseMessage s = Return (m, None) ->
  UnparsedMessage m = s /\
  exists bits msg,
    s = bits ++ comma :: Zone m ++ comma :: RawData m ++ comma :: msg /\
    ~ In comma bits /\ ~ In comma (Zone m) /\ ~ In comma (RawData m) /\
    ~ In comma msg /\
    Mode m = [bit bits 18] /\
    0 <= Beeps m <= 9 /\
    infix (KeypadMessage m) msg.
Proof.
  intros H.
  destruct (ParseMessage_accepted_decoded _ _ H)
    as [bits [z [rd [msg [HS [Hb [Hd [Hm ->]]]]]]]].
  split; [reflexivity |].
  destruct (Split_four_inv _ _ _ _ _ _ HS) as [Hs [Hnb [Hnz [Hnr Hnm]]]].
  exists bits, msg. cbn [Zone RawData Mode Beeps KeypadMessage decoded].
  repeat split; try assumption.
  - unfold is_digit in Hd. apply andb_prop in Hd as [H1 H2].
    apply Z.leb_le in H1. lia.
  - unfold is_digit in Hd. apply andb_prop in Hd as [H1 H2].
    apply Z.leb_le in H2. lia.
  - eapply infix_trans; [apply TrimSpace_infix |].
    destruct (two_bytes_shape msg Hm) as [a [b Hshape]].
    exists [a], [b]. exact Hshape.
Qed.

Lemma accepted_fields_witness :
  UnparsedMessage test_message = test_line /\
  exists bits msg,
    test_line
      = bits ++ comma :: Zone test_message ++ comma :: RawData test_message
             ++ comma :: msg /\
    ~ In comma bits /\ ~ In comma (Zone test_message) /\
    ~ In comma (RawData test_message) /\ ~ In comma msg /\
    Mode test_message = [bit bits 18] /\
    0 <= Beeps test_message <= 9 /\
    infix (KeypadMessage test_message) msg.
Proof.
  apply (accepted_fields_are_pieces test_line test_message). reflexivity.
Defined.

(** X6: each flag of an accepted message is true exactly when its own
    position of the bit field holds the byte '1'; any other byte there, and
    whatever the other positions hold, leaves it false. *)
Theorem flags_follow_their_byte (s bits : gostring) (rest : list gostring)
    (m : Message) (k : nat) :
  ParseMessage s = Return (m, None) ->
  Split s comma = bits :: rest ->
  In k flag_positions ->
  (flag k m = true <-> bit bits k = "1"%char).
Proof.
  intros H HS Hk.
  destruct (ParseMessage_accepted_decoded _ _ H)
    as [bits' [z [rd [msg [HS' [_ [_ [_ ->]]]]]]]].
  rewrite HS in HS'. injection HS' as <- _.
  rewrite flag_decoded by assumption.
  unfold is_one. apply Ascii.eqb_eq.
Qed.

Lemma flags_follow_their_byte_witness :
  flag 11 test_message = true
  <-> bit (lit "[00000000011000003A--]") 11 = "1"%char.
Proof.
  apply (flags_follow_their_byte test_line (lit "[00000000011000003A--]")
           [[]; []; dquote ++ lit "test" ++ dquote] test_message 11).
  - reflexivity.
  - reflexivity.
  - cbn. tauto.
Defined.

(** * The reader on an arbitrary stream *)

Lemma len_app {A : Type} (a b : list A) : len (a ++ b) = len a + len b.
Proof. unfold len. rewrite length_app. lia. Qed.

Lemma len_nil {A : Type} : len (@nil A) = 0.
Proof. reflexivity. Qed.

Lemma len_zero_nil {A : Type} (l : list A) : len l = 0 -> l = [].
Proof. destruct l; [reflexivity | rewrite len_cons; pose proof (len_nonneg l); lia]. Qed.

Lemma len_skipn {A : Type} (l : list A) (n : Z) :
  0 <= n <= len l -> len (skipn (Z.to_nat n) l) = len l - n.
Proof. intros H. unfold len in *. rewrite length_skipn. lia. Qed.

Lemma len_firstn {A : Type} (l : list A) (n : Z) :
  0 <= n <= len l -> len (firstn (Z.to_nat n) l) = n.
Proof. intros H. unfold len in *. rewrite length_firstn. lia. Qed.

Lemma pending_len (s : Scanner) :
  0 <= start s <= end_ s -> len (pending s) = end_ s - start s.
Proof. intros H. unfold pending. now rewrite len_skipn. Qed.

Lemma IndexByte_None (b : gostring) (c : ascii) :
  ~ In c b -> IndexByte b c = None.
Proof.
  induction b as [| x r IH]; intros H; [reflexivity |].
  cbn. destruct (Ascii.eqb_spec x c) as [-> | _].
  - exfalso. apply H. now left.
  - rewrite IH; [reflexivity |]. intros Hin. apply H. now right.
Qed.

Lemma IndexByte_app (l rest : gostring) (c : ascii) :
  ~ In c l -> IndexByte (l ++ c :: rest) c = Some (len l).
Proof.
  induction l as [| x r IH]; intros H.
  - cbn. now rewrite Ascii.eqb_refl.
  - cbn [app IndexByte]. destruct (Ascii.eqb_spec x c) as [-> | _].
    + exfalso. apply H. now left.
    + rewrite IH by (intros Hin; apply H; now right).
      rewrite len_cons. reflexivity.
Qed.

(** A stream that starts with a line: either the line and its newline are
    within the first part, or the first part is a piece of the line. *)
Lemma line_split (p r l rest : gostring) (c : ascii) :
  p ++ r = l ++ c :: rest -> ~ In c l ->
  (exists rest1, p = l ++ c :: rest1 /\ rest = rest1 ++ r) \/
  (exists l2, l = p ++ l2 /\ r = l2 ++ c :: rest /\ ~ In c p).
Proof.
  revert l. induction p as [| x p IH]; intros l H Hl.
  - right. exists l. cbn in H. repeat split; [assumption | intros []].
  - destruct l as [| y l].
    + cbn in H. injection H as -> <-. left. now exists p.
    + cbn in H. injection H as -> H.
      destruct (IH l H) as [[rest1 [-> ->]] | [l2 [-> [-> Hp]]]].
      * intros Hin. apply Hl. now right.
      * left. now exists rest1.
      * right. exists l2. repeat split.
        intros [-> | Hin]; [apply Hl; now left | now apply Hp].
Qed.

(** ** One round of [Scan] *)

(** Without a line and without an error the first half of a round asks for
    more input and leaves the indices alone. *)
Lemma Scan_token_more (s : Scanner) :
  0 <= start s <= end_ s ->
  err s = None ->
  ~ In newline (pending s) ->
  exists s1,
    Scan_token s = More s1 /\
    buf s1 = buf s /\ start s1 = start s /\ buf_len s1 = buf_len s /\
    err s1 = None /\ done s1 = done s /\ maxTokenSize s1 = maxTokenSize s.
Proof.
  intros Hidx Herr Hnl. unfold Scan_token, has_err. rewrite Herr.
  rewrite orb_false_r.
  destruct (Z.ltb_spec (start s) (end_ s)) as [Hlt | Hge].
  - fold (pending s). unfold ScanLines. cbn [andb].
    rewrite (IndexByte_None _ _ Hnl).
    unfold advance.
    destruct (Z.ltb_spec 0 0); [lia |].
    destruct (Z.ltb_spec (end_ s - start s) 0); [lia |].
    eexists. split; [reflexivity |]. cbn. repeat split; try assumption. lia.
  - exists s. repeat split; assumption.
Qed.

(** Making room keeps what is pending and leaves at least one free byte,
    as long as less than a full token is pending. *)
Lemma Scan_room_ok (s : Scanner) :
  Scanner_ok s ->
  len (pending s) < MaxScanTokenSize ->
  exists s2,
    Scan_room s = inl s2 /\ Scanner_ok s2 /\
    pending s2 = pending s /\ end_ s2 < buf_len s2 /\ err s2 = err s.
Proof.
  intros [Hdone [Hmax [Hidx Hcap]]] Hpend.
  rewrite pending_len in Hpend by assumption.
  unfold Scan_room.
  destruct ((0 <? start s) && ((end_ s =? buf_len s) || (buf_len s / 2 <? start s)))
    eqn:Hshift.
  - (* the data is shifted to the front *)
    apply andb_prop in Hshift as [Hpos _]. apply Z.ltb_lt in Hpos.
    set (s1 := with_buf (skipn (Z.to_nat (start s)) (buf s)) (buf_len s) 0 s).
    assert (Hend : end_ s1 = end_ s - start s).
    { unfold end_ at 1. cbn [buf s1 with_buf]. apply len_skipn. exact Hidx. }
    destruct (Z.eqb_spec (end_ s1) (buf_len s1)) as [E | _].
    { cbn [buf_len s1 with_buf] in E. lia. }
    exists s1. split; [reflexivity |]. repeat split; cbn [s1 with_buf done maxTokenSize start buf_len err];
      try assumption; try lia.
  - (* nothing is shifted *)
    destruct (Z.eqb_spec (end_ s) (buf_len s)) as [E | Hne].
    + assert (H0 : start s = 0).
      { destruct (Z.ltb_spec 0 (start s)) as [Hpos | Hle]; [| lia].
        try rewrite E in Hshift; try rewrite Z.eqb_refl in Hshift.
        cbn in Hshift. discriminate. }
      rewrite Hmax. clear Hshift.
      destruct (Z.leb_spec MaxScanTokenSize (buf_len s)); [lia |].
      destruct (Z.ltb_spec (maxInt / 2) (buf_len s)) as [Hbig | _].
      { change (maxInt / 2) with 4611686018427387903 in Hbig.
        unfold MaxScanTokenSize in *. lia. }
      cbn [orb].
      remember (if MaxScanTokenSize <?
                   (if buf_len s * 2 =? 0 then startBufSize else buf_len s * 2)
                then MaxScanTokenSize
                else if buf_len s * 2 =? 0 then startBufSize else buf_len s * 2)
        as newSize eqn:HN.
      assert (Hnew : buf_len s < newSize <= MaxScanTokenSize).
      { subst newSize. unfold MaxScanTokenSize, startBufSize in *.
        destruct (Z.eqb_spec (buf_len s * 2) 0);
          [destruct (Z.ltb_spec (64 * 1024) 4096) |
           destruct (Z.ltb_spec (64 * 1024) (buf_len s * 2))]; lia. }
      clear HN.
      eexists. split; [reflexivity |].
      unfold Scanner_ok, pending, end_ in *.
      cbn [with_buf done maxTokenSize start buf_len err buf].
      rewrite H0. change (Z.to_nat 0) with 0%nat. cbn [skipn].
      repeat split; try assumption; lia.
    + exists s. split; [reflexivity |]. repeat split; try assumption; lia.
Qed.

(** One pass of the read loop over a stream that has a chunk to give: some
    bytes, at least one and no more than there is room for, move from the
    stream to the end of the buffer. *)
Lemma Scan_read_chunk (k : nat) (t : Transport) (s : Scanner)
    (c : gostring) (more : list gostring) :
  incoming t = c :: more ->
  c <> [] ->
  end_ s < buf_len s ->
  exists d t' s',
    Scan_read k t s = (t', s') /\
    d <> [] /\ len d <= buf_len s - end_ s /\
    buf s' = buf s ++ d /\ start s' = start s /\ buf_len s' = buf_len s /\
    err s' = err s /\ done s' = done s /\ maxTokenSize s' = maxTokenSize s /\
    c ++ List.concat more = d ++ List.concat (incoming t') /\
    (Forall (fun x => x <> []) more -> no_empty_chunk t') /\
    closing t' = closing t /\ outgoing t' = outgoing t /\
    write_refused t' = write_refused t.
Proof.
  intros Hinc Hc Hroom.
  set (n := buf_len s - end_ s).
  set (kk := Z.to_nat (Z.min n (len c))).
  assert (Hclen : 0 < len c).
  { destruct c; [contradiction | rewrite len_cons; pose proof (len_nonneg c); lia]. }
  assert (Hd : len (firstn kk c) = Z.min n (len c)).
  { unfold kk. apply len_firstn. lia. }
  exists (firstn kk c),
    (mkTransport (if len c <=? n then more else skipn kk c :: more)
       (closing t) (outgoing t) (write_refused t)),
    (with_empties 0 (with_buf (buf s ++ firstn kk c) (buf_len s) (start s) s)).
  split.
  - destruct k; cbn [Scan_read]; unfold Transport_Read; rewrite Hinc;
      fold n; fold kk; cbv zeta; cbv iota;
      (destruct (Z.ltb_spec (len (firstn kk c)) 0); [lia |]);
      (destruct (Z.ltb_spec n (len (firstn kk c))); [lia |]);
      cbn [orb];
      (destruct (Z.ltb_spec 0 (len (firstn kk c))); [| lia]);
      reflexivity.
  - cbn [buf start buf_len err done maxTokenSize with_empties with_buf
           incoming closing outgoing write_refused].
    repeat split; try lia.
    + intros E. rewrite E in Hd. cbn in Hd. lia.
    + destruct (Z.leb_spec (len c) n).
      * unfold kk. rewrite Z.min_r by lia.
        unfold len. rewrite Nat2Z.id, firstn_all. reflexivity.
      * cbn [List.concat]. rewrite app_assoc, firstn_skipn. reflexivity.
    + intros Hmore. unfold no_empty_chunk. cbn [incoming].
      destruct (Z.leb_spec (len c) n); [assumption |].
      constructor; [| assumption].
      intros E. assert (Hl : len (skipn kk c) = len c - Z.min n (len c)).
      { unfold kk. apply len_skipn. lia. }
      rewrite E in Hl. cbn in Hl. lia.
Qed.

(** A round of [Scan] that finds no line: it reads from the stream and
    starts over, with more bytes pending and the same bytes still to come. *)
Lemma Scan_round_fill (t : Transport) (s : Scanner)
    (c : gostring) (more : list gostring) :
  Scanner_ok s ->
  err s = None ->
  ~ In newline (pending s) ->
  len (pending s) < MaxScanTokenSize ->
  incoming t = c :: more ->
  no_empty_chunk t ->
  exists d t' s',
    (forall f, Scan_loop (S f) t s = Scan_loop f t' s') /\
    Scanner_ok s' /\ err s' = None /\
    d <> [] /\ pending s' = pending s ++ d /\
    List.concat (incoming t) = d ++ List.concat (incoming t') /\
    no_empty_chunk t' /\
    closing t' = closing t /\ outgoing t' = outgoing t /\
    write_refused t' = write_refused t.
Proof.
  intros Hok Herr Hnl Hlen Hinc Hne.
  destruct (Scan_token_more s) as [s1 [Htok [Hb1 [Hs1 [Hl1 [He1 [Hd1 Hm1]]]]]]];
    try assumption; [apply Hok |].
  assert (Hok1 : Scanner_ok s1).
  { unfold Scanner_ok, end_ in *. rewrite Hb1, Hs1, Hl1, Hd1, Hm1. exact Hok. }
  assert (Hp1 : pending s1 = pending s).
  { unfold pending. now rewrite Hb1, Hs1. }
  destruct (Scan_room_ok s1 Hok1) as [s2 [Hroom [Hok2 [Hp2 [Hsp2 He2]]]]];
    [now rewrite Hp1 |].
  unfold no_empty_chunk in Hne. rewrite Hinc in Hne.
  inversion Hne as [| ? ? Hc Hmore]; subst.
  destruct (Scan_read_chunk maxConsecutiveEmptyReads t s2 c more Hinc Hc Hsp2)
    as [d [t' [s' [Hread [Hd [Hdl [Hb' [Hs' [Hl' [He' [Hdn' [Hm' [Hcat [Hne' [Hcl [Hout Hwr]]]]]]]]]]]]]]]].
  exists d, t', s'. split.
  { intros f. cbn [Scan_loop]. rewrite Htok.
    unfold has_err. rewrite He1, Hroom, Hread. reflexivity. }
  destruct Hok2 as [Hdone2 [Hmax2 [Hidx2 Hcap2]]].
  assert (Hend' : end_ s' = end_ s2 + len d).
  { unfold end_. rewrite Hb'. apply len_app. }
  assert (Hok' : Scanner_ok s').
  { pose proof (len_nonneg d) as Hd0.
    unfold Scanner_ok. rewrite Hdn', Hm', Hs', Hl', Hend'.
    repeat split; try assumption; lia. }
  assert (Hp' : pending s' = pending s ++ d).
  { unfold pending. rewrite Hb', Hs'.
    rewrite skipn_app.
    replace (Z.to_nat (start s2) - List.length (buf s2))%nat with 0%nat
      by (unfold end_, len in Hidx2; lia).
    cbn [skipn]. fold (pending s2). now rewrite Hp2, Hp1. }
  split; [exact Hok' |].
  split; [congruence |].
  split; [exact Hd |].
  split; [exact Hp' |].
  split; [rewrite Hinc; exact Hcat |].
  split; [now apply Hne' |].
  repeat split; assumption.
Qed.

(** A round of [Scan] with a whole line pending: the line is the token,
    whatever the stream and the fuel. *)
Lemma Scan_round_token (s : Scanner) (l rest : gostring) :
  Scanner_ok s ->
  pending s = l ++ newline :: rest ->
  ~ In newline l ->
  exists s',
    (forall f t, Scan_loop (S f) t s = Some (Return (true, t, s'))) /\
    Scanner_ok s' /\ err s' = err s /\
    tok s' = Some (dropCR l) /\ pending s' = rest.
Proof.
  intros [Hdone [Hmax [Hidx Hcap]]] Hp Hnl.
  assert (Hplen : len (pending s) = len l + 1 + len rest).
  { rewrite Hp, len_app, len_cons. lia. }
  rewrite pending_len in Hplen by assumption.
  pose proof (len_nonneg l) as Hl0. pose proof (len_nonneg rest) as Hr0.
  exists (with_empties 0
            (with_tok (Some (dropCR l)) (with_start (start s + (len l + 1)) s))).
  split.
  - intros f t. cbn [Scan_loop]. unfold Scan_token.
    destruct (Z.ltb_spec (start s) (end_ s)); [| lia]. cbn [orb].
    fold (pending s). rewrite Hp. unfold ScanLines.
    rewrite (IndexByte_app _ _ _ Hnl).
    replace (has_err s && (len (l ++ newline :: rest) =? 0)) with false.
    2:{ destruct (Z.eqb_spec (len (l ++ newline :: rest)) 0) as [E | _].
        - rewrite len_app, len_cons in E. lia.
        - now rewrite andb_false_r. }
    unfold advance.
    destruct (Z.ltb_spec (len l + 1) 0); [lia |].
    destruct (Z.ltb_spec (end_ s - start s) (len l + 1)); [lia |].
    cbv iota.
    replace (firstn (Z.to_nat (len l)) (l ++ newline :: rest)) with l.
    2:{ unfold len. rewrite Nat2Z.id.
        rewrite firstn_app, firstn_all, Nat.sub_diag. cbn. now rewrite app_nil_r. }
    replace (negb (has_err (with_tok (Some (dropCR l))
                              (with_start (start s + (len l + 1)) s)))
             || (0 <? len l + 1)) with true.
    2:{ destruct (Z.ltb_spec 0 (len l + 1)); [now rewrite orb_true_r | lia]. }
    reflexivity.
  - unfold Scanner_ok, end_, pending in *.
    cbn [with_empties with_tok with_start done maxTokenSize start buf buf_len err tok].
    repeat split; try assumption; try lia.
    replace (Z.to_nat (start s + (len l + 1)))
      with ((List.length l + 1) + Z.to_nat (start s))%nat by (unfold len; lia).
    rewrite <- skipn_skipn. rewrite Hp.
    rewrite skipn_app, skipn_all2 by lia.
    replace (List.length l + 1 - List.length l)%nat with 1%nat by lia.
    reflexivity.
Qed.

(** ** From rounds to [Scan] *)

(** Splits the conjunctions that stand in the goal, and no definition. *)
Ltac conjs := repeat match goal with |- _ /\ _ => split end.

Lemma concat_nonempty (chunks : list gostring) :
  Forall (fun c => c <> []) chunks -> List.concat chunks = [] -> chunks = [].
Proof.
  intros H E. destruct chunks as [| c more]; [reflexivity |].
  inversion H as [| ? ? Hc _]; subst. cbn in E.
  destruct c; [contradiction | discriminate].
Qed.

(** With a line somewhere ahead, in the buffer or still in the stream,
    [Scan] gets to it: [n] bounds the bytes the stream has yet to give. *)
Lemma Scan_loop_line (n : nat) :
  forall (t : Transport) (s : Scanner) (l rest : gostring),
  Scanner_ok s -> err s = None -> no_empty_chunk t ->
  pending s ++ List.concat (incoming t) = l ++ newline :: rest ->
  ~ In newline l -> len l < MaxScanTokenSize ->
  (List.length (List.concat (incoming t)) <= n)%nat ->
  exists t' s',
    Scan_loop (S n) t s = Some (Return (true, t', s')) /\
    Scanner_ok s' /\ err s' = None /\ tok s' = Some (dropCR l) /\
    pending s' ++ List.concat (incoming t') = rest /\
    no_empty_chunk t' /\
    closing t' = closing t /\ outgoing t' = outgoing t /\
    write_refused t' = write_refused t.
Proof.
  induction n as [| n IH]; intros t s l rest Hok Herr Hne Hdata Hnl Hlen Hn.
  - destruct (line_split _ _ _ _ _ Hdata Hnl)
      as [[rest1 [Hp ->]] | [l2 [-> [HR _]]]].
    + destruct (Scan_round_token s l rest1 Hok Hp Hnl)
        as [s' [Hrun [Hok' [He' [Htok' Hp']]]]].
      exists t, s'. rewrite Hrun, Hp'. conjs; try assumption; congruence.
    + rewrite HR in Hn. rewrite length_app in Hn. cbn in Hn. lia.
  - destruct (line_split _ _ _ _ _ Hdata Hnl)
      as [[rest1 [Hp ->]] | [l2 [Hl [HR Hnp]]]].
    + destruct (Scan_round_token s l rest1 Hok Hp Hnl)
        as [s' [Hrun [Hok' [He' [Htok' Hp']]]]].
      exists t, s'. rewrite Hrun, Hp'. conjs; try assumption; congruence.
    + destruct (incoming t) as [| c more] eqn:Hinc.
      { cbn in HR. now destruct l2. }
      assert (Hplen : len (pending s) < MaxScanTokenSize).
      { rewrite Hl, len_app in Hlen. pose proof (len_nonneg l2). lia. }
      destruct (Scan_round_fill t s c more Hok Herr Hnp Hplen Hinc Hne)
        as [d [t1 [s1 [Hrun [Hok1 [He1 [Hd [Hp1 [Hcat [Hne1 [Hcl [Hout Hwr]]]]]]]]]]]].
      rewrite Hinc in Hcat.
      destruct (IH t1 s1 l rest) as [t' [s' [Hrun' [Hok' [He' [Htok' [Hrest [Hne' [Hcl' [Hout' Hwr']]]]]]]]]];
        try assumption.
      * rewrite Hp1, <- app_assoc, <- Hcat. exact Hdata.
      * rewrite Hcat, length_app in Hn.
        destruct d; [contradiction | cbn in Hn; lia].
      * exists t', s'. rewrite Hrun, Hrun'.
        conjs; try assumption; congruence.
Qed.

Lemma with_scanCalled_ok (s : Scanner) :
  Scanner_ok s -> Scanner_ok (with_scanCalled true s).
Proof. intros H. exact H. Qed.

Lemma New_reading (chunks : list gostring) (c : error) (o : gostring)
    (w : option error) :
  Forall (fun x => x <> []) chunks ->
  reading (New (mkTransport chunks c o w)) (List.concat chunks).
Proof.
  intros H. unfold reading, Scanner_ok, unread, no_empty_chunk, pending, end_.
  cbn. unfold MaxScanTokenSize. repeat split; try assumption; lia.
Qed.

(** ** [Read] on a stream that has a line ahead *)

Lemma Read_next_line_steps (ad : AlarmDecoder) (l rest : gostring)
    (fuel : nat) :
  reading ad (l ++ newline :: rest) ->
  ~ In newline l ->
  len l < MaxScanTokenSize ->
  (List.length (l ++ newline :: rest) < fuel)%nat ->
  exists ad',
    Read fuel ad = Some (r <- parse_line l ;; Return (r, ad')) /\
    reading ad' rest /\ same_output ad ad'.
Proof.
  intros [Hok [Herr [Hne Hdata]]] Hnl Hlen Hfuel.
  unfold unread in Hdata.
  destruct (Scan_loop_line (List.length (List.concat (incoming (rw ad))))
              (rw ad) (with_scanCalled true (scanner ad)) l rest)
    as [t' [s' [Hrun [Hok' [He' [Htok' [Hrest [Hne' [Hcl [Hout Hwr]]]]]]]]]];
    try assumption; try apply Nat.le_refl.
  exists (mkAlarmDecoder t' s'). split; [| split].
  - unfold Read, Scan. destruct Hok as [Hdone _]. rewrite Hdone.
    rewrite (Scan_loop_fuel _ _ _ _ Hrun fuel).
    + unfold Scanner_Err, Text. rewrite He', Htok'. reflexivity.
    + rewrite <- Hdata, length_app in Hfuel. lia.
  - unfold reading, unread. cbn [scanner rw]. conjs; assumption.
  - unfold same_output. cbn [rw]. conjs; assumption.
Qed.

(** X7: whatever way the stream cuts its bytes into reads, if the bytes
    still to come start with a line of fewer than 65536 bytes and its
    newline, [Read] returns what [ParseMessage] makes of that line (a
    carriage return before the newline dropped), and leaves exactly the
    bytes after the newline to be read. *)
Theorem Read_returns_next_line (ad : AlarmDecoder) (l rest : gostring)
    (fuel : nat) :
  reading ad (l ++ newline :: rest) ->
  ~ In newline l ->
  len l < MaxScanTokenSize ->
  (List.length (l ++ newline :: rest) < fuel)%nat ->
  exists ad',
    Read fuel ad = Some (r <- parse_line l ;; Return (r, ad')) /\
    reading ad' rest /\ same_output ad ad'.
Proof. exact (Read_next_line_steps ad l rest fuel). Qed.

Lemma Read_returns_next_line_witness :
  exists ad',
    Read 40 (New (stream [lit "[0000000001"; lit "1000003A--],,,xtestx" ++ [newline];
                          lit "next"]))
      = Some (r <- parse_line (lit "[00000000011000003A--],,,xtestx") ;;
              Return (r, ad')) /\
    reading ad' (lit "next") /\
    same_output
      (New (stream [lit "[0000000001"; lit "1000003A--],,,xtestx" ++ [newline];
                    lit "next"])) ad'.
Proof.
  apply (Read_returns_next_line
           (New (stream [lit "[0000000001"; lit "1000003A--],,,xtestx" ++ [newline];
                         lit "next"]))
           (lit "[00000000011000003A--],,,xtestx") (lit "next") 40).
  - apply (New_reading
             [lit "[0000000001"; lit "1000003A--],,,xtestx" ++ [newline]; lit "next"]).
    repeat constructor; discriminate.
  - intros H. cbn in H.
    repeat (destruct H as [H | H]; [discriminate |]). contradiction.
  - reflexivity.
  - vm_compute. lia.
Defined.

(** ** Line after line *)

Lemma Reads_lines_steps (lines : list gostring) :
  forall (ad : AlarmDecoder) (tail : gostring) (fuel : nat),
  reading ad (terminated lines ++ tail) ->
  Forall (fun l => ~ In newline l /\ len l < MaxScanTokenSize) lines ->
  (List.length (terminated lines ++ tail) < fuel)%nat ->
  exists ad',
    Reads fuel (List.length lines) ad
      = Some (until_panic (map parse_line lines), ad') /\
    (Forall (fun l => exists r, parse_line l = Return r) lines ->
     reading ad' tail /\ same_output ad ad').
Proof.
  induction lines as [| l ls IH]; intros ad tail fuel Hrd Hlines Hfuel.
  - exists ad. split; [reflexivity |]. intros _.
    split; [exact Hrd | now unfold same_output].
  - inversion Hlines as [| ? ? [Hnl Hlen] Hls]; subst.
    assert (Hdata : terminated (l :: ls) ++ tail
                    = l ++ newline :: (terminated ls ++ tail)).
    { unfold terminated. cbn [map List.concat]. now rewrite <- !app_assoc. }
    rewrite Hdata in Hrd, Hfuel.
    destruct (Read_next_line_steps ad l _ fuel Hrd Hnl Hlen Hfuel)
      as [ad1 [Hread [Hrd1 Hout1]]].
    cbn [Reads List.length map until_panic]. rewrite Hread.
    destruct (parse_line l) as [[m e] | p] eqn:Hparse; cbn [bind].
    + destruct (IH ad1 tail fuel Hrd1 Hls) as [ad' [Hreads Hafter]].
      { rewrite length_app in Hfuel |- *. cbn [List.length] in Hfuel.
        rewrite length_app in Hfuel. lia. }
      exists ad'. rewrite Hreads. split; [reflexivity |].
      intros Hall. inversion Hall as [| ? ? _ Hall']; subst.
      destruct (Hafter Hall') as [Hrd' [Ho1 [Ho2 Ho3]]].
      destruct Hout1 as [Hp1 [Hp2 Hp3]].
      split; [exact Hrd' |]. unfold same_output. conjs; congruence.
    + exists ad. split; [reflexivity |].
      intros Hall. inversion Hall as [| ? ? Hex _]; subst.
      destruct Hex as [r Hr]. congruence.
Qed.



(** ** The end of the stream *)

(** A round of [Scan] on a stream that has nothing more to give: the
    closing error is recorded, what is pending stays. *)
Lemma Scan_round_closing (t : Transport) (s : Scanner) :
  Scanner_ok s ->
  err s = None ->
  ~ In newline (pending s) ->
  len (pending s) < MaxScanTokenSize ->
  incoming t = [] ->
  exists s',
    (forall f, Scan_loop (S f) t s = Scan_loop f t s') /\
    Scanner_ok s' /\ err s' = Some (closing t) /\ pending s' = pending s.
Proof.
  intros Hok Herr Hnl Hlen Hinc.
  destruct (Scan_token_more s) as [s1 [Htok [Hb1 [Hs1 [Hl1 [He1 [Hd1 Hm1]]]]]]];
    try assumption; [apply Hok |].
  assert (Hok1 : Scanner_ok s1).
  { unfold Scanner_ok, end_ in *. rewrite Hb1, Hs1, Hl1, Hd1, Hm1. exact Hok. }
  assert (Hp1 : pending s1 = pending s).
  { unfold pending. now rewrite Hb1, Hs1. }
  destruct (Scan_room_ok s1 Hok1) as [s2 [Hroom [Hok2 [Hp2 [Hsp2 He2]]]]];
    [now rewrite Hp1 |].
  exists (with_err (Some (closing t))
            (with_buf (buf s2 ++ []) (buf_len s2) (start s2) s2)).
  split.
  - intros f. cbn [Scan_loop]. rewrite Htok.
    unfold has_err. rewrite He1, Hroom.
    replace (Scan_read maxConsecutiveEmptyReads t s2)
      with (t, with_err (Some (closing t))
                 (with_buf (buf s2 ++ []) (buf_len s2) (start s2) s2));
      [reflexivity |].
    generalize maxConsecutiveEmptyReads. intros k.
    destruct k; cbn [Scan_read]; unfold Transport_Read; rewrite Hinc;
      cbv zeta; cbv iota; change (len (@nil ascii)) with 0;
      (destruct (Z.ltb_spec (buf_len s2 - end_ s2) 0); [lia |]);
      cbn [orb Z.ltb Z.compare]; unfold setErr;
      cbn [err with_buf]; rewrite He2, He1; reflexivity.
  - destruct Hok2 as [Hdone2 [Hmax2 [Hidx2 Hcap2]]].
    unfold Scanner_ok, pending, end_.
    cbn [with_err with_buf done maxTokenSize start buf buf_len err].
    rewrite app_nil_r. fold (end_ s2). fold (pending s2).
    conjs; try assumption; try lia; try reflexivity.
    fold (pending s). congruence.
Qed.

(** A round of [Scan] once an error is recorded: what is pending, if
    anything, is the last token; then the scan is over. *)
Lemma Scan_round_last (s : Scanner) (e : error) :
  Scanner_ok s ->
  err s = Some e ->
  ~ In newline (pending s) ->
  exists s',
    (forall f t,
       Scan_loop (S f) t s
       = Some (Return (match pending s with [] => false | _ => true end, t, s'))) /\
    Scanner_ok s' /\ err s' = Some e /\ pending s' = [] /\
    tok s' = match pending s with [] => None | p => Some (dropCR p) end.
Proof.
  intros [Hdone [Hmax [Hidx Hcap]]] Herr Hnl.
  pose proof (pending_len s Hidx) as Hplen.
  destruct (pending s) as [| x p] eqn:Hp.
  - (* nothing pending *)
    exists (with_buf [] (buf_len s) 0 (with_tok None (with_start (start s + 0) s))).
    split.
    + intros f t. cbn [Scan_loop]. unfold Scan_token, has_err. rewrite Herr.
      rewrite orb_true_r. fold (pending s). rewrite Hp.
      unfold ScanLines. cbn [andb len List.length Z.of_nat Z.eqb].
      unfold advance.
      destruct (Z.ltb_spec 0 0); [lia |].
      destruct (Z.ltb_spec (end_ s - start s) 0); [lia |].
      cbv iota. cbn [err with_tok with_start]. rewrite Herr. reflexivity.
    + unfold Scanner_ok, pending, end_ in *.
      cbn [with_buf with_tok with_start done maxTokenSize start buf buf_len err tok].
      change (len (@nil ascii)) with 0.
      conjs; try assumption; try reflexivity; lia.
  - (* a last line without its newline *)
    set (q := x :: p) in *.
    assert (Hq : 0 < len q).
    { unfold q. rewrite len_cons. pose proof (len_nonneg p). lia. }
    exists (with_empties 0
              (with_tok (Some (dropCR q)) (with_start (start s + len q) s))).
    split.
    + intros f t. cbn [Scan_loop]. unfold Scan_token, has_err. rewrite Herr.
      rewrite orb_true_r. fold (pending s). rewrite Hp. fold q.
      unfold ScanLines.
      destruct (Z.eqb_spec (len q) 0); [lia |]. cbn [andb].
      rewrite (IndexByte_None _ _ Hnl).
      unfold advance.
      destruct (Z.ltb_spec (len q) 0); [lia |].
      destruct (Z.ltb_spec (end_ s - start s) (len q)); [lia |].
      cbv iota.
      destruct (Z.ltb_spec 0 (len q)); [| lia].
      rewrite orb_true_r. reflexivity.
    + unfold Scanner_ok, pending, end_ in *.
      cbn [with_empties with_tok with_start done maxTokenSize start buf buf_len err tok].
      conjs; try assumption; try reflexivity; try lia.
      apply len_zero_nil. rewrite len_skipn by lia. lia.
Qed.

(** To the end of a stream that holds no further newline: the rounds that
    take in what the stream still gives, the round that meets its end, and
    the round that hands out what is left. *)
Lemma Scan_loop_drain (n : nat) :
  forall (t : Transport) (s : Scanner),
  Scanner_ok s -> err s = None -> no_empty_chunk t ->
  ~ In newline (pending s ++ List.concat (incoming t)) ->
  len (pending s ++ List.concat (incoming t)) < MaxScanTokenSize ->
  (List.length (List.concat (incoming t)) <= n)%nat ->
  exists t' s',
    Scan_loop (S (S n)) t s
      = Some (Return (match pending s ++ List.concat (incoming t) with
                      | [] => false | _ => true end, t', s')) /\
    Scanner_ok s' /\ err s' = Some (closing t) /\ pending s' = [] /\
    incoming t' = [] /\
    tok s' = match pending s ++ List.concat (incoming t) with
             | [] => None | p => Some (dropCR p) end /\
    closing t' = closing t /\ outgoing t' = outgoing t /\
    write_refused t' = write_refused t.
Proof.
  assert (Hend : forall (f : nat) (t : Transport) (s : Scanner),
    Scanner_ok s -> err s = None -> incoming t = [] ->
    ~ In newline (pending s) -> len (pending s) < MaxScanTokenSize ->
    exists s',
      Scan_loop (S (S f)) t s
        = Some (Return (match pending s with [] => false | _ => true end, t, s')) /\
      Scanner_ok s' /\ err s' = Some (closing t) /\ pending s' = [] /\
      tok s' = match pending s with [] => None | p => Some (dropCR p) end).
  { intros f t s Hok Herr Hinc Hnl Hlen.
    destruct (Scan_round_closing t s Hok Herr Hnl Hlen Hinc)
      as [s1 [Hrun1 [Hok1 [He1 Hp1]]]].
    destruct (Scan_round_last s1 (closing t) Hok1 He1) as [s' [Hrun' Hrest]];
      [now rewrite Hp1 |].
    exists s'. rewrite Hrun1, Hrun'. rewrite Hp1 in *. split; [reflexivity | exact Hrest]. }
  induction n as [| n IH]; intros t s Hok Herr Hne Hnl Hlen Hn.
  - assert (Hinc : incoming t = []).
    { apply concat_nonempty; [exact Hne |].
      destruct (List.concat (incoming t)); [reflexivity | cbn in Hn; lia]. }
    rewrite Hinc in *. cbn [List.concat] in *. rewrite app_nil_r in *.
    destruct (Hend 0%nat t s Hok Herr Hinc Hnl Hlen) as [s' [Hrun Hrest]].
    exists t, s'. rewrite Hrun.
    destruct Hrest as [Ha [Hb [Hc Hd]]]. conjs; try assumption; reflexivity.
  - destruct (incoming t) as [| c more] eqn:Hinc.
    + cbn [List.concat] in *. rewrite app_nil_r in *.
      destruct (Hend (S n) t s Hok Herr Hinc Hnl Hlen) as [s' [Hrun Hrest]].
      exists t, s'. rewrite Hrun.
      destruct Hrest as [Ha [Hb [Hc Hd]]]. conjs; try assumption; reflexivity.
    + assert (Hnp : ~ In newline (pending s)).
      { intros Hin. apply Hnl, in_or_app. now left. }
      assert (Hplen : len (pending s) < MaxScanTokenSize).
      { rewrite len_app in Hlen.
        pose proof (len_nonneg (List.concat (c :: more))). lia. }
      destruct (Scan_round_fill t s c more Hok Herr Hnp Hplen Hinc)
        as [d [t1 [s1 [Hrun [Hok1 [He1 [Hd [Hp1 [Hcat [Hne1 [Hcl [Hout Hwr]]]]]]]]]]]];
        [exact Hne |].
      rewrite Hinc in Hcat.
      assert (Hsame : pending s1 ++ List.concat (incoming t1)
                      = pending s ++ List.concat (c :: more)).
      { rewrite Hp1, <- app_assoc, <- Hcat. reflexivity. }
      destruct (IH t1 s1) as [t' [s' [Hrun' [Hok' [He' [Hp' [Hi' [Htok' [Hcl' [Hout' Hwr']]]]]]]]]];
        try assumption.
      * now rewrite Hsame.
      * now rewrite Hsame.
      * rewrite Hcat, length_app in Hn.
        destruct d; [contradiction | cbn in Hn; lia].
      * exists t', s'. rewrite Hrun, Hrun', Hsame. rewrite Hsame in Htok'.
        conjs; try assumption; congruence.
Qed.

Lemma Read_at_end_steps (ad : AlarmDecoder) (last : gostring) (fuel : nat) :
  reading ad last ->
  ~ In newline last ->
  len last < MaxScanTokenSize ->
  (S (List.length last) < fuel)%nat ->
  exists ad',
    Read fuel ad
      = Some (match last, closing (rw ad) with
              | _ :: _, EOF => r <- parse_line last ;; Return (r, ad')
              | _, c => Return (Message_zero, Some c, ad')
              end) /\
    finished ad' /\ same_output ad ad'.
Proof.
  intros [Hok [Herr [Hne Hdata]]] Hnl Hlen Hfuel.
  unfold unread in Hdata.
  destruct (Scan_loop_drain (List.length (List.concat (incoming (rw ad))))
              (rw ad) (with_scanCalled true (scanner ad)))
    as [t' [s' [Hrun [Hok' [He' [Hp' [Hi' [Htok' [Hcl [Hout Hwr]]]]]]]]]];
    try assumption; try apply Nat.le_refl.
  { change (pending (with_scanCalled true (scanner ad))) with (pending (scanner ad)).
    now rewrite Hdata. }
  { change (pending (with_scanCalled true (scanner ad))) with (pending (scanner ad)).
    now rewrite Hdata. }
  change (pending (with_scanCalled true (scanner ad))) with (pending (scanner ad)) in *.
  rewrite Hdata in Hrun, Htok'.
  exists (mkAlarmDecoder t' s'). split; [| split].
  - unfold Read, Scan. destruct Hok as [Hdone _]. rewrite Hdone.
    rewrite (Scan_loop_fuel _ _ _ _ Hrun fuel).
    + unfold Scanner_Err, Text, parse_line. rewrite He', Htok'.
      destruct last; destruct (closing (rw ad)); reflexivity.
    + rewrite <- Hdata, length_app in Hfuel. lia.
  - unfold finished. cbn [scanner rw]. conjs; try assumption. congruence.
  - unfold same_output. cbn [rw]. conjs; assumption.
Qed.



Lemma Read_after_end_steps (ad : AlarmDecoder) (fuel : nat) :
  finished ad ->
  (1 <= fuel)%nat ->
  exists ad',
    Read fuel ad = Some (Return (Message_zero, Some (closing (rw ad)), ad')) /\
    finished ad' /\ same_output ad ad'.
Proof.
  intros [Hok [Herr [Hinc Hp]]] Hfuel.
  destruct (Scan_round_last (with_scanCalled true (scanner ad)) (closing (rw ad)))
    as [s' [Hrun [Hok' [He' [Hp' Htok']]]]]; try assumption.
  { change (pending (with_scanCalled true (scanner ad))) with (pending (scanner ad)).
    rewrite Hp. intros []. }
  change (pending (with_scanCalled true (scanner ad))) with (pending (scanner ad)) in *.
  rewrite Hp in Hrun.
  exists (mkAlarmDecoder (rw ad) s'). split; [| split].
  - unfold Read, Scan. destruct Hok as [Hdone _]. rewrite Hdone.
    destruct fuel as [| f]; [lia |]. rewrite Hrun.
    unfold Scanner_Err. rewrite He'.
    destruct (closing (rw ad)); reflexivity.
  - unfold finished. cbn [scanner rw]. conjs; assumption.
  - unfold same_output. cbn [rw]. conjs; reflexivity.
Qed.

(** X10: once finished a decoder stays finished: every further [Read]
    returns the zero message with the same closing error, be it [io.EOF]
    or a transport error. *)
Theorem Read_after_end (ad : AlarmDecoder) (fuel : nat) :
  finished ad ->
  (1 <= fuel)%nat ->
  exists ad',
    Read fuel ad = Some (Return (Message_zero, Some (closing (rw ad)), ad')) /\
    finished ad' /\ same_output ad ad'.
Proof. exact (Read_after_end_steps ad fuel). Qed.

Lemma Read_after_end_witness :
  exists ad',
    Read 1 (mkAlarmDecoder (mkTransport [] (TransportError "unplugged") [] None)
              (with_err (Some (TransportError "unplugged")) NewScanner))
      = Some (Return (Message_zero, Some (TransportError "unplugged"), ad')) /\
    finished ad' /\
    same_output
      (mkAlarmDecoder (mkTransport [] (TransportError "unplugged") [] None)
         (with_err (Some (TransportError "unplugged")) NewScanner)) ad'.
Proof.
  apply (Read_after_end
           (mkAlarmDecoder (mkTransport [] (TransportError "unplugged") [] None)
              (with_err (Some (TransportError "unplugged")) NewScanner)) 1).
  - unfold finished, Scanner_ok, pending, end_. cbn.
    unfold MaxScanTokenSize. conjs; try reflexivity; lia.
  - lia.
Defined.

(** ** A whole stream *)

Lemma Reads_finished (n : nat) :
  forall (ad : AlarmDecoder) (fuel : nat),
  finished ad -> (1 <= fuel)%nat ->
  exists ad',
    Reads fuel n ad
      = Some (repeat (Return (Message_zero, Some (closing (rw ad)))) n, ad') /\
    finished ad' /\ same_output ad ad'.
Proof.
  induction n as [| n IH]; intros ad fuel Hfin Hfuel.
  - exists ad. split; [reflexivity |]. split; [exact Hfin | now unfold same_output].
  - destruct (Read_after_end_steps ad fuel Hfin Hfuel) as [ad1 [Hread [Hfin1 Hout1]]].
    destruct (IH ad1 fuel Hfin1 Hfuel) as [ad' [Hreads [Hfin' Hout']]].
    exists ad'. cbn [Reads repeat]. rewrite Hread, Hreads.
    destruct Hout1 as [Ha [Hb Hc]]. destruct Hout' as [Ha' [Hb' Hc']].
    rewrite Hc. split; [reflexivity |]. split; [exact Hfin' |].
    unfold same_output. conjs; congruence.
Qed.

Lemma Reads_app (fuel a : nat) :
  forall (ad ad1 ad2 : AlarmDecoder) (b : nat)
         (outs outs2 : list (result (Message * option error))),
  Reads fuel a ad = Some (outs, ad1) ->
  Forall (fun o => exists r, o = Return r) outs ->
  Reads fuel b ad1 = Some (outs2, ad2) ->
  Reads fuel (a + b) ad = Some (outs ++ outs2, ad2).
Proof.
  induction a as [| a IH]; intros ad ad1 ad2 b outs outs2 Ha Hret Hb.
  - cbn in Ha. injection Ha as <- <-. exact Hb.
  - cbn [Reads Nat.add] in Ha |- *.
    destruct (Read fuel ad) as [[[[m e] ad0] | p] |]; [| | discriminate].
    + destruct (Reads fuel a ad0) as [[outs0 ad0'] |] eqn:Ha0; [| discriminate].
      injection Ha as <- <-.
      inversion Hret as [| ? ? _ Hret0]; subst.
      rewrite (IH ad0 ad0' ad2 b outs0 outs2 Ha0 Hret0 Hb). reflexivity.
    + injection Ha as <- <-.
      inversion Hret as [| ? ? [r Hr] _]; subst. discriminate.
Qed.

Lemma until_panic_all_return {A B : Type} (f : A -> result B) (l : list A) :
  Forall (fun x => exists r, f x = Return r) l ->
  until_panic (map f l) = map f l /\
  Forall (fun o => exists r, o = Return r) (map f l).
Proof.
  induction 1 as [| x l [r Hr] _ [IH1 IH2]]; [split; [reflexivity | constructor] |].
  cbn [map until_panic]. rewrite Hr, IH1. split; [reflexivity |].
  constructor; [now exists r | exact IH2].
Qed.

(** X11: a stream that delivers complete lines, cut into reads in any way,
    and then closes: as many calls of [Read] as there are lines return the
    parse of each line in order, and every call after that returns the
    zero message with the closing error.  Nothing written is touched. *)
Theorem stream_is_read_line_by_line (chunks lines : list gostring)
    (c : error) (o : gostring) (w : option error) (extra fuel : nat) :
  Forall (fun x => x <> []) chunks ->
  List.concat chunks = terminated lines ->
  Forall (fun l => ~ In newline l /\ len l < MaxScanTokenSize) lines ->
  Forall (fun l => exists r, parse_line l = Return r) lines ->
  (S (List.length (terminated lines)) < fuel)%nat ->
  exists ad',
    Reads fuel (List.length lines + extra) (New (mkTransport chunks c o w))
      = Some (map parse_line lines
              ++ repeat (Return (Message_zero, Some c)) extra, ad') /\
    outgoing (rw ad') = o.
Proof.
  intros Hne Hcat Hlines Hret Hfuel.
  pose proof (New_reading chunks c o w Hne) as Hrd.
  rewrite Hcat in Hrd. rewrite <- (app_nil_r (terminated lines)) in Hrd.
  destruct (Reads_lines_steps lines _ [] fuel Hrd Hlines)
    as [ad1 [Hreads Hafter]].
  { rewrite app_nil_r. lia. }
  destruct (Hafter Hret) as [Hrd1 [Ho1 [Hw1 Hc1]]].
  destruct (until_panic_all_return parse_line lines Hret) as [Hup Hall].
  rewrite Hup in Hreads.
  destruct extra as [| extra].
  - exists ad1. rewrite Nat.add_0_r, app_nil_r. split; [exact Hreads | exact Ho1].
  - destruct (Read_at_end_steps ad1 [] fuel Hrd1) as [ad2 [Hread2 [Hfin2 [Ho2 [Hw2 Hc2]]]]];
      [intros [] | reflexivity | cbn; lia |].
    destruct (Reads_finished extra ad2 fuel Hfin2) as [ad3 [Hreads3 [Hfin3 [Ho3 _]]]];
      [lia |].
    exists ad3. split; [| cbn [rw outgoing New] in *; congruence].
    apply (Reads_app fuel (List.length lines) _ ad1 ad3 (S extra) _ _ Hreads Hall).
    cbn [Reads repeat]. rewrite Hread2, Hreads3.
    cbn [rw closing New] in *. rewrite Hc2, Hc1. reflexivity.
Qed.

Lemma stream_is_read_line_by_line_witness :
  exists ad',
    Reads 80 (2 + 2)
      (New (mkTransport
              [lit "[00000000011000003A--],,,xte";
               lit "stx" ++ [newline] ++ lit "a,b,c" ++ [carriage_return; newline]]
              EOF (lit "#3") None))
      = Some (map parse_line
                [lit "[00000000011000003A--],,,xtestx";
                 lit "a,b,c" ++ [carriage_return]]
              ++ repeat (Return (Message_zero, Some EOF)) 2, ad') /\
    outgoing (rw ad') = lit "#3".
Proof.
  apply (stream_is_read_line_by_line
           [lit "[00000000011000003A--],,,xte";
            lit "stx" ++ [newline] ++ lit "a,b,c" ++ [carriage_return; newline]]
           [lit "[00000000011000003A--],,,xtestx"; lit "a,b,c" ++ [carriage_return]]
           EOF (lit "#3") None 2 80).
  - repeat constructor; discriminate.
  - reflexivity.
  - repeat constructor;
      try reflexivity;
      intros H; cbn in H;
      repeat (destruct H as [H | H]; [discriminate |]); contradiction.
  - repeat constructor; eexists; vm_compute; reflexivity.
  - vm_compute. lia.
Defined.

(** ** A line that does not fit the buffer *)

Lemma app_eq_prefix {A : Type} (p r l rest : list A) :
  p ++ r = l ++ rest -> (List.length p <= List.length l)%nat ->
  exists l2, l = p ++ l2 /\ r = l2 ++ rest.
Proof.
  revert l. induction p as [| x p IH]; intros l H Hlen.
  - exists l. now split.
  - destruct l as [| y l]; [cbn in Hlen; lia |].
    cbn in H. injection H as -> H. cbn in Hlen.
    destruct (IH l H) as [l2 [-> ->]]; [lia |].
    now exists l2.
Qed.

(** With a full token pending there is no room to make: the buffer has its
    largest size and starts with the token. *)
Lemma Scan_room_full (s : Scanner) :
  Scanner_ok s ->
  err s = None ->
  len (pending s) = MaxScanTokenSize ->
  Scan_room s = inr (with_err (Some ErrTooLong) s).
Proof.
  intros [Hdone [Hmax [Hidx Hcap]]] Herr Hpend.
  rewrite pending_len in Hpend by assumption.
  assert (H0 : start s = 0) by lia.
  assert (He : end_ s = buf_len s) by lia.
  assert (Hb : buf_len s = MaxScanTokenSize) by lia.
  unfold Scan_room. rewrite H0. cbn [Z.ltb Z.compare andb].
  rewrite He, Z.eqb_refl, Hmax, Hb, Z.leb_refl. cbn [orb].
  unfold setErr. rewrite Herr. reflexivity.
Qed.

(** The round of [Scan] that finds a full token pending without a newline:
    [ErrTooLong] is recorded and the scan is over. *)
Lemma Scan_round_too_long (s : Scanner) :
  Scanner_ok s ->
  err s = None ->
  ~ In newline (pending s) ->
  len (pending s) = MaxScanTokenSize ->
  exists s',
    (forall f t, Scan_loop (S f) t s = Some (Return (false, t, s'))) /\
    Scanner_ok s' /\ err s' = Some ErrTooLong /\ pending s' = pending s.
Proof.
  intros Hok Herr Hnl Hlen.
  destruct (Scan_token_more s) as [s1 [Htok [Hb1 [Hs1 [Hl1 [He1 [Hd1 Hm1]]]]]]];
    try assumption; [apply Hok |].
  assert (Hok1 : Scanner_ok s1).
  { unfold Scanner_ok, end_ in *. rewrite Hb1, Hs1, Hl1, Hd1, Hm1. exact Hok. }
  assert (Hp1 : pending s1 = pending s).
  { unfold pending. now rewrite Hb1, Hs1. }
  exists (with_err (Some ErrTooLong) s1). split; [| split; [| split]].
  - intros f t. cbn [Scan_loop]. rewrite Htok. unfold has_err. rewrite He1.
    rewrite (Scan_room_full s1 Hok1 He1); [reflexivity | now rewrite Hp1].
  - exact Hok1.
  - reflexivity.
  - exact Hp1.
Qed.

(** With a full token's worth of bytes ahead and no newline among them,
    [Scan] fills its buffer to the largest size and gives up. *)
Lemma Scan_loop_too_long (n : nat) :
  forall (t : Transport) (s : Scanner) (big rest : gostring),
  Scanner_ok s -> err s = None -> no_empty_chunk t ->
  pending s ++ List.concat (incoming t) = big ++ rest ->
  ~ In newline big -> len big = MaxScanTokenSize ->
  (List.length (List.concat (incoming t)) <= n)%nat ->
  exists t' s',
    Scan_loop (S n) t s = Some (Return (false, t', s')) /\
    Scanner_ok s' /\ err s' = Some ErrTooLong /\ pending s' = big /\
    closing t' = closing t /\ outgoing t' = outgoing t /\
    write_refused t' = write_refused t.
Proof.
  induction n as [| n IH]; intros t s big rest Hok Herr Hne Hdata Hnl Hbig Hn.
  all: assert (Hple : len (pending s) <= MaxScanTokenSize)
         by (destruct Hok as [_ [_ [Hidx Hcap]]];
             rewrite pending_len by assumption; lia).
  all: destruct (app_eq_prefix _ _ _ _ Hdata) as [big2 [Hb2 Hr2]];
         [unfold len in *; lia |].
  all: assert (Hnp : ~ In newline (pending s))
         by (intros Hin; apply Hnl; rewrite Hb2; apply in_or_app; now left).
  all: destruct (Z.eq_dec (len (pending s)) MaxScanTokenSize) as [Hfull | Hless].
  1, 3: destruct (Scan_round_too_long s Hok Herr Hnp Hfull)
          as [s' [Hrun [Hok' [He' Hp']]]];
        exists t, s'; rewrite Hrun;
        assert (Hnil : big2 = [])
          by (apply len_zero_nil; rewrite Hb2, len_app in Hbig; lia);
        rewrite Hnil, app_nil_r in Hb2;
        conjs; try assumption; try reflexivity; congruence.
  - exfalso. rewrite Hb2, len_app in Hbig.
    assert (Hc : List.concat (incoming t) = [])
      by (destruct (List.concat (incoming t)); [reflexivity | cbn in Hn; lia]).
    rewrite Hc in Hr2. symmetry in Hr2. apply app_eq_nil in Hr2 as [-> _].
    rewrite len_nil in Hbig. lia.
  - destruct (incoming t) as [| c more] eqn:Hinc.
    { exfalso. cbn in Hr2. symmetry in Hr2. apply app_eq_nil in Hr2 as [-> _].
      rewrite Hb2, app_nil_r in Hbig. lia. }
    assert (Hplen : len (pending s) < MaxScanTokenSize) by lia.
    destruct (Scan_round_fill t s c more Hok Herr Hnp Hplen Hinc Hne)
      as [d [t1 [s1 [Hrun [Hok1 [He1 [Hd [Hp1 [Hcat [Hne1 [Hcl [Hout Hwr]]]]]]]]]]]].
    rewrite Hinc in Hcat.
    destruct (IH t1 s1 big rest)
      as [t' [s' [Hrun' [Hok' [He' [Hp' [Hcl' [Hout' Hwr']]]]]]]];
      try assumption.
    + rewrite Hp1, <- app_assoc, <- Hcat. exact Hdata.
    + rewrite Hcat, length_app in Hn.
      destruct d; [contradiction | cbn in Hn; lia].
    + exists t', s'. rewrite Hrun, Hrun'.
      conjs; try assumption; congruence.
Qed.

(** [Read] on a decoder whose scanner holds an error: what is pending is
    handed out as a last token and thrown away, the error is returned, and
    the decoder stays as it is. *)
Lemma Read_wedged_steps (e : error) (ad : AlarmDecoder) (fuel : nat) :
  wedged e ad ->
  e <> EOF ->
  (1 <= fuel)%nat ->
  exists ad',
    Read fuel ad = Some (Return (Message_zero, Some e, ad')) /\
    wedged e ad' /\ incoming (rw ad') = incoming (rw ad) /\ same_output ad ad'.
Proof.
  intros [Hok [Herr Hnl]] He Hfuel.
  destruct (Scan_round_last (with_scanCalled true (scanner ad)) e)
    as [s' [Hrun [Hok' [He' [Hp' Htok']]]]]; try assumption.
  exists (mkAlarmDecoder (rw ad) s'). split; [| split; [| split]].
  - unfold Read, Scan. destruct Hok as [Hdone _]. rewrite Hdone.
    destruct fuel as [| f]; [lia |]. rewrite Hrun.
    unfold Scanner_Err. rewrite He'.
    destruct e; try reflexivity. contradiction.
  - unfold wedged. cbn [scanner rw]. conjs; try assumption.
    rewrite Hp'. intros [].
  - reflexivity.
  - unfold same_output. cbn [rw]. conjs; reflexivity.
Qed.

Lemma Reads_wedged (e : error) (n : nat) :
  forall (ad : AlarmDecoder) (fuel : nat),
  wedged e ad -> e <> EOF -> (1 <= fuel)%nat ->
  exists ad',
    Reads fuel n ad = Some (repeat (Return (Message_zero, Some e)) n, ad') /\
    incoming (rw ad') = incoming (rw ad) /\ same_output ad ad'.
Proof.
  induction n as [| n IH]; intros ad fuel Hw He Hfuel.
  - exists ad. split; [reflexivity |]. split; [reflexivity | now unfold same_output].
  - destruct (Read_wedged_steps e ad fuel Hw He Hfuel)
      as [ad1 [Hread [Hw1 [Hi1 Hout1]]]].
    destruct (IH ad1 fuel Hw1 He Hfuel) as [ad' [Hreads [Hi' Hout']]].
    exists ad'. cbn [Reads repeat]. rewrite Hread, Hreads.
    destruct Hout1 as [Ha [Hb Hc]]. destruct Hout' as [Ha' [Hb' Hc']].
    split; [reflexivity |]. split; [congruence |].
    unfold same_output. conjs; congruence.
Qed.

Lemma Read_too_long_steps (ad : AlarmDecoder) (big rest : gostring)
    (fuel : nat) :
  reading ad (big ++ rest) ->
  ~ In newline big ->
  len big = MaxScanTokenSize ->
  (List.length (big ++ rest) < fuel)%nat ->
  exists ad',
    Read fuel ad = Some (Return (Message_zero, Some ErrTooLong, ad')) /\
    wedged ErrTooLong ad' /\ same_output ad ad'.
Proof.
  intros [Hok [Herr [Hne Hdata]]] Hnl Hlen Hfuel.
  unfold unread in Hdata.
  destruct (Scan_loop_too_long (List.length (List.concat (incoming (rw ad))))
              (rw ad) (with_scanCalled true (scanner ad)) big rest)
    as [t' [s' [Hrun [Hok' [He' [Hp' [Hcl [Hout Hwr]]]]]]]];
    try assumption; try apply Nat.le_refl.
  exists (mkAlarmDecoder t' s'). split; [| split].
  - unfold Read, Scan. destruct Hok as [Hdone _]. rewrite Hdone.
    rewrite (Scan_loop_fuel _ _ _ _ Hrun fuel).
    + unfold Scanner_Err. rewrite He'. reflexivity.
    + rewrite <- Hdata, length_app in Hfuel. lia.
  - unfold wedged. cbn [scanner]. conjs; try assumption. now rewrite Hp'.
  - unfold same_output. cbn [rw]. conjs; assumption.
Qed.

(** X12: a line that does not fit the scanner's buffer wedges the reader
    for good.  When the bytes still to come start with 65536 bytes that
    hold no newline, every [Read] from then on returns the zero message
    with [bufio.ErrTooLong], however many are made, so the lines that come
    after in the stream are never delivered. *)
Theorem too_long_line_wedges_reader (ad : AlarmDecoder) (big rest : gostring)
    (fuel n : nat) :
  reading ad (big ++ rest) ->
  ~ In newline big ->
  len big = MaxScanTokenSize ->
  (List.length (big ++ rest) < fuel)%nat ->
  exists ad',
    Reads fuel n ad
      = Some (repeat (Return (Message_zero, Some ErrTooLong)) n, ad') /\
    same_output ad ad'.
Proof.
  intros Hrd Hnl Hlen Hfuel.
  destruct n as [| n].
  { exists ad. split; [reflexivity | now unfold same_output]. }
  destruct (Read_too_long_steps ad big rest fuel Hrd Hnl Hlen Hfuel)
    as [ad1 [Hread [Hw1 [Ha [Hb Hc]]]]].
  destruct (Reads_wedged ErrTooLong n ad1 fuel Hw1) as [ad' [Hreads [_ [Ha' [Hb' Hc']]]]];
    [discriminate | lia |].
  exists ad'. cbn [Reads repeat]. rewrite Hread, Hreads.
  split; [reflexivity |]. unfold same_output. conjs; congruence.
Qed.

Lemma too_long_line_witness :
  exists ad',
    Reads (Z.to_nat 70000) 3
      (New (stream [repeat "a"%char (Z.to_nat MaxScanTokenSize);
                    newline :: test_line ++ [newline]]))
      = Some (repeat (Return (Message_zero, Some ErrTooLong)) 3, ad') /\
    same_output
      (New (stream [repeat "a"%char (Z.to_nat MaxScanTokenSize);
                    newline :: test_line ++ [newline]])) ad'.
Proof.
  pose proof (repeat_length "a"%char (Z.to_nat MaxScanTokenSize)) as Hlen.
  set (big := repeat "a"%char (Z.to_nat MaxScanTokenSize)) in *.
  apply (too_long_line_wedges_reader
           (New (stream [big; newline :: test_line ++ [newline]]))
           big ((newline :: test_line ++ [newline]) ++ [])
           (Z.to_nat 70000) 3).
  - apply (New_reading [big; newline :: test_line ++ [newline]] EOF [] None).
    constructor; [| constructor; [discriminate | constructor]].
    intros E. rewrite E in Hlen. cbn [List.length] in Hlen.
    unfold MaxScanTokenSize in Hlen. lia.
  - intros H. apply repeat_spec in H. discriminate.
  - unfold len. rewrite Hlen. apply Z2Nat.id. unfold MaxScanTokenSize. lia.
  - rewrite length_app, Hlen.
    assert (Hrest : (List.length ((newline :: test_line ++ [newline]) ++ []) < 100)%nat)
      by (vm_compute; lia).
    unfold MaxScanTokenSize. lia.
Defined.

(** * The loop of [run] *)

Lemma streq_eq (a b : gostring) : streq a b = true <-> a = b.
Proof.
  revert b. induction a as [| x a IH]; intros [| y b]; cbn; split;
    try discriminate; try reflexivity.
  - intros H. apply andb_prop in H as [Hx Hab].
    apply Ascii.eqb_eq in Hx. apply IH in Hab. now subst.
  - intros H. injection H as -> ->. rewrite Ascii.eqb_refl. now apply IH.
Qed.

Lemma streq_refl (a : gostring) : streq a a = true.
Proof. now apply streq_eq. Qed.

Lemma streq_spec (a b : gostring) : reflect (a = b) (streq a b).
Proof.
  destruct (streq a b) eqn:E; constructor.
  - now apply streq_eq.
  - intros H. apply streq_eq in H. congruence.
Qed.

Lemma map_find_set_same {V : Type} (m : gomap V) (k : gostring) (v : V) :
  map_find (map_set m k v) k = Some v.
Proof.
  induction m as [| [k' v'] m IH]; cbn.
  - now rewrite streq_refl.
  - destruct (streq k' k) eqn:E; cbn.
    + now rewrite streq_refl.
    + now rewrite E.
Qed.

Lemma map_find_set_other {V : Type} (m : gomap V) (k k' : gostring) (v : V) :
  k' <> k -> map_find (map_set m k v) k' = map_find m k'.
Proof.
  intros Hne. induction m as [| [k0 v0] m IH]; cbn.
  - destruct (streq_spec k k'); [congruence | reflexivity].
  - destruct (streq_spec k0 k) as [-> | Hk0]; cbn.
    + destruct (streq_spec k k'); [congruence | reflexivity].
    + destruct (streq_spec k0 k'); [reflexivity | exact IH].
Qed.

Lemma map_get_set_same {V : Type} (zero : V) (m : gomap V) (k : gostring) (v : V) :
  map_get zero (map_set m k v) k = v.
Proof. unfold map_get. now rewrite map_find_set_same. Qed.

Lemma map_get_set_other {V : Type} (zero : V) (m : gomap V) (k k' : gostring)
    (v : V) :
  k' <> k -> map_get zero (map_set m k v) k' = map_get zero m k'.
Proof. intros H. unfold map_get. now rewrite map_find_set_other. Qed.

(** ** Passes that read no message *)

(** X13: once the stream has ended the loop of [run] neither returns nor
    publishes: every pass logs the closing error of the stream and leaves
    [alarmState] and [zoneState] as they are, however many passes are
    made. *)
Theorem loop_spins_at_end_of_stream (zones : gomap zone) (fuel : nat)
    (visits : list (gomap bool -> list gostring)) (r : Run) :
  finished (decoder r) ->
  (1 <= fuel)%nat ->
  exists ad',
    iterations zones fuel visits r
      = Some (Return (Goes
          (mkRun ad'
             (mkOutside
                (events (world r)
                 ++ repeat (Logged "[alarm] Unknown message from alarm: %v"
                                   [ArgError (closing (rw (decoder r)))])
                           (List.length visits))
                (replies (world r)))
             (alarmState r) (zoneState r)))) /\
    finished ad'.
Proof.
  revert r. induction visits as [| visit more IH]; intros r Hfin Hfuel.
  - exists (decoder r). split; [| exact Hfin].
    cbn. rewrite app_nil_r. now destruct r as [ad [evs reps] a z].
  - destruct (Read_after_end_steps (decoder r) fuel Hfin Hfuel)
      as [ad1 [Hread [Hfin1 [_ [_ Hcl]]]]].
    cbn [iterations]. unfold iteration. rewrite Hread.
    destruct (IH (logf "[alarm] Unknown message from alarm: %v"
                    [ArgError (closing (rw (decoder r)))] (with_decoder ad1 r)))
      as [ad' [Hrun Hfin']]; [exact Hfin1 | exact Hfuel |].
    exists ad'. split; [| exact Hfin'].
    rewrite Hrun. cbn [logf with_world with_decoder Printf decoder world
                        alarmState zoneState events replies List.length repeat].
    rewrite Hcl, <- app_assoc. reflexivity.
Qed.

Lemma loop_spins_witness :
  exists ad',
    iterations [] 1 [keys; keys; keys]
      (enter (mkAlarmDecoder (mkTransport [] EOF [] None)
                (with_err (Some EOF) NewScanner))
             (mkOutside [] []))
      = Some (Return (Goes
          (mkRun ad'
             (mkOutside
                ([] ++ repeat (Logged "[alarm] Unknown message from alarm: %v"
                                      [ArgError EOF]) 3)
                [])
             [] []))) /\
    finished ad'.
Proof.
  apply (loop_spins_at_end_of_stream [] 1 [keys; keys; keys]
           (enter (mkAlarmDecoder (mkTransport [] EOF [] None)
                     (with_err (Some EOF) NewScanner))
                  (mkOutside [] []))).
  - unfold finished, Scanner_ok, pending, end_. cbn.
    unfold MaxScanTokenSize. conjs; try reflexivity; lia.
  - lia.
Defined.

(** ** Passes on a line of the stream *)





(** ** The alarm state is published when it changes, and only then *)

Lemma state_payloads_app (a b : list event) :
  state_payloads (a ++ b) = state_payloads a ++ state_payloads b.
Proof.
  induction a as [| [t p | f args] a IH]; cbn [state_payloads app];
    [reflexivity | | exact IH].
  destruct (streq t state_topic); cbn [app]; now rewrite IH.
Qed.

Lemma zone_topic_not_state (n : gostring) :
  streq (zone_topic n) state_topic = false.
Proof.
  destruct (streq_spec (zone_topic n) state_topic) as [E | _]; [| reflexivity].
  unfold zone_topic, state_topic in E. cbn in E. discriminate.
Qed.

Lemma last_cons {A : Type} (x d : A) (l : list A) :
  last (x :: l) d = last l x.
Proof.
  revert x d. induction l as [| y l IH]; intros x d; [reflexivity |].
  change (last (x :: y :: l) d) with (last (y :: l) d).
  now rewrite (IH y d), (IH y x).
Qed.

Lemma last_app_default {A : Type} (l1 l2 : list A) (d : A) :
  last (l1 ++ l2) d = last l2 (last l1 d).
Proof.
  revert d. induction l1 as [| x l1 IH]; intros d; [reflexivity |].
  cbn [app]. rewrite !last_cons. apply IH.
Qed.

Lemma no_repeat_app (l1 l2 : list gostring) :
  forall a,
  no_repeat (a :: l1) -> no_repeat (last l1 a :: l2) ->
  no_repeat (a :: l1 ++ l2).
Proof.
  induction l1 as [| x l1 IH]; intros a H1 H2; [exact H2 |].
  destruct H1 as [Hax H1]. rewrite last_cons in H2.
  split; [exact Hax |]. now apply IH.
Qed.

Lemma advances_refl (r : Run) : advances r r.
Proof. exists []. rewrite app_nil_r. cbn. auto. Qed.

Lemma advances_trans (r1 r2 r3 : Run) :
  advances r1 r2 -> advances r2 r3 -> advances r1 r3.
Proof.
  intros [n1 [He1 [Hn1 Hl1]]] [n2 [He2 [Hn2 Hl2]]].
  exists (n1 ++ n2). rewrite He2, He1, app_assoc, state_payloads_app.
  split; [reflexivity |]. split.
  - apply no_repeat_app; [exact Hn1 | now rewrite Hl1].
  - rewrite last_app_default, Hl1. exact Hl2.
Qed.

Lemma quiet_advances (r r' : Run) : quiet r r' -> advances r r'.
Proof.
  intros [new [He [Hs Ha]]]. exists new. rewrite Hs. cbn. auto.
Qed.

Lemma quiet_refl (r : Run) : quiet r r.
Proof. exists []. rewrite app_nil_r. auto. Qed.

Lemma quiet_trans (r1 r2 r3 : Run) : quiet r1 r2 -> quiet r2 r3 -> quiet r1 r3.
Proof.
  intros [n1 [He1 [Hn1 Hl1]]] [n2 [He2 [Hn2 Hl2]]].
  exists (n1 ++ n2). rewrite He2, He1, app_assoc, state_payloads_app, Hn1, Hn2.
  split; [reflexivity |]. split; [reflexivity | congruence].
Qed.

Lemma quiet_logf (format : string) (args : list log_arg) (r : Run) :
  quiet r (logf format args r).
Proof. exists [Logged format args]. cbn [logf with_world Printf world events alarmState state_payloads]. auto. Qed.

Lemma quiet_zoneState (z : gomap bool) (r : Run) : quiet r (with_zoneState z r).
Proof.
  exists []. cbn [with_zoneState with_decoder world events alarmState state_payloads].
  rewrite app_nil_r. auto.
Qed.

Lemma quiet_decoder (ad : AlarmDecoder) (r : Run) : quiet r (with_decoder ad r).
Proof.
  exists []. cbn [with_zoneState with_decoder world events alarmState state_payloads].
  rewrite app_nil_r. auto.
Qed.

Lemma quiet_publish_zone (n payload : gostring) (r : Run) :
  quiet r (run_of (publish (zone_topic n) payload r)).
Proof.
  exists [Published (zone_topic n) payload].
  unfold publish, Publish.
  destruct (replies (world r)) as [| [e |] rs];
    cbn [run_of with_world world events alarmState state_payloads];
    rewrite zone_topic_not_state; auto.
Qed.

Lemma update_alarm_state_advances (msg : Message) (r : Run) :
  advances r (run_of (update_alarm_state msg r)).
Proof.
  unfold update_alarm_state.
  destruct (streq_spec (newAlarmState msg) (alarmState r)) as [E | Hne]; cbn [negb].
  - apply advances_refl.
  - unfold publish, Publish. cbn [with_alarmState world alarmState].
    assert (Hone : forall tail,
              state_payloads (Published state_topic (newAlarmState msg) :: tail)
              = newAlarmState msg :: state_payloads tail).
    { intros tail. cbn [state_payloads]. now rewrite streq_refl. }
    destruct (replies (world r)) as [| [e |] rs]; cbn [and_then run_of].
    + exists [Published state_topic (newAlarmState msg);
              Logged "[alarm] Set state to %s" [ArgString (newAlarmState msg)]].
      rewrite Hone.
      cbn [logf with_world Printf world events alarmState state_payloads
             last no_repeat].
      rewrite <- app_assoc. split; [reflexivity |].
      split; [| reflexivity]. split; [congruence | exact I].
    + exists [Published state_topic (newAlarmState msg)].
      rewrite Hone.
      cbn [with_world world events alarmState state_payloads last no_repeat].
      split; [reflexivity |].
      split; [| reflexivity]. split; [congruence | exact I].
    + exists [Published state_topic (newAlarmState msg);
              Logged "[alarm] Set state to %s" [ArgString (newAlarmState msg)]].
      rewrite Hone.
      cbn [logf with_world Printf world events alarmState state_payloads
             last no_repeat].
      rewrite <- app_assoc. split; [reflexivity |].
      split; [| reflexivity]. split; [congruence | exact I].
Qed.

Lemma handle_zone_trigger_quiet (zones : gomap zone) (msg : Message) (r : Run) :
  quiet r (run_of (handle_zone_trigger zones msg r)).
Proof.
  unfold handle_zone_trigger.
  destruct (map_find zones (Zone msg)) as [z |]; cbn [negb].
  - destruct (Disabled z); cbn [negb]; [apply quiet_refl |].
    destruct (map_get false (zoneState r) (Name z)); cbn [negb];
      [apply quiet_refl |].
    pose proof (quiet_publish_zone (Name z) (lit "on") r) as Hq.
    destruct (publish (zone_topic (Name z)) (lit "on") r) as [r1 | e r1];
      cbn [and_then run_of] in *; [| exact Hq].
    eapply quiet_trans; [exact Hq |].
    eapply quiet_trans; [apply quiet_logf | apply quiet_zoneState].
  - set (r0 := logf _ _ r).
    assert (H0 : quiet r r0) by apply quiet_logf.
    cbn [Disabled zone_zero negb Name].
    destruct (map_get false (zoneState r0) []); cbn [negb]; [exact H0 |].
    pose proof (quiet_publish_zone [] (lit "on") r0) as Hq.
    destruct (publish (zone_topic []) (lit "on") r0) as [r1 | e r1];
      cbn [and_then run_of] in *;
      [| eapply quiet_trans; [exact H0 | exact Hq]].
    eapply quiet_trans; [exact H0 |].
    eapply quiet_trans; [exact Hq |].
    eapply quiet_trans; [apply quiet_logf | apply quiet_zoneState].
Qed.

Lemma clear_zones_quiet (zones : gomap zone) (msg : Message)
    (order : list gostring) :
  forall r, quiet r (run_of (clear_zones zones msg order r)).
Proof.
  induction order as [| k rest IH]; intros r; [apply quiet_refl |].
  cbn [clear_zones].
  destruct (streq k (Zone msg)); [apply IH |].
  destruct (map_get false (zoneState r) k); cbn [negb]; [| apply IH].
  set (r0 := with_zoneState _ r).
  assert (H0 : quiet r r0) by apply quiet_zoneState.
  destruct (streq (Name (map_get zone_zero zones k)) []); cbn [negb].
  - eapply quiet_trans; [exact H0 | apply IH].
  - pose proof (quiet_publish_zone (Name (map_get zone_zero zones k)) (lit "off") r0)
      as Hq.
    destruct (publish _ (lit "off") r0) as [r1 | e r1]; cbn [run_of] in *.
    + eapply quiet_trans; [exact H0 |].
      eapply quiet_trans; [exact Hq |].
      eapply quiet_trans; [apply quiet_logf | apply IH].
    + eapply quiet_trans; [exact H0 | exact Hq].
Qed.

Lemma process_advances (zones : gomap zone) (visit : gomap bool -> list gostring)
    (msg : Message) (r : Run) :
  advances r (run_of (process zones visit msg r)).
Proof.
  unfold process.
  pose proof (update_alarm_state_advances msg r) as H1.
  destruct (update_alarm_state msg r) as [r1 | e r1]; cbn [and_then run_of] in *;
    [| exact H1].
  pose proof (handle_zone_trigger_quiet zones msg r1) as H2.
  destruct (handle_zone_trigger zones msg r1) as [r2 | e r2];
    cbn [and_then run_of] in *.
  - destruct (Ready msg).
    + eapply advances_trans; [exact H1 |].
      apply quiet_advances. eapply quiet_trans; [exact H2 |].
      apply clear_zones_quiet.
    + eapply advances_trans; [exact H1 | now apply quiet_advances].
  - eapply advances_trans; [exact H1 | now apply quiet_advances].
Qed.

Lemma iteration_advances (zones : gomap zone) (fuel : nat)
    (visit : gomap bool -> list gostring) (r : Run) (f : flow) :
  iteration zones fuel visit r = Some (Return f) -> advances r (run_of f).
Proof.
  unfold iteration.
  destruct (Read fuel (decoder r)) as [[[[msg [e |]] ad] | p] |];
    intros H; try discriminate; injection H as <-.
  - cbn [run_of]. apply quiet_advances.
    eapply quiet_trans; [apply quiet_decoder | apply quiet_logf].
  - eapply advances_trans; [apply quiet_advances, quiet_decoder |].
    apply process_advances.
Qed.

(** X16: over any number of passes of the loop, whatever the stream, the
    zones and the broker's answers: the payloads published on the alarm's
    state topic never repeat the one before, the first differs from the
    [alarmState] the passes started with, and the last is the [alarmState]
    they end with; this also when [run] returns on a failed [Publish]. *)
Theorem alarm_state_published_on_change (zones : gomap zone) (fuel : nat)
    (visits : list (gomap bool -> list gostring)) (r : Run) (f : flow) :
  iterations zones fuel visits r = Some (Return f) ->
  exists new,
    events (world (run_of f)) = events (world r) ++ new /\
    no_repeat (alarmState r :: state_payloads new) /\
    last (state_payloads new) (alarmState r) = alarmState (run_of f).
Proof.
  revert r f. induction visits as [| visit more IH]; intros r f H;
    change (advances r (run_of f)).
  - cbn in H. injection H as <-. apply advances_refl.
  - cbn [iterations] in H.
    destruct (iteration zones fuel visit r) as [[[r1 | e r1] | p] |] eqn:Hit;
      try discriminate.
    + eapply advances_trans; [| apply (IH r1 f H)].
      apply (iteration_advances _ _ _ _ _ Hit).
    + injection H as <-. apply (iteration_advances _ _ _ _ _ Hit).
Qed.

Lemma alarm_state_witness :
  exists new,
    events (world (run_of three_lines_end)) = events (world three_lines) ++ new /\
    no_repeat (alarmState three_lines :: state_payloads new) /\
    last (state_payloads new) (alarmState three_lines)
      = alarmState (run_of three_lines_end).
Proof.
  apply (alarm_state_published_on_change two_zones 200 [keys; keys; keys]
           three_lines three_lines_end).
  vm_compute. reflexivity.
Defined.

(** ** Zones *)

Lemma publish_goes (topic payload : gostring) (r : Run) :
  replies (world r) = [] ->
  publish topic payload r
  = Goes (with_world (mkOutside (events (world r) ++ [Published topic payload]) []) r).
Proof. intros H. unfold publish, Publish. now rewrite H. Qed.

(** What the [range] over [zoneState] leaves behind when every [Publish]
    succeeds: an entry is [true] afterwards when it was [true] before and
    the loop has passed it by, and "off" has gone out for every entry it
    has cleared whose zone has a name. *)
Lemma clear_zones_goes (zones : gomap zone) (msg : Message)
    (order : list gostring) :
  forall r : Run,
  replies (world r) = [] ->
  exists r' new,
    clear_zones zones msg order r = Goes r' /\
    replies (world r') = [] /\
    events (world r') = events (world r) ++ new /\
    alarmState r' = alarmState r /\
    (forall k, map_get false (zoneState r') k = true <->
               map_get false (zoneState r) k = true /\
               (k = Zone msg \/ ~ In k order)) /\
    (forall k, k <> Zone msg -> In k order ->
               map_get false (zoneState r) k = true ->
               Name (map_get zone_zero zones k) <> [] ->
               In (Published (zone_topic (Name (map_get zone_zero zones k)))
                             (lit "off")) new) /\
    (forall t p, In (Published t p) new -> p = lit "off").
Proof.
  induction order as [| k rest IH]; intros r Hrep.
  - exists r, []. cbn [clear_zones]. rewrite app_nil_r.
    conjs; try reflexivity; try assumption.
    + intros k. split; [| now intros [H _]].
      intros H. split; [exact H | right; intros []].
    + intros k _ [].
    + intros t p [].
  - cbn [clear_zones].
    destruct (streq_spec k (Zone msg)) as [Hk | Hk].
    { destruct (IH r Hrep) as [r' [new [Hrun [Hrep' [Hev [Hal [Hz [Hoff Honly]]]]]]]].
      exists r', new. conjs; try assumption.
      - intros k0. rewrite Hz. split; intros [H1 H2]; (split; [exact H1 |]).
        + destruct H2 as [-> | H2]; [now left |].
          destruct (streq_spec k0 (Zone msg)) as [-> | Hne]; [now left |].
          right. intros [-> | Hin]; [congruence | now apply H2].
        + destruct H2 as [-> | H2]; [now left |].
          right. intros Hin. apply H2. now right.
      - intros k0 Hne [-> | Hin] Hset Hname; [congruence |].
        now apply Hoff. }
    destruct (map_get false (zoneState r) k) eqn:Hv; cbn [negb].
    2:{ destruct (IH r Hrep) as [r' [new [Hrun [Hrep' [Hev [Hal [Hz [Hoff Honly]]]]]]]].
        exists r', new. conjs; try assumption.
        - intros k0. rewrite Hz. split; intros [H1 H2]; (split; [exact H1 |]).
          + destruct H2 as [-> | H2]; [now left |].
            right. intros [-> | Hin]; [congruence | now apply H2].
          + destruct H2 as [-> | H2]; [now left |].
            right. intros Hin. apply H2. now right.
        - intros k0 Hne [-> | Hin] Hset Hname; [congruence |].
          now apply Hoff. }
    set (r0 := with_zoneState (map_set (zoneState r) k false) r).
    set (z := map_get zone_zero zones k).
    assert (Hget0 : forall k0, map_get false (zoneState r0) k0 = true <->
                               map_get false (zoneState r) k0 = true /\ k0 <> k).
    { intros k0. cbn [r0 with_zoneState zoneState].
      destruct (streq_spec k0 k) as [-> | Hne].
      - rewrite map_get_set_same. split; [discriminate | intros [_ H]; congruence].
      - rewrite map_get_set_other by assumption. tauto. }
    destruct (streq_spec (Name z) []) as [Hname | Hname]; cbn [negb].
    + destruct (IH r0 Hrep) as [r' [new [Hrun [Hrep' [Hev [Hal [Hz [Hoff Honly]]]]]]]].
      exists r', new. conjs; try assumption.
      * intros k0. rewrite Hz, Hget0. split.
        -- intros [[H1 H2] H3]. split; [exact H1 |].
           destruct H3 as [-> | H3]; [now left |].
           right. intros [-> | Hin]; [congruence | now apply H3].
        -- intros [H1 H2]. split; [split; [exact H1 |] |].
           ++ destruct H2 as [-> | H2]; [congruence |].
              intros ->. apply H2. now left.
           ++ destruct H2 as [-> | H2]; [now left |].
              right. intros Hin. apply H2. now right.
      * intros k0 Hne [-> | Hin] Hset Hnm; [fold z in Hnm; congruence |].
        destruct (streq_spec k0 k) as [-> | Hk0]; [fold z in Hnm; congruence |].
        apply Hoff; try assumption. apply Hget0. now split.
    + rewrite (publish_goes _ _ r0 Hrep).
      set (r1 := logf _ _ _).
      destruct (IH r1) as [r' [new [Hrun [Hrep' [Hev [Hal [Hz [Hoff Honly]]]]]]]];
        [reflexivity |].
      exists r', (Published (zone_topic (Name z)) (lit "off")
                  :: Logged "[alarm] Zone %q has been cleared" [ArgString (Name z)]
                  :: new).
      conjs; try assumption.
      * rewrite Hev. cbn [r1 r0 logf with_world with_zoneState Printf world events].
        rewrite <- !app_assoc. reflexivity.
      * intros k0. rewrite Hz.
        change (zoneState r1) with (zoneState r0). rewrite Hget0. split.
        -- intros [[H1 H2] H3]. split; [exact H1 |].
           destruct H3 as [-> | H3]; [now left |].
           right. intros [-> | Hin]; [congruence | now apply H3].
        -- intros [H1 H2]. split; [split; [exact H1 |] |].
           ++ destruct H2 as [-> | H2]; [congruence |].
              intros ->. apply H2. now left.
           ++ destruct H2 as [-> | H2]; [now left |].
              right. intros Hin. apply H2. now right.
      * intros k0 Hne [-> | Hin] Hset Hnm; [now left |].
        destruct (streq_spec k0 k) as [-> | Hk0]; [now left |].
        right. right. apply Hoff; try assumption.
        change (zoneState r1) with (zoneState r0). apply Hget0. now split.
      * intros t p [H | [H | H]]; [now injection H as _ <- | discriminate |].
        now apply (Honly t).
Qed.

Lemma update_alarm_state_goes (msg : Message) (r : Run) :
  replies (world r) = [] ->
  exists r' new,
    update_alarm_state msg r = Goes r' /\
    replies (world r') = [] /\
    events (world r') = events (world r) ++ new /\
    zoneState r' = zoneState r /\
    alarmState r' = newAlarmState msg /\
    (forall t p, In (Published t p) new -> t = state_topic).
Proof.
  intros Hrep. unfold update_alarm_state.
  destruct (streq_spec (newAlarmState msg) (alarmState r)) as [E | Hne]; cbn [negb].
  - exists r, []. rewrite app_nil_r. conjs; try reflexivity; try assumption.
    + now symmetry.
    + intros t p [].
  - rewrite publish_goes by exact Hrep. cbn [and_then].
    eexists. exists [Published state_topic (newAlarmState msg);
                     Logged "[alarm] Set state to %s" [ArgString (newAlarmState msg)]].
    split; [reflexivity |].
    cbn [logf with_world with_alarmState Printf world events replies
           zoneState alarmState].
    rewrite <- app_assoc. conjs; try reflexivity.
    intros t p [H | [H | []]]; [now injection H as <- _ | discriminate].
Qed.

(** The zone a message is about, as the loop looks it up. *)
Lemma handle_zone_trigger_goes (zones : gomap zone) (msg : Message) (r : Run) :
  replies (world r) = [] ->
  exists r' new,
    handle_zone_trigger zones msg r = Goes r' /\
    replies (world r') = [] /\
    events (world r') = events (world r) ++ new /\
    alarmState r' = alarmState r /\
    ((Disabled (map_get zone_zero zones (Zone msg)) = false /\
      map_get false (zoneState r) (Name (map_get zone_zero zones (Zone msg))) = false /\
      zoneState r' = map_set (zoneState r) (Zone msg) true /\
      In (Published (zone_topic (Name (map_get zone_zero zones (Zone msg))))
                    (lit "on")) new /\
      (forall t p, In (Published t p) new ->
                   t = zone_topic (Name (map_get zone_zero zones (Zone msg))) /\
                   p = lit "on")) \/
     ((Disabled (map_get zone_zero zones (Zone msg)) = true \/
       map_get false (zoneState r) (Name (map_get zone_zero zones (Zone msg))) = true) /\
      zoneState r' = zoneState r /\
      (forall t p, ~ In (Published t p) new))).
Proof.
  intros Hrep.
  set (zn := map_get zone_zero zones (Zone msg)).
  assert (Hzn : zn = match map_find zones (Zone msg) with
                     | Some z => z
                     | None => zone_zero
                     end) by reflexivity.
  clearbody zn. unfold handle_zone_trigger.
  destruct (map_find zones (Zone msg)) as [z |]; subst zn; cbn [negb].
  - destruct (Disabled z) eqn:Hdis; cbn [negb].
    { exists r, []. rewrite app_nil_r. conjs; try reflexivity; try assumption.
      right. conjs; [now left | reflexivity | intros t p []]. }
    destruct (map_get false (zoneState r) (Name z)) eqn:Hst; cbn [negb].
    { exists r, []. rewrite app_nil_r. conjs; try reflexivity; try assumption.
      right. conjs; [now right | reflexivity | intros t p []]. }
    rewrite publish_goes by exact Hrep. cbn [and_then].
    eexists. exists [Published (zone_topic (Name z)) (lit "on");
                     Logged "[alarm] Zone %q has been triggered" [ArgString (Name z)]].
    split; [reflexivity |].
    cbn [logf with_world with_zoneState Printf world events replies
           zoneState alarmState].
    rewrite <- app_assoc. conjs; try reflexivity.
    left. conjs; try reflexivity; [now left |].
    intros t p [H | [H | []]]; [now injection H as <- <- | discriminate].
  - cbn [Disabled zone_zero Name negb].
    change (zoneState (logf "[alarm] Unknown zone %q has been triggered"
                         [ArgString (Zone msg)] r)) with (zoneState r).
    destruct (map_get false (zoneState r) []) eqn:Hst; cbn [negb].
    { eexists. exists [Logged "[alarm] Unknown zone %q has been triggered"
                               [ArgString (Zone msg)]].
      split; [reflexivity |].
      cbn [logf with_world Printf world events replies zoneState alarmState].
      conjs; try reflexivity; try assumption.
      right. conjs; [now right | reflexivity |].
      intros t p [H | []]. discriminate. }
    rewrite publish_goes by exact Hrep. cbn [and_then].
    eexists. exists [Logged "[alarm] Unknown zone %q has been triggered"
                             [ArgString (Zone msg)];
                     Published (zone_topic []) (lit "on");
                     Logged "[alarm] Zone %q has been triggered" [ArgString []]].
    split; [reflexivity |].
    cbn [logf with_world with_zoneState Printf world events replies
           zoneState alarmState].
    rewrite <- !app_assoc. conjs; try reflexivity.
    left. conjs; try reflexivity; [right; now left |].
    intros t p [H | [H | [H | []]]]; try discriminate. now injection H as <- <-.
Qed.

(** X17: a message with [Ready] set clears every other zone.  When the
    publishes succeed and [range] leaves out no entry that is set, the
    pass leaves no zone marked but the message's own, and "off" has been
    published for each zone that was marked and has a name. *)
Theorem ready_message_clears_other_zones (zones : gomap zone)
    (visit : gomap bool -> list gostring) (msg : Message) (r : Run)
    (k : gostring) :
  replies (world r) = [] ->
  visits_all visit ->
  Ready msg = true ->
  k <> Zone msg ->
  exists r' new,
    process zones visit msg r = Goes r' /\
    events (world r') = events (world r) ++ new /\
    map_get false (zoneState r') k = false /\
    (map_get false (zoneState r) k = true ->
     Name (map_get zone_zero zones k) <> [] ->
     In (Published (zone_topic (Name (map_get zone_zero zones k))) (lit "off"))
        new).
Proof.
  intros Hrep Hvisit Hready Hk.
  destruct (update_alarm_state_goes msg r Hrep)
    as [r1 [n1 [H1 [Hrep1 [Hev1 [Hz1 _]]]]]].
  destruct (handle_zone_trigger_goes zones msg r1 Hrep1)
    as [r2 [n2 [H2 [Hrep2 [Hev2 [_ Hcase]]]]]].
  destruct (clear_zones_goes zones msg (visit (zoneState r2)) r2 Hrep2)
    as [r' [n3 [H3 [Hrep3 [Hev3 [_ [Hz3 [Hoff _]]]]]]]].
  assert (Hsame : map_get false (zoneState r2) k = map_get false (zoneState r) k).
  { destruct Hcase as [[_ [_ [-> _]]] | [_ [-> _]]]; rewrite Hz1;
      [now apply map_get_set_other | reflexivity]. }
  exists r', (n1 ++ n2 ++ n3).
  unfold process. rewrite H1. cbn [and_then]. rewrite H2. cbn [and_then].
  rewrite Hready. conjs.
  - exact H3.
  - rewrite Hev3, Hev2, Hev1, <- !app_assoc. reflexivity.
  - destruct (map_get false (zoneState r') k) eqn:E; [| reflexivity].
    apply Hz3 in E as [Hset [-> | Hnot]]; [congruence |].
    exfalso. apply Hnot. now apply Hvisit.
  - intros Hset Hname. apply in_or_app. right. apply in_or_app. right.
    apply Hoff; try assumption; [| now rewrite Hsame].
    apply Hvisit. now rewrite Hsame.
Qed.

Lemma keys_visits_all : visits_all keys.
Proof.
  intros m k. unfold map_get, keys.
  induction m as [| [k' v] m IH]; cbn [map_find map fst]; [discriminate |].
  destruct (streq_spec k' k) as [-> | _]; [now left |].
  intros H. right. now apply IH.
Qed.

Lemma ready_message_clears_witness :
  exists r' new,
    process two_zones keys ready_message (one_zone_marked (New (stream [])))
      = Goes r' /\
    events (world r')
      = events (world (one_zone_marked (New (stream [])))) ++ new /\
    map_get false (zoneState r') (lit "008") = false /\
    (map_get false (zoneState (one_zone_marked (New (stream [])))) (lit "008") = true ->
     Name (map_get zone_zero two_zones (lit "008")) <> [] ->
     In (Published (zone_topic (Name (map_get zone_zero two_zones (lit "008"))))
                   (lit "off")) new).
Proof.
  apply (ready_message_clears_other_zones two_zones keys ready_message
           (one_zone_marked (New (stream []))) (lit "008")).
  - reflexivity.
  - exact keys_visits_all.
  - reflexivity.
  - discriminate.
Defined.



(** ** The broker's picture of the zones *)

Lemma zone_topic_inj (a b : gostring) : zone_topic a = zone_topic b -> a = b.
Proof.
  unfold zone_topic. intros H. apply app_inv_head in H.
  now apply app_inv_tail in H.
Qed.

Lemma streq_zone_topic (a b : gostring) :
  streq (zone_topic a) (zone_topic b) = streq a b.
Proof.
  destruct (streq_spec a b) as [-> | Hne]; [apply streq_refl |].
  destruct (streq_spec (zone_topic a) (zone_topic b)) as [E | _]; [| reflexivity].
  now apply zone_topic_inj in E.
Qed.

Lemma state_topic_not_zone (n : gostring) :
  streq state_topic (zone_topic n) = false.
Proof.
  destruct (streq_spec state_topic (zone_topic n)) as [E | _]; [| reflexivity].
  unfold zone_topic, state_topic in E. cbn in E. discriminate.
Qed.

Lemma zone_shown_app (n : gostring) (a c : list event) :
  forall b, zone_shown n b (a ++ c) = zone_shown n (zone_shown n b a) c.
Proof.
  induction a as [| [t p | f args] a IH]; intros b; cbn [zone_shown app];
    [reflexivity | | apply IH].
  destruct (streq t (zone_topic n)); apply IH.
Qed.

(** Events that publish nothing on the topic of [n] leave its picture. *)
Lemma zone_shown_silent (n : gostring) (new : list event) :
  (forall t p, In (Published t p) new -> streq t (zone_topic n) = false) ->
  forall b, zone_shown n b new = b.
Proof.
  induction new as [| [t p | f args] new IH]; intros H b; cbn [zone_shown];
    [reflexivity | |].
  - rewrite (H t p) by now left. apply IH. intros t' p' Hin. apply (H t' p'). now right.
  - apply IH. intros t' p' Hin. apply (H t' p'). now right.
Qed.

Lemma zones_agree_extend (zones : gomap zone) (r r' : Run) (new : list event) :
  zones_agree zones r ->
  events (world r') = events (world r) ++ new ->
  (forall k, map_get false (zoneState r') k
             = zone_shown k (map_get false (zoneState r) k) new) ->
  (forall k, map_get false (zoneState r') k = true ->
             map_get false (zoneState r) k = true \/ map_find zones k <> None) ->
  zones_agree zones r'.
Proof.
  intros Hagree Hev Hnew Hconf k. destruct (Hagree k) as [Hk Hc]. split.
  - rewrite Hev, zone_shown_app, <- Hk. apply Hnew.
  - intros Hset. destruct (Hconf k Hset) as [H | H]; [now apply Hc | exact H].
Qed.

Lemma update_alarm_state_agrees (zones : gomap zone) (msg : Message) (r : Run) :
  replies (world r) = [] ->
  zones_agree zones r ->
  exists r',
    update_alarm_state msg r = Goes r' /\
    replies (world r') = [] /\ zones_agree zones r'.
Proof.
  intros Hrep Hagree.
  destruct (update_alarm_state_goes msg r Hrep)
    as [r1 [n1 [H1 [Hrep1 [Hev1 [Hz1 [_ Honly]]]]]]].
  exists r1. conjs; try assumption.
  apply (zones_agree_extend zones r r1 n1 Hagree Hev1).
  - intros k. rewrite Hz1. symmetry. apply zone_shown_silent.
    intros t p Hin. rewrite (Honly t p Hin). apply state_topic_not_zone.
  - intros k Hset. left. now rewrite <- Hz1.
Qed.

Lemma handle_zone_trigger_agrees (zones : gomap zone) (msg : Message)
    (r : Run) (z : zone) :
  named_by_key zones ->
  map_find zones (Zone msg) = Some z ->
  replies (world r) = [] ->
  zones_agree zones r ->
  exists r',
    handle_zone_trigger zones msg r = Goes r' /\
    replies (world r') = [] /\ zones_agree zones r'.
Proof.
  intros Hnamed Hfind Hrep Hagree.
  destruct (handle_zone_trigger_goes zones msg r Hrep)
    as [r2 [n2 [H2 [Hrep2 [Hev2 [_ Hcase]]]]]].
  assert (Hz : map_get zone_zero zones (Zone msg) = z).
  { unfold map_get. now rewrite Hfind. }
  destruct (Hnamed _ _ Hfind) as [Hname _].
  rewrite Hz, Hname in Hcase.
  exists r2. conjs; try assumption.
  apply (zones_agree_extend zones r r2 n2 Hagree Hev2).
  - intros k.
    destruct Hcase as [[_ [Hst [Hz2 [Hon Honly]]]] | [_ [Hz2 Hnone]]]; rewrite Hz2.
    + destruct (streq_spec k (Zone msg)) as [-> | Hne].
      * rewrite map_get_set_same, Hst. clear Hev2 H2.
        induction n2 as [| [t p | f args] n2 IH]; [destruct Hon | |].
        -- destruct (Honly t p) as [-> ->]; [now left |].
           cbn [zone_shown]. rewrite streq_refl.
           change (streq (lit "on") (lit "on")) with true.
           clear IH Hon.
           induction n2 as [| [t p | f args] n2 IH]; [reflexivity | |].
           ++ destruct (Honly t p) as [-> ->]; [right; now left |].
              cbn [zone_shown]. rewrite streq_refl. apply IH.
              intros t p [H | H]; apply (Honly t p); [now left | right; now right].
           ++ cbn [zone_shown]. apply IH.
              intros t p [H | H]; apply (Honly t p); [now left | right; now right].
        -- cbn [zone_shown]. destruct Hon as [H | Hon]; [discriminate |].
           apply IH; [exact Hon |].
           intros t p Hin. apply (Honly t p). now right.
      * rewrite map_get_set_other by assumption. symmetry.
        apply zone_shown_silent. intros t p Hin.
        destruct (Honly t p Hin) as [-> _]. rewrite streq_zone_topic.
        destruct (streq_spec (Zone msg) k); [congruence | reflexivity].
    + symmetry. apply zone_shown_silent. intros t p Hin. now destruct (Hnone t p).
  - intros k Hset.
    destruct Hcase as [[_ [Hst [Hz2 _]]] | [_ [Hz2 _]]]; rewrite Hz2 in Hset.
    + destruct (streq_spec k (Zone msg)) as [-> | Hne].
      * right. congruence.
      * left. now rewrite map_get_set_other in Hset.
    + now left.
Qed.

Lemma clear_zones_agrees (zones : gomap zone) (msg : Message)
    (order : list gostring) :
  named_by_key zones ->
  forall r : Run,
  replies (world r) = [] ->
  zones_agree zones r ->
  exists r',
    clear_zones zones msg order r = Goes r' /\
    replies (world r') = [] /\ zones_agree zones r'.
Proof.
  intros Hnamed.
  induction order as [| k rest IH]; intros r Hrep Hagree.
  - exists r. now conjs.
  - cbn [clear_zones].
    destruct (streq k (Zone msg)); [now apply IH |].
    destruct (map_get false (zoneState r) k) eqn:Hv; cbn [negb]; [| now apply IH].
    destruct (Hagree k) as [_ Hconf].
    destruct (map_find zones k) as [z |] eqn:Hfind; [| now destruct (Hconf Hv)].
    destruct (Hnamed _ _ Hfind) as [Hname Hk].
    assert (Hz : map_get zone_zero zones k = z).
    { unfold map_get. now rewrite Hfind. }
    rewrite Hz, Hname.
    destruct (streq_spec k []) as [E | _]; [contradiction |]. cbn [negb].
    rewrite publish_goes by exact Hrep.
    apply IH; [reflexivity |].
    apply (zones_agree_extend zones r _
             [Published (zone_topic k) (lit "off");
              Logged "[alarm] Zone %q has been cleared" [ArgString k]] Hagree).
    + cbn [logf with_world with_zoneState Printf world events].
      now rewrite <- app_assoc.
    + intros k'. cbn [logf with_world with_zoneState zoneState zone_shown].
      rewrite streq_zone_topic.
      destruct (streq_spec k k') as [<- | Hne].
      * now rewrite map_get_set_same.
      * rewrite map_get_set_other by congruence. reflexivity.
    + intros k'. cbn [logf with_world with_zoneState zoneState].
      destruct (streq_spec k' k) as [-> | Hne].
      * rewrite map_get_set_same. discriminate.
      * rewrite map_get_set_other by assumption. now left.
Qed.

(** X19: with a configuration that files every zone under its own,
    non-empty name, a broker that accepts what is published, and a message
    about a configured zone, the body of the loop keeps the broker's
    picture of the zones equal to [zoneState]: after the pass as before
    it, a zone is marked exactly when "on" is the last payload published
    on its topic. *)
Theorem zones_stay_in_agreement (zones : gomap zone)
    (visit : gomap bool -> list gostring) (msg : Message) (r : Run) (z : zone) :
  named_by_key zones ->
  map_find zones (Zone msg) = Some z ->
  replies (world r) = [] ->
  zones_agree zones r ->
  exists r',
    process zones visit msg r = Goes r' /\
    replies (world r') = [] /\ zones_agree zones r'.
Proof.
  intros Hnamed Hfind Hrep Hagree.
  destruct (update_alarm_state_agrees zones msg r Hrep Hagree)
    as [r1 [H1 [Hrep1 Hagree1]]].
  destruct (handle_zone_trigger_agrees zones msg r1 z Hnamed Hfind Hrep1 Hagree1)
    as [r2 [H2 [Hrep2 Hagree2]]].
  unfold process. rewrite H1. cbn [and_then]. rewrite H2. cbn [and_then].
  destruct (Ready msg).
  - now apply clear_zones_agrees.
  - exists r2. now conjs.
Qed.

Lemma two_zones_named : named_by_key two_zones.
Proof.
  intros k z H. unfold two_zones in H. cbn [map_find] in H.
  destruct (streq_spec (lit "008") k) as [<- | _].
  { injection H as <-. split; [reflexivity | discriminate]. }
  destruct (streq_spec (lit "012") k) as [<- | _]; [| discriminate].
  injection H as <-. split; [reflexivity | discriminate].
Qed.

Lemma one_zone_marked_agrees (ad : AlarmDecoder) :
  zones_agree two_zones (one_zone_marked ad).
Proof.
  intros k. unfold map_get.
  cbn [one_zone_marked zoneState world events map_find zone_shown].
  rewrite streq_zone_topic.
  destruct (streq_spec (lit "008") k) as [<- | _].
  - split; [reflexivity |]. intros _. discriminate.
  - split; [reflexivity | discriminate].
Qed.

Lemma zones_stay_in_agreement_witness :
  exists r',
    process two_zones keys ready_message (one_zone_marked (New (stream [])))
      = Goes r' /\
    replies (world r') = [] /\ zones_agree two_zones r'.
Proof.
  apply (zones_stay_in_agreement two_zones keys ready_message
           (one_zone_marked (New (stream [])))
           (mkZone (lit "012") (lit "Garage") (lit "garage_door") false)).
  - exact two_zones_named.
  - reflexivity.
  - reflexivity.
  - apply one_zone_marked_agrees.
Defined.

(** ** A line that is accepted *)

Lemma publish_decoder (topic payload : gostring) (r : Run) :
  decoder (run_of (publish topic payload r)) = decoder r.
Proof.
  unfold publish, Publish.
  destruct (replies (world r)) as [| [e |] rs]; reflexivity.
Qed.

Lemma update_alarm_state_decoder (msg : Message) (r : Run) :
  decoder (run_of (update_alarm_state msg r)) = decoder r.
Proof.
  unfold update_alarm_state.
  destruct (streq (newAlarmState msg) (alarmState r)); cbn [negb]; [reflexivity |].
  pose proof (publish_decoder state_topic (newAlarmState msg)
                (with_alarmState (newAlarmState msg) r)) as H.
  cbn [with_alarmState alarmState].
  destruct (publish _ _ _) as [r1 | e r1]; cbn [and_then run_of] in *; exact H.
Qed.







(** * Writing to the panel *)

Lemma Write__eq (ad : AlarmDecoder) (p : gostring) :
  Write_ ad p = mkAlarmDecoder (sent (rw ad) p) (scanner ad).
Proof.
  unfold Write_, Write, sent.
  destruct (Transport_Write (rw ad) p) as [[n e] t]. reflexivity.
Qed.

Lemma sent_fields (t : Transport) (p : gostring) :
  incoming (sent t p) = incoming t /\ closing (sent t p) = closing t /\
  write_refused (sent t p) = write_refused t /\
  outgoing (sent t p)
    = match write_refused t with
      | Some _ => outgoing t
      | None => outgoing t ++ p
      end.
Proof.
  unfold sent, Transport_Write.
  destruct (write_refused t) eqn:E; cbn; rewrite ?E; auto.
Qed.





(** ** The callback *)

Lemma byte_of_byte_val (c : ascii) : byte_of (byte_val c) = c.
Proof.
  unfold byte_of, byte_val.
  assert (H : (N_of_ascii c < 256)%N) by apply N_ascii_bounded.
  rewrite Z.mod_small by lia.
  rewrite N2Z.id. apply ascii_N_embedding.
Qed.

(** On ASCII the runes of a string are its bytes, and each goes back to
    the byte it came from. *)
Lemma ascii_runes (s : gostring) :
  all_ascii s ->
  map string_of_rune (range_runes s 0) = map (fun c => [c]) s.
Proof.
  induction 1 as [| c s Hc _ IH]; [reflexivity |].
  assert (Hpos : 0 <= byte_val c) by (unfold byte_val; lia).
  unfold RuneSelf in Hc.
  cbn [range_runes]. unfold DecodeRuneInString, first.
  destruct (Z.ltb_spec (byte_val c) 128); [| lia].
  change (240 <=? 240) with true. change (Z.odd 240) with false. cbv iota.
  change (1 - 1)%nat with 0%nat. cbn [map]. rewrite IH. f_equal.
  unfold string_of_rune.
  destruct (Z.leb_spec 0 (byte_val c)); [| lia].
  destruct (Z.leb_spec (byte_val c) 127); [| lia].
  cbn [andb]. now rewrite byte_of_byte_val.
Qed.

Lemma Writes_go_out (ps : list gostring) :
  forall ad : AlarmDecoder,
  write_refused (rw ad) = None ->
  outgoing (rw (fold_left Write_ ps ad)) = outgoing (rw ad) ++ List.concat ps /\
  write_refused (rw (fold_left Write_ ps ad)) = None /\
  incoming (rw (fold_left Write_ ps ad)) = incoming (rw ad) /\
  scanner (fold_left Write_ ps ad) = scanner ad.
Proof.
  induction ps as [| p ps IH]; intros ad Hw.
  - cbn. rewrite app_nil_r. auto.
  - cbn [fold_left List.concat].
    destruct (sent_fields (rw ad) p) as [Hi [_ [Hw' Ho]]]. rewrite Hw in Ho, Hw'.
    destruct (IH (Write_ ad p)) as [H1 [H2 [H3 H4]]].
    { rewrite Write__eq. exact Hw'. }
    rewrite H1, H2, H3, H4, Write__eq. cbn [rw scanner].
    rewrite Ho, Hi, <- app_assoc. auto.
Qed.

Lemma fold_left_map {A B C : Type} (f : A -> B -> A) (g : C -> B)
    (l : list C) :
  forall a, fold_left (fun a c => f a (g c)) l a = fold_left f (map g l) a.
Proof. induction l as [| c l IH]; intros a; [reflexivity | apply IH]. Qed.

Lemma concat_singletons {A : Type} (s : list A) :
  List.concat (map (fun c => [c]) s) = s.
Proof. induction s as [| c s IH]; [reflexivity | cbn; now rewrite IH]. Qed.

(** X22: a request to disarm sends the code and then the key 1.  When the
    action is DISARM, the code is made of ASCII bytes and is not the word
    None, and the stream takes what is written, the callback writes
    exactly the bytes of the code followed by the byte '1', and touches
    neither the scanner nor the bytes still to be read. *)
Theorem disarm_sends_code_then_1 (action : mqttAction) (unmarshal : option error)
    (ad : AlarmDecoder) (o : Outside) :
  Action action = lit "DISARM" ->
  Code action <> lit "None" ->
  all_ascii (Code action) ->
  write_refused (rw ad) = None ->
  outgoing (rw (fst (mqttCallback action unmarshal ad o)))
    = outgoing (rw ad) ++ Code action ++ lit "1" /\
  incoming (rw (fst (mqttCallback action unmarshal ad o))) = incoming (rw ad) /\
  scanner (fst (mqttCallback action unmarshal ad o)) = scanner ad.
Proof.
  intros Hact Hcode Hascii Hw.
  unfold mqttCallback. rewrite Hact.
  change (streq (lit "DISARM") (lit "ARM_HOME")) with false.
  change (streq (lit "DISARM") (lit "ARM_AWAY")) with false.
  change (streq (lit "DISARM") (lit "DISARM")) with true.
  cbv iota.
  destruct (streq_spec (Code action) (lit "None")) as [E | _]; [contradiction |].
  cbv zeta. cbn [fst].
  rewrite (fold_left_map Write_ string_of_rune).
  rewrite (ascii_runes _ Hascii).
  destruct (Writes_go_out (map (fun c => [c]) (Code action) ++ [lit "1"]) ad Hw)
    as [H1 [_ [H3 H4]]].
  rewrite fold_left_app in H1, H3, H4. cbn [fold_left] in H1, H3, H4.
  rewrite concat_app, concat_singletons in H1.
  cbn [List.concat] in H1. rewrite app_nil_r in H1.
  split; [exact H1 | split; [exact H3 | exact H4]].
Qed.

Lemma disarm_witness :
  outgoing (rw (fst (mqttCallback disarm_1234 None (New (stream [])) (mkOutside [] []))))
    = outgoing (rw (New (stream []))) ++ Code disarm_1234 ++ lit "1" /\
  incoming (rw (fst (mqttCallback disarm_1234 None (New (stream [])) (mkOutside [] []))))
    = incoming (rw (New (stream []))) /\
  scanner (fst (mqttCallback disarm_1234 None (New (stream [])) (mkOutside [] [])))
    = scanner (New (stream [])).
Proof.
  apply (disarm_sends_code_then_1 disarm_1234 None (New (stream []))
           (mkOutside [] [])).
  - reflexivity.
  - discriminate.
  - repeat (apply Forall_cons; [reflexivity |]). apply Forall_nil.
  - reflexivity.
Defined.

(** * What [Read] never does *)







(** * From the bit field to the alarm state *)

(** X24: the alarm state the loop derives from an accepted line is read
    off five bytes of its bit field, in this order of precedence: '1' at
    position 11 or 10 gives triggered; else '1' at 3 gives armed_home;
    else '1' at 2 gives armed_away; else anything but '1' at 1 gives
    pending; else disarmed. *)
Theorem alarm_state_of_an_accepted_line (s bits : gostring)
    (rest : list gostring) (m : Message) :
  ParseMessage s = Return (m, None) ->
  Split s comma = bits :: rest ->
  newAlarmState m
  = if is_one (bit bits 11) || is_one (bit bits 10) then lit "triggered"
    else if is_one (bit bits 3) then lit "armed_home"
    else if is_one (bit bits 2) then lit "armed_away"
    else if negb (is_one (bit bits 1)) then lit "pending"
    else lit "disarmed".
Proof.
  intros H HS.
  destruct (ParseMessage_accepted_decoded _ _ H)
    as [bits' [z [rd [msg [HS' [_ [_ [_ ->]]]]]]]].
  rewrite HS in HS'. injection HS' as <- _. reflexivity.
Qed.

Lemma alarm_state_of_line_witness :
  newAlarmState test_message
  = if is_one (bit (lit "[00000000011000003A--]") 11)
       || is_one (bit (lit "[00000000011000003A--]") 10)
    then lit "triggered"
    else if is_one (bit (lit "[00000000011000003A--]") 3) then lit "armed_home"
    else if is_one (bit (lit "[00000000011000003A--]") 2) then lit "armed_away"
    else if negb (is_one (bit (lit "[00000000011000003A--]") 1)) then lit "pending"
    else lit "disarmed".
Proof.
  apply (alarm_state_of_an_accepted_line test_line (lit "[00000000011000003A--]")
           [[]; []; dquote ++ lit "test" ++ dquote] test_message);
    reflexivity.
Defined.

(** * A stream that gives nothing *)

(** The read loop on a stream whose next reads, one more than the loop
    tolerates, all return no byte and no error. *)
Lemma Scan_read_no_progress (k : nat) :
  forall (t : Transport) (s : Scanner) (more : list gostring),
  incoming t = repeat [] (S k) ++ more ->
  end_ s <= buf_len s ->
  err s = None ->
  exists t' s',
    Scan_read k t s = (t', s') /\
    incoming t' = more /\ closing t' = closing t /\
    outgoing t' = outgoing t /\ write_refused t' = write_refused t /\
    err s' = Some ErrNoProgress /\
    buf s' = buf s /\ start s' = start s /\ buf_len s' = buf_len s /\
    done s' = done s /\ maxTokenSize s' = maxTokenSize s.
Proof.
  induction k as [| k IH]; intros t s more Hinc Hroom Herr.
  all: cbn [Scan_read]; unfold Transport_Read; rewrite Hinc;
       cbn [repeat app]; cbv zeta;
       change (len (@nil ascii)) with 0;
       destruct (Z.leb_spec 0 (buf_len s - end_ s)); [| lia];
       change (firstn (Z.to_nat (Z.min (buf_len s - end_ s) 0)) (@nil ascii))
         with (firstn (Z.to_nat (Z.min (buf_len s - end_ s) 0)) (@nil ascii));
       rewrite firstn_nil; change (len (@nil ascii)) with 0;
       destruct (Z.ltb_spec (buf_len s - end_ s) 0); [lia |];
       cbn [Z.ltb Z.compare orb].
  - eexists. eexists. split; [reflexivity |].
    unfold setErr. cbn [err with_buf]. rewrite Herr.
    cbn [incoming closing outgoing write_refused with_err with_buf err buf
           start buf_len done maxTokenSize].
    rewrite app_nil_r. now conjs.
  - set (t1 := mkTransport _ _ _ _). set (s1 := with_buf _ _ _ s).
    destruct (IH t1 s1 more) as [t' [s' [Hrun Hrest]]].
    + reflexivity.
    + unfold s1, end_. cbn [with_buf buf buf_len]. rewrite app_nil_r. exact Hroom.
    + exact Herr.
    + exists t', s'. split; [exact Hrun |].
      unfold t1, s1 in Hrest.
      cbn [incoming closing outgoing write_refused with_buf err buf
             start buf_len done maxTokenSize] in Hrest.
      rewrite app_nil_r in Hrest. exact Hrest.
Qed.

Lemma Read_no_progress_steps (ad : AlarmDecoder) (more : list gostring)
    (fuel : nat) :
  Scanner_ok (scanner ad) ->
  err (scanner ad) = None ->
  ~ In newline (pending (scanner ad)) ->
  len (pending (scanner ad)) < MaxScanTokenSize ->
  incoming (rw ad) = repeat [] (S maxConsecutiveEmptyReads) ++ more ->
  (2 <= fuel)%nat ->
  exists ad',
    Read fuel ad = Some (Return (Message_zero, Some ErrNoProgress, ad')) /\
    wedged ErrNoProgress ad' /\
    incoming (rw ad') = more /\ same_output ad ad'.
Proof.
  intros Hok Herr Hnl Hlen Hinc Hfuel.
  set (s := with_scanCalled true (scanner ad)).
  destruct (Scan_token_more s) as [s1 [Htok [Hb1 [Hs1 [Hl1 [He1 [Hd1 Hm1]]]]]]];
    try assumption; [apply Hok |].
  assert (Hok1 : Scanner_ok s1).
  { unfold Scanner_ok, end_ in *. rewrite Hb1, Hs1, Hl1, Hd1, Hm1. exact Hok. }
  assert (Hp1 : pending s1 = pending (scanner ad)).
  { unfold pending. now rewrite Hb1, Hs1. }
  destruct (Scan_room_ok s1 Hok1) as [s2 [Hroom [Hok2 [Hp2 [Hsp2 He2]]]]];
    [now rewrite Hp1 |].
  destruct (Scan_read_no_progress maxConsecutiveEmptyReads (rw ad) s2 more Hinc)
    as [t' [s3 [Hread [Hi' [Hc' [Ho' [Hw' [He3 [Hb3 [Hs3 [Hl3 [Hd3 Hm3]]]]]]]]]]]];
    [lia | congruence |].
  assert (Hok3 : Scanner_ok s3).
  { unfold Scanner_ok, end_ in *. rewrite Hb3, Hs3, Hl3, Hd3, Hm3. exact Hok2. }
  assert (Hp3 : pending s3 = pending (scanner ad)).
  { unfold pending in *. rewrite Hb3, Hs3. congruence. }
  destruct (Scan_round_last s3 ErrNoProgress Hok3 He3)
    as [s' [Hrun [Hok' [He' [Hp' Htok']]]]]; [now rewrite Hp3 |].
  exists (mkAlarmDecoder t' s'). split; [| split; [| split]].
  - unfold Read, Scan. destruct Hok as [Hdone _]. rewrite Hdone. fold s.
    destruct fuel as [| f]; [lia |].
    cbn [Scan_loop]. rewrite Htok. unfold has_err at 1. rewrite He1, Hroom, Hread.
    destruct f as [| f]; [lia |].
    rewrite Hrun. unfold Scanner_Err. now rewrite He'.
  - unfold wedged. cbn [scanner]. conjs; try assumption. rewrite Hp'. intros [].
  - exact Hi'.
  - unfold same_output. cbn [rw]. now conjs.
Qed.

(** X25: a stream whose reads return no byte and no error 101 times in a
    row wedges the reader.  From a scanner that holds no complete line,
    [Read] gives up with [io.ErrNoProgress], and so does every [Read]
    after it, whatever the stream would deliver next. *)
Theorem empty_reads_wedge_reader (ad : AlarmDecoder) (more : list gostring)
    (fuel n : nat) :
  Scanner_ok (scanner ad) ->
  err (scanner ad) = None ->
  ~ In newline (pending (scanner ad)) ->
  len (pending (scanner ad)) < MaxScanTokenSize ->
  incoming (rw ad) = repeat [] 101 ++ more ->
  (2 <= fuel)%nat ->
  exists ad',
    Reads fuel n ad
      = Some (repeat (Return (Message_zero, Some ErrNoProgress)) n, ad') /\
    same_output ad ad'.
Proof.
  intros Hok Herr Hnl Hlen Hinc Hfuel.
  destruct n as [| n].
  { exists ad. split; [reflexivity | now unfold same_output]. }
  destruct (Read_no_progress_steps ad more fuel Hok Herr Hnl Hlen Hinc Hfuel)
    as [ad1 [Hread [Hw1 [_ [Ha [Hb Hc]]]]]].
  destruct (Reads_wedged ErrNoProgress n ad1 fuel Hw1)
    as [ad' [Hreads [_ [Ha' [Hb' Hc']]]]]; [discriminate | lia |].
  exists ad'. cbn [Reads repeat]. rewrite Hread, Hreads.
  split; [reflexivity |]. unfold same_output. conjs; congruence.
Qed.

Lemma empty_reads_witness :
  exists ad',
    Reads 2 3 (New (stream (repeat [] 101 ++ [test_line ++ [newline]])))
      = Some (repeat (Return (Message_zero, Some ErrNoProgress)) 3, ad') /\
    same_output (New (stream (repeat [] 101 ++ [test_line ++ [newline]]))) ad'.
Proof.
  apply (empty_reads_wedge_reader
           (New (stream (repeat [] 101 ++ [test_line ++ [newline]])))
           [test_line ++ [newline]] 2 3).
  - unfold Scanner_ok, end_. cbn. unfold MaxScanTokenSize. conjs; try reflexivity; lia.
  - reflexivity.
  - intros [].
  - reflexivity.
  - reflexivity.
  - lia.
Defined.

(** * The zones at the loop's entry *)





